(** * use-chat: the Svelte chat hook of the AI SDK

    A shallow embedding of [packages/core/svelte/use-chat.ts] and the
    properties of its request engine ([getStreamedResponse]) and of its
    orchestrator ([triggerRequest], [append], [reload], [stop],
    [setMessages]).  The form glue ([handleSubmit] and the [input] cell) is
    not embedded.

    The hook is single-threaded asynchronous JavaScript.  It is embedded as
    a state-and-exception monad over a [World] that holds the module-level
    [store], the reactive cells, the orchestrator's [abortController]
    variable and a chronological trace of the effects a subscriber or the
    network can observe.  What the platform and the user supply (fetch, the
    body stream, the callbacks, the id generator, the clock) is data of an
    environment, so that every definition can be evaluated.  An awaited
    operation of the environment says whether the user interface calls
    [stop()] while it is pending; other re-entrant calls while an exchange
    is running are not modelled, and a callback is a function of its
    arguments. *)

From Stdlib Require Import String Ascii List Bool Arith Lia.
From stdpp Require Import base option gmap strings list pretty.
Import ListNotations.

Local Open Scope string_scope.
Local Open Scope nat_scope.
Local Open Scope list_scope.
Set Warnings "-register-all".

(** ** JavaScript values the hook handles *)

(** A thrown value.  [err_is_Error] is the result of [instanceof Error]. *)
Record JsError := mkJsError {
  err_name : string;
  err_message : string;
  err_is_Error : bool
}.

(** [new Error(msg)] *)
Definition new_Error (msg : string) : JsError :=
  {| err_name := "Error"; err_message := msg; err_is_Error := true |}.

(** What [JSON.parse] returns.  Numbers keep their lexeme. *)
Inductive json :=
| JNull
| JBool (b : bool)
| JNumber (lexeme : string)
| JString (s : string)
| JArray (items : list json)
| JObject (fields : list (string * json)).

(** The double quote character and one-character strings. *)
Definition dquote : ascii := "034"%char.
Definition str1 (c : ascii) : string := String c EmptyString.
Definition quoted (s : string) : string :=
  String dquote (String.append s (str1 dquote)).

(** ** A model of [JSON.parse] *)
Module Json.

Definition is_ws (c : ascii) : bool :=
  let n := nat_of_ascii c in
  (n =? 32) || (n =? 9) || (n =? 10) || (n =? 13).

Fixpoint skip_ws (s : string) : string :=
  match s with
  | String c r => if is_ws c then skip_ws r else s
  | EmptyString => s
  end.

Definition is_digit (c : ascii) : bool :=
  let n := nat_of_ascii c in (48 <=? n) && (n <=? 57).

Definition hex_val (c : ascii) : option nat :=
  let n := nat_of_ascii c in
  if (48 <=? n) && (n <=? 57) then Some (n - 48)
  else if (65 <=? n) && (n <=? 70) then Some (n - 55)
  else if (97 <=? n) && (n <=? 102) then Some (n - 87)
  else None.

(** UTF-8 bytes of a 16-bit code unit (an escape [\uXXXX]). *)
Definition utf8_of_unit (u : nat) : string :=
  if u <? 128 then str1 (ascii_of_nat u)
  else if u <? 2048 then
    String (ascii_of_nat (192 + u / 64))
      (str1 (ascii_of_nat (128 + u mod 64)))
  else
    String (ascii_of_nat (224 + u / 4096))
      (String (ascii_of_nat (128 + (u / 64) mod 64))
         (str1 (ascii_of_nat (128 + u mod 64)))).

(** The characters of a string literal after its opening quote, up to
    and including the closing quote. *)
Fixpoint string_body (s : string) : option (string * string) :=
  match s with
  | EmptyString => None
  | String c r =>
      if Ascii.eqb c dquote then Some (EmptyString, r)
      else if Ascii.eqb c "\"%char then
        match r with
        | String e r' =>
            let simple (x : ascii) :=
              match string_body r' with
              | Some (t, rest) => Some (String x t, rest)
              | None => None
              end in
            if Ascii.eqb e dquote then simple dquote
            else if Ascii.eqb e "\"%char then simple "\"%char
            else if Ascii.eqb e "/"%char then simple "/"%char
            else if Ascii.eqb e "b"%char then simple "008"%char
            else if Ascii.eqb e "f"%char then simple "012"%char
            else if Ascii.eqb e "n"%char then simple "010"%char
            else if Ascii.eqb e "r"%char then simple "013"%char
            else if Ascii.eqb e "t"%char then simple "009"%char
            else if Ascii.eqb e "u"%char then
              match r' with
              | String h1 (String h2 (String h3 (String h4 r''))) =>
                  match hex_val h1, hex_val h2, hex_val h3, hex_val h4 with
                  | Some a, Some b, Some c', Some d =>
                      match string_body r'' with
                      | Some (t, rest) =>
                          Some (String.append
                                  (utf8_of_unit (a * 4096 + b * 256 + c' * 16 + d)) t,
                                rest)
                      | None => None
                      end
                  | _, _, _, _ => None
                  end
              | _ => None
              end
            else None
        | EmptyString => None
        end
      else if nat_of_ascii c <? 32 then None
      else
        match string_body r with
        | Some (t, rest) => Some (String c t, rest)
        | None => None
        end
  end.

Fixpoint digits (s : string) : string * string :=
  match s with
  | String c r =>
      if is_digit c then let '(d, rest) := digits r in (String c d, rest)
      else (EmptyString, s)
  | EmptyString => (EmptyString, s)
  end.

Definition nonempty (s : string) : bool :=
  match s with EmptyString => false | _ => true end.

(** [-? int frac? exp?] *)
Definition number (s : string) : option (string * string) :=
  let '(sign, s1) :=
    match s with
    | String "-"%char r => (str1 "-"%char, r)
    | _ => (EmptyString, s)
    end in
  let int_part :=
    match s1 with
    | String "0"%char r => Some (str1 "0"%char, r)
    | _ => let '(d, r) := digits s1 in
           if nonempty d then Some (d, r) else None
    end in
  match int_part with
  | None => None
  | Some (i, s2) =>
      let frac :=
        match s2 with
        | String "."%char r =>
            let '(d, r') := digits r in
            if nonempty d then Some (String "."%char d, r') else None
        | _ => Some (EmptyString, s2)
        end in
      match frac with
      | None => None
      | Some (f, s3) =>
          let exp :=
            match s3 with
            | String e r =>
                if Ascii.eqb e "e"%char || Ascii.eqb e "E"%char then
                  let '(sg, r1) :=
                    match r with
                    | String "+"%char r1 => (str1 "+"%char, r1)
                    | String "-"%char r1 => (str1 "-"%char, r1)
                    | _ => (EmptyString, r)
                    end in
                  let '(d, r2) := digits r1 in
                  if nonempty d
                  then Some (String e (String.append sg d), r2)
                  else None
                else Some (EmptyString, s3)
            | EmptyString => Some (EmptyString, s3)
            end in
          match exp with
          | None => None
          | Some (x, s4) =>
              Some (String.append sign (String.append i (String.append f x)), s4)
          end
      end
  end.

Definition literal (word : string) (v : json) (s : string)
  : option (json * string) :=
  if String.prefix word s
  then Some (v, substring (String.length word)
                          (String.length s - String.length word) s)
  else None.

(** One value, then the elements of an array after a value, then the
    members of an object after a member; [fuel] bounds the nesting. *)
Fixpoint value (fuel : nat) (s : string) : option (json * string) :=
  match fuel with
  | O => None
  | S fuel' =>
      match skip_ws s with
      | EmptyString => None
      | String c r =>
          if Ascii.eqb c "{"%char then
            match skip_ws r with
            | String "}"%char r' => Some (JObject [], r')
            | _ =>
                match members fuel' r with
                | Some (fs, r') => Some (JObject fs, r')
                | None => None
                end
            end
          else if Ascii.eqb c "["%char then
            match skip_ws r with
            | String "]"%char r' => Some (JArray [], r')
            | _ =>
                match elements fuel' r with
                | Some (vs, r') => Some (JArray vs, r')
                | None => None
                end
            end
          else if Ascii.eqb c dquote then
            match string_body r with
            | Some (t, r') => Some (JString t, r')
            | None => None
            end
          else if Ascii.eqb c "t"%char then literal "true" (JBool true) (String c r)
          else if Ascii.eqb c "f"%char then literal "false" (JBool false) (String c r)
          else if Ascii.eqb c "n"%char then literal "null" JNull (String c r)
          else
            match number (String c r) with
            | Some (n, r') => Some (JNumber n, r')
            | None => None
            end
      end
  end
with elements (fuel : nat) (s : string) : option (list json * string) :=
  match fuel with
  | O => None
  | S fuel' =>
      match value fuel' s with
      | None => None
      | Some (v, r) =>
          match skip_ws r with
          | String "]"%char r' => Some ([v], r')
          | String ","%char r' =>
              match elements fuel' r' with
              | Some (vs, r'') => Some (v :: vs, r'')
              | None => None
              end
          | _ => None
          end
      end
  end
with members (fuel : nat) (s : string)
  : option (list (string * json) * string) :=
  match fuel with
  | O => None
  | S fuel' =>
      match skip_ws s with
      | String c r =>
          if Ascii.eqb c dquote then
            match string_body r with
            | None => None
            | Some (k, r1) =>
                match skip_ws r1 with
                | String ":"%char r2 =>
                    match value fuel' r2 with
                    | None => None
                    | Some (v, r3) =>
                        match skip_ws r3 with
                        | String "}"%char r4 => Some ([(k, v)], r4)
                        | String ","%char r4 =>
                            match members fuel' r4 with
                            | Some (fs, r5) => Some ((k, v) :: fs, r5)
                            | None => None
                            end
                        | _ => None
                        end
                    end
                | _ => None
                end
            end
          else None
      | EmptyString => None
      end
  end.

Definition SyntaxError : JsError :=
  {| err_name := "SyntaxError";
     err_message := "Unexpected token in JSON";
     err_is_Error := true |}.

(** [JSON.parse(text)]: the value, or the [SyntaxError] it throws.  Every
    nested call is made after at least one character was read, so the
    length of the text bounds the nesting. *)
Definition parse (text : string) : JsError + json :=
  match value (S (String.length text)) text with
  | Some (v, rest) =>
      match skip_ws rest with
      | EmptyString => inr v
      | _ => inl SyntaxError
      end
  | None => inl SyntaxError
  end.

(** Property read [o.key] on an object: a later duplicate key wins. *)
Fixpoint lookup_field (key : string) (fs : list (string * json)) : option json :=
  match fs with
  | [] => None
  | (k, v) :: rest =>
      match lookup_field key rest with
      | Some v' => Some v'
      | None => if String.eqb k key then Some v else None
      end
  end.

Definition TypeError : JsError :=
  {| err_name := "TypeError";
     err_message := "Cannot read properties of null";
     err_is_Error := true |}.

(** [v.key] for a parsed value [v]: [undefined] ([None]) when absent or
    when [v] is a primitive or an array, a [TypeError] on [null]. *)
Definition get_property (v : json) (key : string) : JsError + option json :=
  match v with
  | JNull => inl TypeError
  | JObject fs => inr (lookup_field key fs)
  | _ => inr None
  end.

End Json.

(** The function-call text of the specification. *)
Definition function_call_text : string :=
  String.append "{"
 (String.append (quoted "function_call")
 (String.append ": {"
 (String.append (quoted "name")
 (String.append ":"
 (String.append (quoted "f")
 (String.append ","
 (String.append (quoted "arguments")
 (String.append ":"
 (String.append (quoted "{}") "}}"))))))))).

Definition structured_call_f : json :=
  JObject [("name", JString "f"); ("arguments", JString "{}")].


(** ** Data model ([../shared/types]) *)

Inductive Role := user | assistant | system | function.

Definition Role_eqb (a b : Role) : bool :=
  match a, b with
  | user, user | assistant, assistant | system, system | function, function => true
  | _, _ => false
  end.

(** [function_call] is [string | ChatCompletionRequestMessageFunctionCall]:
    the raw text while it streams ([JString]), the parsed value afterwards. *)
Record Message := mkMessage {
  id : string;
  createdAt : option nat;
  content : string;
  role : Role;
  name : option string;
  function_call : option json
}.

(** [CreateMessage]: a [Message] whose [id] is optional. *)
Record CreateMessage := mkCreateMessage {
  cm_id : option string;
  cm_createdAt : option nat;
  cm_content : string;
  cm_role : Role;
  cm_name : option string;
  cm_function_call : option json
}.

(** [RequestOptions]: [{ headers?, body? }], absent fields as empty objects. *)
Record RequestOptions := mkRequestOptions {
  ro_headers : list (string * string);
  ro_body : list (string * json)
}.

Record ChatRequest := mkChatRequest {
  cr_messages : list Message;
  cr_options : option RequestOptions;
  cr_functions : option json;
  cr_function_call : option json
}.

Record ChatRequestOptions := mkChatRequestOptions {
  cro_options : option RequestOptions;
  cro_functions : option json;
  cro_function_call : option json
}.

(** What [append], [reload] and [triggerRequest] resolve to:
    [string | null | undefined]. *)
Inductive Resolved := RString (s : string) | RNull | RUndefined.

(** ** The environment *)

(** An awaited operation: whether the user interface calls [stop()] while
    it is pending, and how it settles (rejection or value). *)
Record Awaited (A : Type) := mkAwaited {
  ui_stop : bool;
  settled : JsError + A
}.
Arguments mkAwaited {A} _ _.
Arguments ui_stop {A} _.
Arguments settled {A} _.

Definition resolves {A} (a : A) : Awaited A := mkAwaited false (inr a).
Definition rejects {A} (e : JsError) : Awaited A := mkAwaited false (inl e).

(** The result of one [reader.read()], the chunk given by the text the
    chunk decoder returns for it. *)
Inductive ReadResult := ReadChunk (decoded : string) | ReadDone.

(** A fetch [Response]: [res.ok] is derived from the status, [res.text()]
    is awaited, [res.body] is [null] or a stream given by its successive
    reads (a stream that has no read left is closed). *)
Record Response := mkResponse {
  status : nat;
  text : Awaited string;
  res_body : option (list (Awaited ReadResult))
}.

Definition ok (res : Response) : bool :=
  (200 <=? status res) && (status res <=? 299).

(** A value of the JSON payload before [JSON.stringify]. *)
Inductive Payload :=
| PMessages (ms : list Message)
| PStripped (ms : list (Role * string * option string * option json))
| PJson (v : json).

Record FetchRequest := mkFetchRequest {
  rq_url : string;
  rq_method : string;
  rq_body : list (string * Payload);
  rq_headers : list (string * string);
  rq_signal : option nat
}.

(** Effects in the order they happen. *)
Inductive Event :=
| EvMutate (data : list Message)
| EvLoading (b : bool)
| EvError (e : JsError)
| EvFetch (rq : FetchRequest)
| EvReaderCancel
| EvAbort (controller : nat)
| EvOnResponse (res : Response)
| EvOnFinish (m : Message)
| EvOnError (e : JsError)
| EvOnFunctionCall (ms : list Message) (call : json).

(** [fetch], [nanoid] and [new Date()] answer by the number of calls made
    before. *)
Record Env := mkEnv {
  fetch : nat -> FetchRequest -> Awaited Response;
  nanoid : nat -> string;
  new_Date : nat -> nat
}.

(** The options of [useChat] with their defaults filled in; [chatId] is
    [id || `chat-${uniqueId++}`].  A callback is a function of its
    arguments that returns or throws. *)
Record UseChatOptions := mkUseChatOptions {
  api : string;
  chatId : string;
  initialMessages : list Message;
  sendExtraMessageFields : bool;
  onFunctionCall :
    option (list Message -> json -> Awaited (option ChatRequest));
  onResponse : option (Response -> Awaited unit);
  onFinish : option (Message -> JsError + unit);
  onError : option (JsError -> JsError + unit);
  headers : list (string * string);
  body : list (string * json)
}.

(** ** The state *)

Record World := mkWorld {
  store : gmap string (list Message);
  messages : list Message;
  error : option JsError;
  isLoading : bool;
  abortController : option nat;
  aborted : list nat;
  controllers : nat;
  generated : nat;
  requests : nat;
  trace : list Event
}.

Definition log (ev : Event) (w : World) : World :=
  mkWorld (store w) (messages w) (error w) (isLoading w) (abortController w)
          (aborted w) (controllers w) (generated w) (requests w)
          (trace w ++ [ev]).

(** ** Asynchronous code: state, exceptions, and fuel for [while (true)] *)

Inductive Outcome (A : Type) :=
| Ret (a : A)
| Throw (e : JsError)
| Pending.
Arguments Ret {A} _.
Arguments Throw {A} _.
Arguments Pending {A}.

Definition M (A : Type) : Type := World -> Outcome A * World.

Definition ret {A} (a : A) : M A := fun w => (Ret a, w).
Definition throw {A} (e : JsError) : M A := fun w => (Throw e, w).
Definition pending {A} : M A := fun w => (Pending, w).

Definition bind {A B} (m : M A) (k : A -> M B) : M B :=
  fun w =>
    match m w with
    | (Ret a, w') => k a w'
    | (Throw e, w') => (Throw e, w')
    | (Pending, w') => (Pending, w')
    end.

Notation "x <- m ;; k" := (bind m (fun x => k))
  (at level 20, m at level 99, k at level 200, only parsing).
Notation "m ;;; k" := (bind m (fun _ => k))
  (at level 100, k at level 200, right associativity, only parsing).

(** [try { m } catch (err) { h err }] *)
Definition try_catch {A} (m : M A) (h : JsError -> M A) : M A :=
  fun w =>
    match m w with
    | (Throw e, w') => h e w'
    | r => r
    end.

(** [try { m } finally { f }] *)
Definition try_finally {A} (m : M A) (f : M unit) : M A :=
  fun w =>
    match m w with
    | (Pending, w') => (Pending, w')
    | (o, w') =>
        match f w' with
        | (Ret _, w'') => (o, w'')
        | (Throw e, w'') => (Throw e, w'')
        | (Pending, w'') => (Pending, w'')
        end
    end.

Definition gets {A} (f : World -> A) : M A := fun w => (Ret (f w), w).
Definition modify (f : World -> World) : M unit := fun w => (Ret tt, f w).
Definition emit (ev : Event) : M unit := modify (log ev).

(** A synchronous callback. *)
Definition call {A} (r : JsError + A) : M A :=
  match r with
  | inl e => throw e
  | inr a => ret a
  end.

(** ** Object spread *)

(** [o[k] = v]: an existing key keeps its place. *)
Fixpoint set_key {V} (k : string) (v : V) (o : list (string * V))
  : list (string * V) :=
  match o with
  | [] => [(k, v)]
  | (k', v') :: rest =>
      if String.eqb k' k then (k', v) :: rest
      else (k', v') :: set_key k v rest
  end.

(** [{...o, ...extra}] *)
Definition spread {V} (o extra : list (string * V)) : list (string * V) :=
  fold_left (fun acc kv => set_key (fst kv) (snd kv) acc) extra o.

(** [{...o, ...(x !== undefined && { k: x })}] *)
Definition spread_if {V} (k : string) (x : option V) (o : list (string * V))
  : list (string * V) :=
  match x with
  | Some v => set_key k v o
  | None => o
  end.

(** ** Field updates *)

Definition set_content (s : string) (m : Message) : Message :=
  mkMessage (id m) (createdAt m) s (role m) (name m) (function_call m).

Definition set_function_call (fc : option json) (m : Message) : Message :=
  mkMessage (id m) (createdAt m) (content m) (role m) (name m) fc.

Definition set_store (k : string) (data : list Message) (w : World) : World :=
  mkWorld (<[k := data]> (store w)) (messages w) (error w) (isLoading w)
          (abortController w) (aborted w) (controllers w) (generated w)
          (requests w) (trace w).

Definition set_messages (data : list Message) (w : World) : World :=
  mkWorld (store w) data (error w) (isLoading w) (abortController w)
          (aborted w) (controllers w) (generated w) (requests w) (trace w).

Definition set_error (e : JsError) (w : World) : World :=
  mkWorld (store w) (messages w) (Some e) (isLoading w) (abortController w)
          (aborted w) (controllers w) (generated w) (requests w) (trace w).

Definition set_isLoading (b : bool) (w : World) : World :=
  mkWorld (store w) (messages w) (error w) b (abortController w)
          (aborted w) (controllers w) (generated w) (requests w) (trace w).

Definition set_abortController (c : option nat) (w : World) : World :=
  mkWorld (store w) (messages w) (error w) (isLoading w) c
          (aborted w) (controllers w) (generated w) (requests w) (trace w).

Definition abort_signal (c : nat) (w : World) : World :=
  mkWorld (store w) (messages w) (error w) (isLoading w) (abortController w)
          (c :: aborted w) (controllers w) (generated w) (requests w) (trace w).

Definition count_controller (w : World) : World :=
  mkWorld (store w) (messages w) (error w) (isLoading w) (abortController w)
          (aborted w) (S (controllers w)) (generated w) (requests w) (trace w).

Definition count_generated (w : World) : World :=
  mkWorld (store w) (messages w) (error w) (isLoading w) (abortController w)
          (aborted w) (controllers w) (S (generated w)) (requests w) (trace w).

Definition count_request (w : World) : World :=
  mkWorld (store w) (messages w) (error w) (isLoading w) (abortController w)
          (aborted w) (controllers w) (generated w) (S (requests w)) (trace w).

(** ** The hook *)

(** [stop] (lines 322-327): abort the live controller and clear the
    orchestrator's variable. *)
Definition stop : M unit :=
  c <- gets abortController ;;
  match c with
  | Some ctl =>
      modify (abort_signal ctl) ;;;
      emit (EvAbort ctl) ;;;
      modify (set_abortController None)
  | None => ret tt
  end.

(** [await p]: the user interface may call [stop()] while [p] is pending. *)
Definition await {A} (p : Awaited A) : M A :=
  (if ui_stop p then stop else ret tt) ;;;
  call (settled p).

(** The literal prefix tested by [startsWith]. *)
Definition function_call_prefix : string :=
  String.append "{" (String.append (quoted "function_call") ":").

Definition strip (m : Message)
  : Role * string * option string * option json :=
  (role m, content m, name m, function_call m).

Definition json_fields (o : list (string * json)) : list (string * Payload) :=
  map (fun kv => (fst kv, PJson (snd kv))) o.

(** The argument of [fetch] (lines 71-101). *)
Definition fetch_request (api : string) (chatRequest : ChatRequest)
    (headers : list (string * string)) (body : list (string * json))
    (abortControllerRef : option nat) (sendExtraMessageFields : bool)
  : FetchRequest :=
  let options_body :=
    match cr_options chatRequest with
    | Some o => ro_body o
    | None => []
    end in
  let options_headers :=
    match cr_options chatRequest with
    | Some o => ro_headers o
    | None => []
    end in
  {| rq_url := api;
     rq_method := "POST";
     rq_body :=
       spread_if "function_call" (PJson <$> cr_function_call chatRequest)
         (spread_if "functions" (PJson <$> cr_functions chatRequest)
            (spread
               (spread
                  [("messages",
                    if sendExtraMessageFields
                    then PMessages (cr_messages chatRequest)
                    else PStripped (map strip (cr_messages chatRequest)))]
                  (json_fields body))
               (json_fields options_body)));
     rq_headers := spread (spread [] headers) options_headers;
     rq_signal := abortControllerRef |}.

Section Engine.

Variable env : Env.

Definition do_fetch (rq : FetchRequest) : M Response :=
  n <- gets requests ;;
  modify count_request ;;;
  emit (EvFetch rq) ;;;
  await (fetch env n rq).

(** [nanoid()] and [new Date()] *)
Definition generate {A} (gen : Env -> nat -> A) : M A :=
  n <- gets generated ;;
  modify count_generated ;;;
  ret (gen env n).

(** The [while (true)] of lines 139-161, by recursion on the reads the
    stream still has. *)
Fixpoint read_loop (mutate : list Message -> M unit)
    (chatRequest : ChatRequest) (abortControllerRef : option nat)
    (reads : list (Awaited ReadResult))
    (streamedResponse : string) (responseMessage : Message)
  : M (string * Message) :=
  match reads with
  | [] => ret (streamedResponse, responseMessage)
  | r :: rest =>
      x <- await r ;;
      match x with
      | ReadDone => ret (streamedResponse, responseMessage)
      | ReadChunk value =>
          let streamedResponse := String.append streamedResponse value in
          let responseMessage :=
            if String.prefix function_call_prefix streamedResponse
            then set_function_call (Some (JString streamedResponse)) responseMessage
            else set_content streamedResponse responseMessage in
          mutate (cr_messages chatRequest ++ [responseMessage]) ;;;
          match abortControllerRef with
          | None =>
              emit EvReaderCancel ;;;
              ret (streamedResponse, responseMessage)
          | Some _ =>
              read_loop mutate chatRequest abortControllerRef rest
                        streamedResponse responseMessage
          end
      end
  end.

Definition is_empty (s : string) : bool :=
  match s with EmptyString => true | _ => false end.

(** Lines 163-177: once the stream is complete, a function call is
    parsed into an object and republished; then [onFinish]. *)
Definition finish_stream (chatRequest : ChatRequest)
    (mutate : list Message -> M unit)
    (onFinish : option (Message -> JsError + unit))
    (sr : string * Message)
  : M Message :=
  let streamedResponse := fst sr in
  let responseMessage := snd sr in
  responseMessage <-
    (if String.prefix function_call_prefix streamedResponse then
       parsed <- call (Json.parse streamedResponse) ;;
       parsedFunctionCall <- call (Json.get_property parsed "function_call") ;;
       let responseMessage :=
         set_function_call parsedFunctionCall responseMessage in
       mutate (cr_messages chatRequest ++ [responseMessage]) ;;;
       ret responseMessage
     else ret responseMessage) ;;
  match onFinish with
  | Some handler =>
      emit (EvOnFinish responseMessage) ;;; call (handler responseMessage)
  | None => ret tt
  end ;;;
  ret responseMessage.

(** Lines 126-177 of [getStreamedResponse]: the reply is read from the
    body, parsed when it is a function call, and handed to [onFinish]. *)
Definition stream_body (chatRequest : ChatRequest)
    (mutate : list Message -> M unit) (abortControllerRef : option nat)
    (onFinish : option (Message -> JsError + unit))
    (reads : list (Awaited ReadResult))
  : M Message :=
  createdAt <- generate new_Date ;;
  replyId <- generate nanoid ;;
  let responseMessage :=
    {| id := replyId; createdAt := Some createdAt;
       content := EmptyString; role := assistant;
       name := None; function_call := None |} in
  sr <- read_loop mutate chatRequest abortControllerRef reads
                  EmptyString responseMessage ;;
  finish_stream chatRequest mutate onFinish sr.

(** [getStreamedResponse] (lines 55-178) *)
Definition getStreamedResponse (api : string) (chatRequest : ChatRequest)
    (mutate : list Message -> M unit)
    (headers : list (string * string)) (body : list (string * json))
    (previousMessages : list Message) (abortControllerRef : option nat)
    (onFinish : option (Message -> JsError + unit))
    (onResponse : option (Response -> Awaited unit))
    (sendExtraMessageFields : bool)
  : M Message :=
  mutate (cr_messages chatRequest) ;;;
  res <- try_catch
           (do_fetch (fetch_request api chatRequest headers body
                                    abortControllerRef sendExtraMessageFields))
           (fun err => mutate previousMessages ;;; throw err) ;;
  match onResponse with
  | Some handler => emit (EvOnResponse res) ;;; await (handler res)
  | None => ret tt
  end ;;;
  if negb (ok res) then
    mutate previousMessages ;;;
    t <- await (text res) ;;
    throw (new_Error (if is_empty t
                      then "Failed to fetch the chat response."
                      else t))
  else
    match res_body res with
    | None => throw (new_Error "The response body is empty.")
    | Some reads =>
        stream_body chatRequest mutate abortControllerRef onFinish reads
    end.

End Engine.

Section UseChat.

Variable env : Env.
Variable opts : UseChatOptions.

Definition key : string :=
  String.append (api opts) (String.append "|" (chatId opts)).

(** Modelled from the spec: [originalMutate], the [mutate] that
    [useSWR] of the sswr package returns (the reactive cache, whose code
    is not part of this repository).  The spec gives it as
    [mutate(T)] on the observable cell of the key: it publishes the list
    into the cell that [get(messages)] reads. *)
Definition originalMutate (data : list Message) : M unit :=
  modify (set_messages data) ;;;
  emit (EvMutate data).

(** [mutate] (lines 208-211) *)
Definition mutate (data : list Message) : M unit :=
  modify (set_store key data) ;;;
  originalMutate data.

(** The state [useChat] starts from (lines 198-219), over the
    process-wide [store]. *)
Definition useChat (st : gmap string (list Message)) : World :=
  {| store := st; messages := initialMessages opts; error := None;
     isLoading := false; abortController := None; aborted := [];
     controllers := 0; generated := 0; requests := 0; trace := [] |}.

(** [abortController = new AbortController()] *)
Definition new_AbortController : M unit :=
  n <- gets controllers ;;
  modify count_controller ;;;
  modify (set_abortController (Some n)).

(** Lines 239-265: what one turn of the loop does with the message the
    engine returned; [again] is the next turn. *)
Definition handle_response (again : ChatRequest -> M unit)
    (chatRequest : ChatRequest) (streamedResponseMessage : Message)
  : M unit :=
  match function_call streamedResponseMessage with
  | None => ret tt
  | Some (JString _) => ret tt
  | Some functionCall =>
      match onFunctionCall opts with
      | Some handler =>
          current <- gets messages ;;
          emit (EvOnFunctionCall current functionCall) ;;;
          onFunctionCallResponse <- await (handler current functionCall) ;;
          match onFunctionCallResponse with
          | None => ret tt
          | Some next => again next
          end
      | None => again chatRequest
      end
  end.

(** The [while (true)] of lines 225-266; each turn costs one unit of
    [fuel], and [Pending] is the loop still running when it is spent. *)
Fixpoint request_loop (fuel : nat) (chatRequest : ChatRequest) : M unit :=
  match fuel with
  | O => pending
  | S fuel' =>
      previousMessages <- gets messages ;;
      abortControllerRef <- gets abortController ;;
      streamedResponseMessage <-
        getStreamedResponse env (api opts) chatRequest mutate
          (headers opts) (body opts) previousMessages abortControllerRef
          (onFinish opts) (onResponse opts) (sendExtraMessageFields opts) ;;
      handle_response (request_loop fuel') chatRequest streamedResponseMessage
  end.

Definition last_content (ms : list Message) : string :=
  match last ms with
  | Some m => content m
  | None => EmptyString
  end.

(** [triggerRequest] (lines 220-286) *)
Definition triggerRequest (fuel : nat) (chatRequest : ChatRequest)
  : M Resolved :=
  try_finally
    (try_catch
       (modify (set_isLoading true) ;;;
        emit (EvLoading true) ;;;
        new_AbortController ;;;
        request_loop fuel chatRequest ;;;
        modify (set_abortController None) ;;;
        ms <- gets messages ;;
        ret (RString (last_content ms)))
       (fun err =>
          if String.eqb (err_name err) "AbortError" then
            modify (set_abortController None) ;;;
            ret RNull
          else
            match onError opts with
            | Some handler =>
                if err_is_Error err
                then emit (EvOnError err) ;;; call (handler err)
                else ret tt
            | None => ret tt
            end ;;;
            modify (set_error err) ;;;
            emit (EvError err) ;;;
            ret RUndefined))
    (modify (set_isLoading false) ;;;
     emit (EvLoading false)).

(** [!message.id] *)
Definition no_id (i : option string) : bool :=
  match i with
  | None => true
  | Some s => is_empty s
  end.

Definition with_id (i : string) (message : CreateMessage) : Message :=
  {| id := i; createdAt := cm_createdAt message;
     content := cm_content message; role := cm_role message;
     name := cm_name message; function_call := cm_function_call message |}.

(** [chatOptions ?? {}] and the default [= {}] of [reload] *)
Definition no_options : ChatRequestOptions :=
  {| cro_options := None; cro_functions := None; cro_function_call := None |}.

(** [append] (lines 288-301) *)
Definition append (fuel : nat) (message : CreateMessage)
    (chatOptions : option ChatRequestOptions) : M Resolved :=
  i <- (if no_id (cm_id message) then generate env nanoid
        else ret (default EmptyString (cm_id message))) ;;
  let o := default no_options chatOptions in
  ms <- gets messages ;;
  triggerRequest fuel
    {| cr_messages := ms ++ [with_id i message];
       cr_options := cro_options o;
       cr_functions := cro_functions o;
       cr_function_call := cro_function_call o |}.

(** [slice(0, -1)] *)
Definition slice_0_minus1 {A} (l : list A) : list A :=
  take (length l - 1) l.

(** [reload] (lines 303-320) *)
Definition reload (fuel : nat) (o : ChatRequestOptions) : M Resolved :=
  messagesSnapshot <- gets messages ;;
  if length messagesSnapshot =? 0 then ret RNull
  else
    match last messagesSnapshot with
    | Some lastMessage =>
        if Role_eqb (role lastMessage) assistant then
          triggerRequest fuel
            {| cr_messages := slice_0_minus1 messagesSnapshot;
               cr_options := cro_options o;
               cr_functions := cro_functions o;
               cr_function_call := cro_function_call o |}
        else ret RUndefined
    | None => ret RUndefined
    end.

(** [setMessages] (lines 329-331) *)
Definition setMessages (data : list Message) : M unit :=
  mutate data.

End UseChat.

(** ** Vocabulary of the properties *)

(** The store slot of the session key holds the observable list. *)
Definition synced (k : string) (w : World) : Prop :=
  store w !! k = Some (messages w).

(** The lists published by a run of events, oldest first. *)
Fixpoint published (evs : list Event) : list (list Message) :=
  match evs with
  | [] => []
  | EvMutate data :: rest => data :: published rest
  | _ :: rest => published rest
  end.

Fixpoint fetched (evs : list Event) : list FetchRequest :=
  match evs with
  | [] => []
  | EvFetch rq :: rest => rq :: fetched rest
  | _ :: rest => fetched rest
  end.

(** How often the reader was cancelled, and the controllers aborted. *)
Fixpoint cancels (evs : list Event) : nat :=
  match evs with
  | [] => 0
  | EvReaderCancel :: rest => S (cancels rest)
  | _ :: rest => cancels rest
  end.

Fixpoint aborts (evs : list Event) : list nat :=
  match evs with
  | [] => []
  | EvAbort c :: rest => c :: aborts rest
  | _ :: rest => aborts rest
  end.

(** What a run of the engine leaves alone: the error cell and the loading
    flag; its events all satisfy [Q]; and the cell and the store slot hold
    the list it published last, or what they held when it published none. *)
Record evolves (k : string) (Q : Event -> Prop) (w w' : World) : Prop :=
  mkEvolves {
    ev_error : error w' = error w;
    ev_isLoading : isLoading w' = isLoading w;
    ev_trace : exists evs,
      trace w' = trace w ++ evs /\ Forall Q evs
      /\ messages w' = default (messages w) (last (published evs))
      /\ store w' !! k = match last (published evs) with
                         | Some data => Some data
                         | None => store w !! k
                         end
  }.

Definition stable (k : string) (Q : Event -> Prop) {A} (m : M A) : Prop :=
  forall w, evolves k Q w (snd (m w)).

(** The events of the read loop and of the rest of the body. *)
Definition body_emits (chatRequest : ChatRequest)
    (abortControllerRef : option nat) (ev : Event) : Prop :=
  match ev with
  | EvMutate data => exists m, data = cr_messages chatRequest ++ [m]
  | EvOnFinish _ | EvAbort _ => True
  | EvReaderCancel => abortControllerRef = None
  | _ => False
  end.

(** The events of [getStreamedResponse]. *)
Definition engine_emits (chatRequest : ChatRequest)
    (previousMessages : list Message) (abortControllerRef : option nat)
    (ev : Event) : Prop :=
  match ev with
  | EvMutate data =>
      data = cr_messages chatRequest \/ data = previousMessages
      \/ exists m, data = cr_messages chatRequest ++ [m]
  | EvFetch rq => rq_signal rq = abortControllerRef
  | EvOnResponse _ | EvOnFinish _ | EvAbort _ => True
  | EvReaderCancel => abortControllerRef = None
  | _ => False
  end.

(** The events of the request loop: everything but the writes of the
    loading flag and of the error cell. *)
Definition loop_emits (ev : Event) : Prop :=
  match ev with
  | EvLoading _ | EvError _ | EvOnError _ => False
  | _ => True
  end.

(** The events of the engine once its request is issued. *)
Definition after_fetch_emits (ev : Event) : Prop :=
  match ev with
  | EvMutate _ | EvReaderCancel | EvAbort _ | EvOnResponse _ | EvOnFinish _ =>
      True
  | _ => False
  end.

Definition any_event (ev : Event) : Prop := True.

Definition not_loading (ev : Event) : Prop :=
  match ev with
  | EvLoading _ => False
  | _ => True
  end.

(** Since [w], something was published, and in [w'] the store slot and the
    cell both hold the list published last. *)
Definition holds_last_published (k : string) (w w' : World) : Prop :=
  exists evs data,
    trace w' = trace w ++ evs /\ last (published evs) = Some data
    /\ store w' !! k = Some data /\ messages w' = data.

(** One chunk absorbed into the accumulator and the in-progress message
    (lines 145-152). *)
Definition absorb (acc : string * Message) (value : string) : string * Message :=
  let streamedResponse := String.append (fst acc) value in
  (streamedResponse,
   if String.prefix function_call_prefix streamedResponse
   then set_function_call (Some (JString streamedResponse)) (snd acc)
   else set_content streamedResponse (snd acc)).

Definition after_chunks (chunks : list string) (acc : string * Message)
  : string * Message :=
  fold_left absorb chunks acc.

(** The in-progress messages after each chunk. *)
Fixpoint partials (chunks : list string) (acc : string * Message)
  : list Message :=
  match chunks with
  | [] => []
  | value :: rest => snd (absorb acc value) :: partials rest (absorb acc value)
  end.

(** The lists published while the chunks are read (line 154). *)
Definition chunk_publications (chatRequest : ChatRequest)
    (chunks : list string) (acc : string * Message) : list (list Message) :=
  map (fun m => cr_messages chatRequest ++ [m]) (partials chunks acc).

(** The state after a series of publications. *)
Definition publish (k : string) (lists : list (list Message)) (w : World)
  : World :=
  fold_left (fun w data => log (EvMutate data)
                             (set_messages data (set_store k data w)))
            lists w.

(** Reads that deliver the given chunks while nobody calls [stop()]. *)
Definition chunk_reads (chunks : list string) : list (Awaited ReadResult) :=
  map (fun value => resolves (ReadChunk value)) chunks.

(** The state once an awaited operation has settled: [stop()] has run if
    the user interface called it meanwhile. *)
Definition stopped (called : bool) (w : World) : World :=
  if called then snd (stop w) else w.

Definition settle {A} (r : JsError + A) : Outcome A :=
  match r with
  | inl e => Throw e
  | inr a => Ret a
  end.

(** The state in which [triggerRequest] enters its loop (lines 222-223). *)
Definition entered (w : World) : World :=
  set_abortController (Some (controllers w))
    (count_controller (log (EvLoading true) (set_isLoading true w))).

(** The in-progress message at the start of a stream. *)
Definition reply (env : Env) (w : World) : Message :=
  {| id := nanoid env (S (generated w));
     createdAt := Some (new_Date env (generated w));
     content := EmptyString; role := assistant;
     name := None; function_call := None |}.

(** [onResponse], when registered, returns normally on [res] (whether or
    not [stop()] is called meanwhile). *)
Definition accepted (onResponse : option (Response -> Awaited unit))
    (res : Response) : Prop :=
  match onResponse with
  | Some handler => settled (handler res) = inr tt
  | None => True
  end.

(** [onError], when registered, returns normally on [err]. *)
Definition reported (onError : option (JsError -> JsError + unit))
    (err : JsError) : Prop :=
  match onError with
  | Some handler => err_is_Error err = true -> handler err = inr tt
  | None => True
  end.

(** The error of line 119. *)
Definition status_error (t : string) : JsError :=
  new_Error (if is_empty t then "Failed to fetch the chat response." else t).

(** [stop()] is called while [p] is pending and the abort makes it reject. *)
Definition aborted_by_stop {A} (p : Awaited A) (e : JsError) : Prop :=
  ui_stop p = true /\ settled p = inl e /\ err_name e = "AbortError".

(** The engine as one turn of the loop calls it (lines 226-237), and the
    request it sends. *)
Definition engine_turn (env : Env) (opts : UseChatOptions)
    (chatRequest : ChatRequest) : M Message :=
  fun w =>
    getStreamedResponse env (api opts) chatRequest (mutate opts)
      (headers opts) (body opts) (messages w) (abortController w)
      (onFinish opts) (onResponse opts) (sendExtraMessageFields opts) w.

Definition turn_request (opts : UseChatOptions) (chatRequest : ChatRequest)
    (w : World) : FetchRequest :=
  fetch_request (api opts) chatRequest (headers opts) (body opts)
    (abortController w) (sendExtraMessageFields opts).

(** A [function_call] that the loop does not break on (lines 239-244). *)
Definition structured (call : json) : Prop :=
  match call with
  | JString _ => False
  | _ => True
  end.

(** One turn of the loop leads to another: the engine returned a
    structured call, and either no handler is registered (the request is
    the same) or the handler returned the next request. *)
Inductive next_turn (env : Env) (opts : UseChatOptions)
  : ChatRequest -> World -> ChatRequest -> World -> Prop :=
| next_unhandled chatRequest w m w1 call :
    engine_turn env opts chatRequest w = (Ret m, w1) ->
    function_call m = Some call -> structured call ->
    onFunctionCall opts = None ->
    next_turn env opts chatRequest w chatRequest w1
| next_handled chatRequest w m w1 call handler next :
    engine_turn env opts chatRequest w = (Ret m, w1) ->
    function_call m = Some call -> structured call ->
    onFunctionCall opts = Some handler ->
    settled (handler (messages w1) call) = inr (Some next) ->
    next_turn env opts chatRequest w next
      (stopped (ui_stop (handler (messages w1) call))
         (log (EvOnFunctionCall (messages w1) call) w1)).

(** The loop started with [fuel], a request and a state comes, after
    some turns, to a turn with [fuel'], a request and a state. *)
Inductive reaches (env : Env) (opts : UseChatOptions)
  : nat -> ChatRequest -> World -> nat -> ChatRequest -> World -> Prop :=
| reaches_here fuel chatRequest w :
    reaches env opts fuel chatRequest w fuel chatRequest w
| reaches_later fuel chatRequest w chatRequest1 w1 fuel' chatRequest' w' :
    next_turn env opts chatRequest w chatRequest1 w1 ->
    reaches env opts fuel chatRequest1 w1 fuel' chatRequest' w' ->
    reaches env opts (S fuel) chatRequest w fuel' chatRequest' w'.

(** [stop()] is called while the request of an exchange is active, and the
    pending operation (the fetch, the read of the error text, or a read of
    the stream after some chunks) rejects with the abort. *)
Inductive stopped_while_active (opts : UseChatOptions)
    (p : Awaited Response) (e : JsError) : Prop :=
| stop_during_fetch :
    aborted_by_stop p e -> stopped_while_active opts p e
| stop_during_text res :
    settled p = inr res -> accepted (onResponse opts) res ->
    ok res = false -> aborted_by_stop (text res) e ->
    stopped_while_active opts p e
| stop_during_read res chunks rd rest :
    settled p = inr res -> accepted (onResponse opts) res ->
    ok res = true ->
    res_body res = Some (chunk_reads chunks ++ rd :: rest) ->
    aborted_by_stop rd e ->
    stopped_while_active opts p e.

(** ** Scenarios *)

Definition default_options : UseChatOptions :=
  {| api := "/api/chat"; chatId := "chat-0"; initialMessages := [];
     sendExtraMessageFields := false; onFunctionCall := None;
     onResponse := None; onFinish := None; onError := None;
     headers := []; body := [] |}.

Definition hi : CreateMessage :=
  {| cm_id := None; cm_createdAt := Some 0; cm_content := "hi";
     cm_role := user; cm_name := None; cm_function_call := None |}.

Definition ids (n : nat) : string :=
  String.append "id-" (str1 (ascii_of_nat (48 + n mod 10))).

Definition ok_stream (reads : list (Awaited ReadResult)) : Response :=
  {| status := 200; text := resolves EmptyString; res_body := Some reads |}.

Definition serving (res : Response) : Env :=
  {| fetch := fun _ _ => resolves res; nanoid := ids; new_Date := fun n => n |}.

(** A backend that answers every request with the function call. *)
Definition server_always_calls : Env :=
  serving (ok_stream (chunk_reads [function_call_text])).

Definition AbortError : JsError :=
  {| err_name := "AbortError";
     err_message := "The user aborted a request.";
     err_is_Error := true |}.

Definition start : World := useChat default_options ∅.

Definition no_messages : ChatRequest :=
  {| cr_messages := []; cr_options := None; cr_functions := None;
     cr_function_call := None |}.

(** The function-call text without its first character. *)
Definition function_call_tail : string :=
  substring 1 (String.length function_call_text - 1) function_call_text.

(** The user calls [stop()] while the first chunk is awaited; the chunk
    still arrives, and so does the next. *)
Definition stop_ignored_stream : Env :=
  serving (ok_stream [mkAwaited true (inr (ReadChunk "Hel"));
                      resolves (ReadChunk "lo")]).

(** The user calls [stop()] while the second chunk is awaited, and the
    abort makes that read reject. *)
Definition stop_honoured_stream : Env :=
  serving (ok_stream [resolves (ReadChunk "Hel");
                      mkAwaited true (inl AbortError);
                      resolves (ReadChunk "lo")]).

Definition say_hi : ChatRequest :=
  {| cr_messages := [with_id "m1" hi]; cr_options := None;
     cr_functions := None; cr_function_call := None |}.

Definition old_answer : Message :=
  {| id := "m2"; createdAt := Some 1; content := "hello"; role := assistant;
     name := None; function_call := None |}.

(** Histories that end in a user message and in an assistant message. *)
Definition after_user : World :=
  snd (setMessages default_options [with_id "m1" hi] start).

Definition after_assistant : World :=
  snd (setMessages default_options [with_id "m1" hi; old_answer] start).

Definition network_error : JsError :=
  {| err_name := "TypeError"; err_message := "Failed to fetch";
     err_is_Error := true |}.

Definition boom : JsError := new_Error "boom".

Definition server_error : Response :=
  {| status := 500; text := resolves "oops"; res_body := None |}.

Definition unreadable_error : Response :=
  {| status := 500; text := rejects network_error; res_body := None |}.

Definition unreachable : Env :=
  {| fetch := fun _ _ => rejects network_error;
     nanoid := ids; new_Date := fun n => n |}.

Definition broken_stream : Response :=
  ok_stream (chunk_reads ["Hel"]
             ++ [rejects network_error; resolves (ReadChunk "lo")]).

Definition hello_stream : Response := ok_stream (chunk_reads ["Hel"; "lo"]).

(** [onResponse] throws. *)
Definition vetoing_options : UseChatOptions :=
  {| api := "/api/chat"; chatId := "chat-0"; initialMessages := [];
     sendExtraMessageFields := false; onFunctionCall := None;
     onResponse := Some (fun _ => rejects boom); onFinish := None;
     onError := None; headers := []; body := [] |}.

(** [onError] throws. *)
Definition failing_onError_options : UseChatOptions :=
  {| api := "/api/chat"; chatId := "chat-0"; initialMessages := [];
     sendExtraMessageFields := false; onFunctionCall := None;
     onResponse := None; onFinish := None;
     onError := Some (fun _ => inl boom); headers := []; body := [] |}.

Definition hi_with_id : CreateMessage :=
  {| cm_id := Some "m1"; cm_createdAt := Some 0; cm_content := "hi";
     cm_role := user; cm_name := None; cm_function_call := None |}.

Definition aborted_read : Awaited ReadResult := mkAwaited true (inl AbortError).

(** ** The rest of the hook *)

(** [id || `chat-${uniqueId++}`] (line 198): the session id and the
    module-level counter afterwards. *)
Definition chat_id (given : option string) (uniqueId : nat) : string * nat :=
  if no_id given
  then (String.append "chat-" (pretty uniqueId), S uniqueId)
  else (default EmptyString given, uniqueId).

(** What [handleSubmit] leaves behind: whether [e.preventDefault()] was
    called, the [input] cell, and the state of the hook. *)
Record Submitted := mkSubmitted {
  default_prevented : bool;
  input_value : string;
  hook_state : World
}.

(** [handleSubmit] (lines 335-350), given the value of the [input] cell.
    The promise of [append] is dropped, so its outcome is not part of the
    result and [input.set('')] runs whatever becomes of the request; the
    state is the one the exchange leaves (or has reached when [fuel] is
    spent). *)
Definition handleSubmit (env : Env) (opts : UseChatOptions) (fuel : nat)
    (inputValue : string) (options : ChatRequestOptions) (w : World)
  : Submitted :=
  if is_empty inputValue then
    {| default_prevented := true; input_value := inputValue; hook_state := w |}
  else
    let message :=
      {| cm_id := None;
         cm_createdAt := Some (new_Date env (generated w));
         cm_content := inputValue; cm_role := user;
         cm_name := None; cm_function_call := None |} in
    {| default_prevented := true;
       input_value := EmptyString;
       hook_state :=
         snd (append env opts fuel message (Some options) (count_generated w)) |}.

(** ** Vocabulary of the further properties *)

(** [o[k]]: the first entry for the key. *)
Fixpoint get_key {V} (k : string) (o : list (string * V)) : option V :=
  match o with
  | [] => None
  | (k', v) :: rest => if String.eqb k' k then Some v else get_key k rest
  end.

(** The entry for the key that a spread of [o] assigns last. *)
Definition find_last {V} (k : string) (o : list (string * V)) : option V :=
  fold_left (fun acc kv => if String.eqb (fst kv) k then Some (snd kv) else acc)
            o None.

(** The [messages] entry of the payload (lines 74-85). *)
Definition payload_messages (sendExtraMessageFields : bool)
    (ms : list Message) : Payload :=
  if sendExtraMessageFields then PMessages ms else PStripped (map strip ms).

Definition options_body (chatRequest : ChatRequest) : list (string * json) :=
  match cr_options chatRequest with
  | Some o => ro_body o
  | None => []
  end.

Definition options_headers (chatRequest : ChatRequest)
  : list (string * string) :=
  match cr_options chatRequest with
  | Some o => ro_headers o
  | None => []
  end.

(** Two messages that differ at most in [id] and [createdAt]. *)
Definition same_core (m m' : Message) : Prop :=
  role m = role m' /\ content m = content m'
  /\ name m = name m' /\ function_call m = function_call m'.

(** The text of a stream, and the text accumulated after each chunk. *)
Definition stream_text (chunks : list string) : string :=
  fold_right String.append EmptyString chunks.

Fixpoint running (s : string) (chunks : list string) : list string :=
  match chunks with
  | [] => []
  | value :: rest => String.append s value :: running (String.append s value) rest
  end.

(** [onFinish], when registered, returns normally on [m]. *)
Definition finished (onFinish : option (Message -> JsError + unit))
    (m : Message) : Prop :=
  match onFinish with
  | Some handler => handler m = inr tt
  | None => True
  end.

(** The chunks that the read loop consumes (lines 139-161): all of them
    when the engine was given a token, only the first when it was given
    [null]. *)
Definition consumed (abortControllerRef : option nat) (chunks : list string)
  : list string :=
  match abortControllerRef with
  | Some _ => chunks
  | None => take 1 chunks
  end.

(** The state after the [reader.cancel()] of line 158, where the loop comes
    to it. *)
Definition cancelled (abortControllerRef : option nat) (chunks : list string)
    (w : World) : World :=
  match abortControllerRef, chunks with
  | None, _ :: _ => log EvReaderCancel w
  | _, _ => w
  end.

(** The per-call options with which [reload] rebuilds a request. *)
Definition options_of (chatRequest : ChatRequest) : ChatRequestOptions :=
  {| cro_options := cr_options chatRequest;
     cro_functions := cr_functions chatRequest;
     cro_function_call := cr_function_call chatRequest |}.

(** A reply that does not make the loop go on (lines 239-244). *)
Definition plain_reply (m : Message) : Prop :=
  match function_call m with
  | None => True
  | Some (JString _) => True
  | Some _ => False
  end.

(** The reply carries a structured call, and the registered handler
    answers it with nothing (lines 247-260). *)
Definition declined (opts : UseChatOptions) (m : Message) (w : World) : Prop :=
  exists call handler,
    function_call m = Some call /\ structured call
    /\ onFunctionCall opts = Some handler
    /\ settled (handler (messages w) call) = inr None.

(** A relation between the state before and after that every run of a
    computation satisfies. *)
Definition frames (R : World -> World -> Prop) {A} (m : M A) : Prop :=
  forall w, R w (snd (m w)).

(** The token after a run: no token was created, and the variable holds
    what it held before unless [stop()] was called meanwhile, which clears
    it. *)
Definition token_follows_stop (w w' : World) : Prop :=
  controllers w' = controllers w
  /\ exists evs,
      trace w' = trace w ++ evs
      /\ abortController w' = match aborts evs with
                              | [] => abortController w
                              | _ => None
                              end.

(** ** Further scenarios *)

(** A 200 response without a body. *)
Definition empty_body : Response :=
  {| status := 200; text := resolves EmptyString; res_body := None |}.

(** A function call whose stream closes after the opening brace. *)
Definition truncated_call : list string := [function_call_prefix; " {"].

Definition hello : list string := ["Hel"; "lo"].

(** The same message under another id and date. *)
Definition hi_again : Message :=
  {| id := "m7"; createdAt := Some 9; content := "hi"; role := user;
     name := None; function_call := None |}.

(** A handler that answers every call with nothing. *)
Definition declining_options : UseChatOptions :=
  {| api := "/api/chat"; chatId := "chat-0"; initialMessages := [];
     sendExtraMessageFields := false;
     onFunctionCall := Some (fun _ _ => resolves None);
     onResponse := None; onFinish := None; onError := None;
     headers := []; body := [] |}.

(** The session created next, at the counter value 1. *)
Definition second_session : UseChatOptions :=
  {| api := "/api/chat"; chatId := fst (chat_id None 1); initialMessages := [];
     sendExtraMessageFields := false; onFunctionCall := None;
     onResponse := None; onFinish := None; onError := None;
     headers := []; body := [] |}.

(** Every callback is registered and returns normally. *)
Definition observing_options : UseChatOptions :=
  {| api := "/api/chat"; chatId := "chat-0"; initialMessages := [];
     sendExtraMessageFields := false; onFunctionCall := None;
     onResponse := Some (fun _ => resolves tt);
     onFinish := Some (fun _ => inr tt);
     onError := Some (fun _ => inr tt);
     headers := []; body := [] |}.

(** An [onFinish] that throws. *)
Definition failing_onFinish : Message -> JsError + unit := fun _ => inl boom.

(** The backend answers the first request with the function call and every
    later one with the text. *)
Definition calls_then_answers : Env :=
  {| fetch := fun n _ =>
                if n =? 0
                then resolves (ok_stream (chunk_reads [function_call_text]))
                else resolves hello_stream;
     nanoid := ids; new_Date := fun n => n |}.

(** The handler answers the call with the same request, and the user calls
    [stop()] while the handler is awaited. *)
Definition stopped_in_handler : UseChatOptions :=
  {| api := "/api/chat"; chatId := "chat-0"; initialMessages := [];
     sendExtraMessageFields := false;
     onFunctionCall := Some (fun _ _ => mkAwaited true (inr (Some say_hi)));
     onResponse := Some (fun _ => resolves tt);
     onFinish := Some (fun _ => inr tt);
     onError := None; headers := []; body := [] |}.

(** * Properties *)

(** ** Running the monad *)

Ltac munfold :=
  unfold getStreamedResponse, stream_body, finish_stream, setMessages,
    mutate,
    originalMutate, do_fetch, generate, new_AbortController, await, stop,
    emit, modify, gets, try_finally, try_catch, bind, call, pending, throw,
    ret, resolves, rejects in *.

Lemma published_app evs1 evs2 :
  published (evs1 ++ evs2) = published evs1 ++ published evs2.
Proof.
  induction evs1 as [| ev evs1 IH]; simpl; auto.
  destruct ev; simpl; auto. by rewrite IH.
Qed.

Lemma fetched_app evs1 evs2 :
  fetched (evs1 ++ evs2) = fetched evs1 ++ fetched evs2.
Proof.
  induction evs1 as [| ev evs1 IH]; simpl; auto.
  destruct ev; simpl; auto. by rewrite IH.
Qed.

Lemma evolves_refl k Q w : evolves k Q w w.
Proof.
  split; auto. exists []. rewrite app_nil_r. repeat split; auto.
Qed.

Lemma evolves_trans k Q a b c :
  evolves k Q a b -> evolves k Q b c -> evolves k Q a c.
Proof.
  intros [e1 l1 (t1 & T1 & F1 & M1 & S1)] [e2 l2 (t2 & T2 & F2 & M2 & S2)].
  split; [ congruence | congruence | ].
  exists (t1 ++ t2). rewrite published_app, last_app.
  repeat split.
  - rewrite T2, T1. by rewrite app_assoc.
  - apply Forall_app; auto.
  - rewrite M2, M1. by destruct (last (published t2)).
  - rewrite S2, S1. by destruct (last (published t2)).
Qed.

Lemma evolves_weaken k (Q Q' : Event -> Prop) w w' :
  (forall ev, Q ev -> Q' ev) -> evolves k Q w w' -> evolves k Q' w w'.
Proof.
  intros HQ [e l (t & T & F & R)]. split; auto.
  exists t. repeat split; try tauto. eapply Forall_impl; eauto.
Qed.

Lemma evolves_synced k Q w w' :
  evolves k Q w w' -> synced k w -> synced k w'.
Proof.
  intros [_ _ (t & _ & _ & Hm & Hs)] H. unfold synced in *.
  rewrite Hs, Hm. by destruct (last (published t)).
Qed.

(** A step that publishes nothing and leaves the cells alone. *)
Lemma evolves_quiet k (Q : Event -> Prop) w w' evs :
  error w' = error w -> isLoading w' = isLoading w ->
  messages w' = messages w -> store w' = store w ->
  trace w' = trace w ++ evs -> Forall Q evs -> published evs = [] ->
  evolves k Q w w'.
Proof.
  intros He Hl Hm Hs Ht HQ Hp. split; auto.
  exists evs. rewrite Hp, Hs. simpl. auto.
Qed.

Section Stable.

Variable k : string.
Variable Q : Event -> Prop.

Lemma stable_ret {A} (a : A) : stable k Q (ret a).
Proof. intros w. apply evolves_refl. Qed.

Lemma stable_throw {A} e : stable k Q (@throw A e).
Proof. intros w. apply evolves_refl. Qed.

Lemma stable_pending {A} : stable k Q (@pending A).
Proof. intros w. apply evolves_refl. Qed.

Lemma stable_gets {A} (f : World -> A) : stable k Q (gets f).
Proof. intros w. apply evolves_refl. Qed.

Lemma stable_call {A} (r : JsError + A) : stable k Q (call r).
Proof. intros w. destruct r; apply evolves_refl. Qed.

Lemma stable_bind {A B} (m : M A) (f : A -> M B) :
  stable k Q m -> (forall a, stable k Q (f a)) -> stable k Q (bind m f).
Proof.
  intros Hm Hf w. unfold bind. specialize (Hm w).
  destruct (m w) as [[a | e |] w1]; simpl in *; auto.
  eapply evolves_trans; [ exact Hm | apply Hf ].
Qed.

Lemma stable_try_catch {A} (m : M A) (h : JsError -> M A) :
  stable k Q m -> (forall e, stable k Q (h e)) -> stable k Q (try_catch m h).
Proof.
  intros Hm Hh w. unfold try_catch. specialize (Hm w).
  destruct (m w) as [[a | e |] w1]; simpl in *; auto.
  eapply evolves_trans; [ exact Hm | apply Hh ].
Qed.

Lemma stable_emit ev : Q ev -> published [ev] = [] -> stable k Q (emit ev).
Proof.
  intros H Hp w. apply evolves_quiet with (evs := [ev]); auto.
Qed.

Lemma stable_stop : (forall c, Q (EvAbort c)) -> stable k Q stop.
Proof.
  intros H w. munfold. simpl. destruct (abortController w); simpl.
  - apply evolves_quiet with (evs := [EvAbort n]); auto.
  - apply evolves_refl.
Qed.

Lemma stable_await {A} (p : Awaited A) :
  (forall c, Q (EvAbort c)) -> stable k Q (await p).
Proof.
  intros H. unfold await. apply stable_bind.
  - destruct (ui_stop p); [ by apply stable_stop | apply stable_ret ].
  - intros _. apply stable_call.
Qed.

Lemma stable_generate env {A} (gen : Env -> nat -> A) :
  stable k Q (generate env gen).
Proof.
  intros w. apply evolves_quiet with (evs := []); auto.
  munfold. simpl. by rewrite app_nil_r.
Qed.

Lemma stable_do_fetch env rq :
  Q (EvFetch rq) -> (forall c, Q (EvAbort c)) -> stable k Q (do_fetch env rq).
Proof.
  intros H1 H2. unfold do_fetch.
  apply stable_bind; [ apply stable_gets | intros n ].
  apply stable_bind; [ | intros _ ].
  { intros w. apply evolves_quiet with (evs := []); auto.
    simpl. by rewrite app_nil_r. }
  apply stable_bind; [ by apply stable_emit | intros _ ].
  by apply stable_await.
Qed.

End Stable.

(** ** What the engine and the loop leave alone *)

Lemma mutate_run opts data w :
  mutate opts data w
  = (Ret tt, log (EvMutate data)
               (set_messages data (set_store (key opts) data w))).
Proof. reflexivity. Qed.

Lemma mutate_synced opts data w :
  synced (key opts) (snd (mutate opts data w)).
Proof.
  rewrite mutate_run. unfold synced. simpl. apply lookup_insert_eq.
Qed.

Lemma stable_mutate opts (Q : Event -> Prop) data :
  Q (EvMutate data) -> stable (key opts) Q (mutate opts data).
Proof.
  intros H w. split; try reflexivity.
  rewrite mutate_run. exists [EvMutate data]. simpl.
  repeat split; auto. apply lookup_insert_eq.
Qed.

Lemma stable_read_loop opts (Q : Event -> Prop) cr ref reads :
  (forall ev, body_emits cr ref ev -> Q ev) ->
  forall s rm,
    stable (key opts) Q (read_loop (mutate opts) cr ref reads s rm).
Proof.
  intros HQ. induction reads as [| r rest IH]; intros s rm; simpl.
  - apply stable_ret.
  - apply stable_bind.
    { apply stable_await. intros c. by apply HQ. }
    intros [value |]; [ | apply stable_ret ].
    apply stable_bind.
    { apply stable_mutate. apply HQ. simpl. eauto. }
    intros _. destruct ref as [c |] eqn:Eref.
    + apply IH.
    + apply stable_bind; [ | intros _; apply stable_ret ].
      apply stable_emit; [ by apply HQ | done ].
Qed.

Lemma stable_finish_stream opts (Q : Event -> Prop) cr ref onFin sr :
  (forall ev, body_emits cr ref ev -> Q ev) ->
  stable (key opts) Q (finish_stream cr (mutate opts) onFin sr).
Proof.
  intros HQ. unfold finish_stream.
  apply stable_bind.
  { destruct (String.prefix _ _); [ | apply stable_ret ].
    apply stable_bind; [ apply stable_call | intros parsed ].
    apply stable_bind; [ apply stable_call | intros fc ].
    apply stable_bind; [ | intros _; apply stable_ret ].
    apply stable_mutate. apply HQ. simpl. eauto. }
  intros rm. apply stable_bind; [ | intros _; apply stable_ret ].
  destruct onFin as [handler |]; [ | apply stable_ret ].
  apply stable_bind; [ | intros _; apply stable_call ].
  apply stable_emit; [ by apply HQ | done ].
Qed.

Lemma stable_stream_body env opts (Q : Event -> Prop) cr ref onFin reads :
  (forall ev, body_emits cr ref ev -> Q ev) ->
  stable (key opts) Q (stream_body env cr (mutate opts) ref onFin reads).
Proof.
  intros HQ. unfold stream_body.
  apply stable_bind; [ apply stable_generate | intros createdAt ].
  apply stable_bind; [ apply stable_generate | intros replyId ].
  apply stable_bind; [ by apply stable_read_loop | intros sr ].
  by apply (stable_finish_stream opts Q cr ref).
Qed.

Lemma body_emits_engine cr prev ref ev :
  body_emits cr ref ev -> engine_emits cr prev ref ev.
Proof. destruct ev; simpl; auto; tauto. Qed.

(** After its optimistic update, the engine only evolves the state. *)
Lemma engine_after_optimistic_update env opts (Q : Event -> Prop)
    a cr hs b prev ref onFin onResp extra w :
  (forall ev, engine_emits cr prev ref ev -> Q ev) ->
  evolves (key opts) Q
    (snd (mutate opts (cr_messages cr) w))
    (snd (getStreamedResponse env a cr (mutate opts) hs b prev ref
                              onFin onResp extra w)).
Proof.
  intros HQ. unfold getStreamedResponse.
  unfold bind at 1. rewrite mutate_run. cbn [fst snd].
  generalize (log (EvMutate (cr_messages cr))
                (set_messages (cr_messages cr)
                   (set_store (key opts) (cr_messages cr) w))).
  apply stable_bind.
  { apply stable_try_catch.
    - apply stable_do_fetch; [ | intros c ]; by apply HQ.
    - intros e. apply stable_bind; [ | intros _; apply stable_throw ].
      apply stable_mutate, HQ. simpl. auto. }
  intros res. apply stable_bind.
  { destruct onResp as [handler |]; [ | apply stable_ret ].
    apply stable_bind; [ apply stable_emit; [ by apply HQ | done ] | intros _ ].
    apply stable_await. intros c. by apply HQ. }
  intros _. destruct (negb (ok res)).
  - apply stable_bind; [ apply stable_mutate, HQ; simpl; auto | intros _ ].
    apply stable_bind; [ | intros t; apply stable_throw ].
    apply stable_await. intros c. by apply HQ.
  - destruct (res_body res) as [reads |]; [ | apply stable_throw ].
    apply stable_stream_body. intros ev H. by apply HQ, body_emits_engine.
Qed.

Lemma stable_getStreamedResponse env opts (Q : Event -> Prop)
    a cr hs b prev ref onFin onResp extra :
  (forall ev, engine_emits cr prev ref ev -> Q ev) ->
  stable (key opts) Q
    (getStreamedResponse env a cr (mutate opts) hs b prev ref onFin onResp extra).
Proof.
  intros HQ w. eapply evolves_trans.
  - apply (stable_mutate opts Q (cr_messages cr)). apply HQ. simpl. auto.
  - by apply engine_after_optimistic_update.
Qed.

Lemma engine_emits_loop cr prev ref ev :
  engine_emits cr prev ref ev -> loop_emits ev.
Proof. destruct ev; simpl; auto. Qed.

Lemma stable_handle_response opts (Q : Event -> Prop) again cr m :
  (forall ev, loop_emits ev -> Q ev) ->
  (forall next, stable (key opts) Q (again next)) ->
  stable (key opts) Q (handle_response opts again cr m).
Proof.
  intros HQ Hagain. unfold handle_response.
  destruct (function_call m) as [fc |]; [ | apply stable_ret ].
  assert (Hgo : stable (key opts) Q
            match onFunctionCall opts with
            | Some handler =>
                bind (gets messages) (fun current =>
                bind (emit (EvOnFunctionCall current fc)) (fun _ =>
                bind (await (handler current fc)) (fun r =>
                match r with
                | Some next => again next
                | None => ret tt
                end)))
            | None => again cr
            end).
  { destruct (onFunctionCall opts) as [handler |]; [ | apply Hagain ].
    apply stable_bind; [ apply stable_gets | intros current ].
    apply stable_bind; [ apply stable_emit; [ by apply HQ | done ] | intros _ ].
    apply stable_bind; [ apply stable_await; intros c; by apply HQ | ].
    intros [next |]; [ apply Hagain | apply stable_ret ]. }
  destruct fc; try exact Hgo. apply stable_ret.
Qed.

Lemma request_loop_S env opts fuel cr :
  request_loop env opts (S fuel) cr =
  bind (gets messages) (fun previousMessages =>
  bind (gets abortController) (fun abortControllerRef =>
  bind (getStreamedResponse env (api opts) cr (mutate opts)
          (headers opts) (body opts) previousMessages abortControllerRef
          (onFinish opts) (onResponse opts) (sendExtraMessageFields opts))
       (handle_response opts (request_loop env opts fuel) cr))).
Proof. reflexivity. Qed.

Lemma stable_request_loop env opts (Q : Event -> Prop) fuel :
  (forall ev, loop_emits ev -> Q ev) ->
  forall cr, stable (key opts) Q (request_loop env opts fuel cr).
Proof.
  intros HQ. induction fuel as [| fuel IH]; intros cr.
  - apply stable_pending.
  - rewrite request_loop_S.
    apply stable_bind; [ apply stable_gets | intros prev ].
    apply stable_bind; [ apply stable_gets | intros ref ].
    apply stable_bind.
    { apply stable_getStreamedResponse. intros ev H.
      eapply HQ, engine_emits_loop, H. }
    intros m. by apply stable_handle_response.
Qed.

(** ** The orchestrator *)

(** The state in which [triggerRequest] enters its loop. *)
Lemma triggerRequest_run env opts fuel cr w :
  triggerRequest env opts fuel cr w =
  match request_loop env opts fuel cr (entered w) with
  | (Pending, w2) => (Pending, w2)
  | (Ret _, w2) =>
      (Ret (RString (last_content (messages w2))),
       log (EvLoading false) (set_isLoading false (set_abortController None w2)))
  | (Throw err, w2) =>
      if String.eqb (err_name err) "AbortError" then
        (Ret RNull,
         log (EvLoading false) (set_isLoading false (set_abortController None w2)))
      else
        match
          match onError opts with
          | Some handler =>
              if err_is_Error err
              then bind (emit (EvOnError err)) (fun _ => call (handler err)) w2
              else (Ret tt, w2)
          | None => (Ret tt, w2)
          end
        with
        | (Ret _, w3) =>
            (Ret RUndefined,
             log (EvLoading false)
               (set_isLoading false (log (EvError err) (set_error err w3))))
        | (Throw e, w3) =>
            (Throw e, log (EvLoading false) (set_isLoading false w3))
        | (Pending, w3) => (Pending, w3)
        end
  end.
Proof.
  unfold triggerRequest. munfold. simpl.
  destruct (request_loop env opts fuel cr _) as [[[] | err |] w2]; simpl; auto.
  destruct (String.eqb (err_name err) "AbortError"); simpl; auto.
  destruct (onError opts) as [handler |]; simpl; auto.
  destruct (err_is_Error err); simpl; auto.
  destruct (handler err); simpl; auto.
Qed.

Lemma loop_emits_not_loading ev : loop_emits ev -> not_loading ev.
Proof. destruct ev; simpl; auto. Qed.

Lemma trace_bracket (t : list Event) a evs z :
  ((t ++ [a]) ++ evs) ++ z = t ++ a :: evs ++ z.
Proof. by rewrite <- !app_assoc. Qed.

(** C8.  Whatever the outcome of [triggerRequest], its first effect is to
    set the loading flag to true and, when the exchange settles (returns or
    rejects), its last effect is to reset the flag to false; the flag is not
    written in between, and it is still true while the loop is running. *)
Theorem loading_flag_brackets_the_exchange env opts fuel chatRequest w :
  let r := triggerRequest env opts fuel chatRequest w in
  exists evs,
    Forall not_loading evs /\
    match fst r with
    | Pending =>
        isLoading (snd r) = true
        /\ trace (snd r) = trace w ++ EvLoading true :: evs
    | _ =>
        isLoading (snd r) = false
        /\ trace (snd r) = trace w ++ EvLoading true :: evs ++ [EvLoading false]
    end.
Proof.
  intros r. subst r. rewrite triggerRequest_run.
  set (w1 := entered w).
  pose proof (stable_request_loop env opts loop_emits fuel
                (fun ev H => H) chatRequest w1) as Hloop.
  destruct (request_loop env opts fuel chatRequest w1) as [[[] | err |] w2];
    simpl in Hloop; destruct Hloop as [_ Hl (evs & Ht & HQ & _)];
    pose proof (Forall_impl _ _ _ HQ loop_emits_not_loading) as Hevs.
  - exists evs. simpl. rewrite Ht. subst w1. unfold entered. simpl.
    rewrite trace_bracket. auto.
  - destruct (String.eqb (err_name err) "AbortError").
    { exists evs. simpl. rewrite Ht. subst w1. unfold entered. simpl.
      rewrite trace_bracket. auto. }
    assert (Hquiet : isLoading (set_isLoading false (log (EvError err) (set_error err w2))) = false)
      by reflexivity.
    destruct (onError opts) as [handler |]; [ destruct (err_is_Error err) | ].
    + munfold. simpl. destruct (handler err) as [e | []]; simpl.
      * exists (evs ++ [EvOnError err]). split.
        { apply Forall_app. split; auto. repeat constructor. }
        rewrite Ht. subst w1. unfold entered. simpl. split; auto.
        rewrite <- !app_assoc. reflexivity.
      * exists (evs ++ [EvOnError err; EvError err]). split.
        { apply Forall_app. split; auto. repeat constructor. }
        rewrite Ht. subst w1. unfold entered. simpl. split; auto.
        rewrite <- !app_assoc. reflexivity.
    + exists (evs ++ [EvError err]). split.
      { apply Forall_app. split; auto. repeat constructor. }
      simpl. rewrite Ht. subst w1. unfold entered. simpl. split; auto.
      rewrite <- !app_assoc. reflexivity.
    + exists (evs ++ [EvError err]). split.
      { apply Forall_app. split; auto. repeat constructor. }
      simpl. rewrite Ht. subst w1. unfold entered. simpl. split; auto.
      rewrite <- !app_assoc. reflexivity.
  - exists evs. simpl. split; auto. split.
    + rewrite Hl. reflexivity.
    + rewrite Ht. subst w1. unfold entered. simpl. by rewrite <- app_assoc.
Qed.

(** ** Publications *)

Lemma holds_last_published_synced k w w' :
  holds_last_published k w w' -> synced k w'.
Proof. intros (evs & data & _ & _ & Hs & Hm). unfold synced. congruence. Qed.

Lemma holds_last_published_then k Q a b c :
  holds_last_published k a b -> evolves k Q b c -> holds_last_published k a c.
Proof.
  intros (t1 & d & T1 & L1 & S1 & M1) [_ _ (t2 & T2 & _ & M2 & S2)].
  exists (t1 ++ t2). rewrite published_app, last_app.
  destruct (last (published t2)) as [d2 |] eqn:E; simpl in *.
  - exists d2. rewrite T2, T1, app_assoc. auto.
  - exists d. rewrite T2, T1, app_assoc, S2, M2. auto.
Qed.

Lemma holds_last_published_after k a b c evs :
  trace b = trace a ++ evs ->
  holds_last_published k b c -> holds_last_published k a c.
Proof.
  intros T1 (t2 & d & T2 & L2 & S2 & M2).
  exists (evs ++ t2), d. rewrite published_app, last_app, L2, T2, T1, app_assoc.
  auto.
Qed.

Lemma mutate_holds_last_published opts data w :
  holds_last_published (key opts) w (snd (mutate opts data w)).
Proof.
  rewrite mutate_run. exists [EvMutate data], data. simpl.
  repeat split; auto. apply lookup_insert_eq.
Qed.

Lemma engine_holds_last_published env opts
    a cr hs b prev ref onFin onResp extra w :
  holds_last_published (key opts) w
    (snd (getStreamedResponse env a cr (mutate opts) hs b prev ref
                              onFin onResp extra w)).
Proof.
  eapply holds_last_published_then.
  - apply mutate_holds_last_published.
  - apply (engine_after_optimistic_update env opts
             (engine_emits cr prev ref)). auto.
Qed.

Lemma request_loop_holds_last_published env opts fuel cr w :
  holds_last_published (key opts) w (snd (request_loop env opts (S fuel) cr w)).
Proof.
  rewrite request_loop_S. unfold bind at 1 2 3. unfold gets. cbn [fst snd].
  pose proof (engine_holds_last_published env opts (api opts) cr
                (headers opts) (body opts) (messages w) (abortController w)
                (onFinish opts) (onResponse opts)
                (sendExtraMessageFields opts) w) as H.
  destruct (getStreamedResponse _ _ _ _ _ _ _ _ _ _ _ w) as [[m | e |] w1];
    simpl in *; auto.
  eapply holds_last_published_then; [ exact H | ].
  apply (stable_handle_response opts loop_emits); auto.
  intros next. by apply stable_request_loop.
Qed.

Lemma holds_last_published_quiet k a b c evs :
  holds_last_published k a b ->
  store c = store b -> messages c = messages b ->
  trace c = trace b ++ evs -> published evs = [] ->
  holds_last_published k a c.
Proof.
  intros (t & d & T & L & S & M) Hs Hm Ht Hp.
  exists (t ++ evs), d. rewrite published_app, Hp, app_nil_r, Hs, Hm, Ht, T.
  rewrite app_assoc. auto.
Qed.

(** C10.  Every publication goes through [mutate], which writes the store
    slot of the session key and the observable cell with the same list
    ([setMessages] is [mutate]); so after a run of the engine or of
    [triggerRequest], whatever its path (optimistic update, rollback,
    per-chunk update, republication after the stream), the store slot and
    the cell both hold the list that was published last. *)
Theorem every_publication_writes_store_and_cell env opts :
  (forall data w,
      let w' := snd (mutate opts data w) in
      store w' !! key opts = Some data /\ messages w' = data
      /\ trace w' = trace w ++ [EvMutate data])
  /\ (forall data w,
      let w' := snd (setMessages opts data w) in
      store w' !! key opts = Some data /\ messages w' = data
      /\ trace w' = trace w ++ [EvMutate data])
  /\ (forall a cr hs b prev ref onFin onResp extra w,
      let w' := snd (getStreamedResponse env a cr (mutate opts) hs b prev ref
                                         onFin onResp extra w) in
      holds_last_published (key opts) w w'
      /\ store w' !! key opts = Some (messages w'))
  /\ (forall fuel cr w,
      let w' := snd (triggerRequest env opts (S fuel) cr w) in
      holds_last_published (key opts) w w'
      /\ store w' !! key opts = Some (messages w')).
Proof.
  assert (Hm : forall data w,
             let w' := snd (mutate opts data w) in
             store w' !! key opts = Some data /\ messages w' = data
             /\ trace w' = trace w ++ [EvMutate data]).
  { intros data w. rewrite mutate_run. simpl. repeat split.
    apply lookup_insert_eq. }
  split; [ exact Hm | ]. split; [ exact Hm | ]. split.
  - intros. subst w'. split.
    + apply engine_holds_last_published.
    + eapply holds_last_published_synced, engine_holds_last_published.
  - intros fuel cr w w'.
    assert (H : holds_last_published (key opts) w w');
      [ | split; [ exact H | exact (holds_last_published_synced _ _ _ H) ] ].
    subst w'. rewrite triggerRequest_run.
    set (w1 := entered w).
    pose proof (request_loop_holds_last_published env opts fuel cr w1) as H.
    apply (holds_last_published_after _ w w1 _ [EvLoading true]) in H;
      [ | reflexivity ].
    destruct (request_loop env opts (S fuel) cr w1) as [[[] | err |] w2];
      simpl in H; simpl.
    + eapply holds_last_published_quiet with (evs := [EvLoading false]); eauto.
    + destruct (String.eqb (err_name err) "AbortError"); simpl.
      { eapply holds_last_published_quiet with (evs := [EvLoading false]); eauto. }
      destruct (onError opts) as [handler |]; [ destruct (err_is_Error err) | ].
      * munfold. simpl. destruct (handler err) as [e | []]; simpl.
        -- eapply holds_last_published_quiet
             with (evs := [EvOnError err; EvLoading false]); eauto.
           simpl. by rewrite <- !app_assoc.
        -- eapply holds_last_published_quiet
             with (evs := [EvOnError err; EvError err; EvLoading false]); eauto.
           simpl. by rewrite <- !app_assoc.
      * simpl. eapply holds_last_published_quiet
             with (evs := [EvError err; EvLoading false]); eauto.
        simpl. by rewrite <- !app_assoc.
      * simpl. eapply holds_last_published_quiet
             with (evs := [EvError err; EvLoading false]); eauto.
        simpl. by rewrite <- !app_assoc.
    + exact H.
Qed.

(** ** The function-call round trip *)

Lemma parse_function_call_text :
  Json.parse (String.append EmptyString function_call_text)
  = inr (JObject [("function_call", structured_call_f)]).
Proof. vm_compute. reflexivity. Qed.

Lemma prefix_function_call_text :
  String.prefix function_call_prefix
                (String.append EmptyString function_call_text) = true.
Proof. vm_compute. reflexivity. Qed.

(** One turn against the backend that always answers with the call. *)
Lemma turn_returns_structured_call cr prev c w :
  exists m w',
    getStreamedResponse server_always_calls (api default_options) cr
      (mutate default_options) (headers default_options)
      (body default_options) prev (Some c)
      (onFinish default_options) (onResponse default_options)
      (sendExtraMessageFields default_options) w = (Ret m, w')
    /\ function_call m = Some structured_call_f
    /\ abortController w' = abortController w
    /\ isLoading w' = isLoading w
    /\ requests w' = S (requests w).
Proof.
  munfold. simpl. eexists _, _. split; [ reflexivity | ]. simpl. auto.
Qed.

Lemma loop_never_leaves fuel :
  forall cr c w,
    abortController w = Some c ->
    let r := request_loop server_always_calls default_options fuel cr w in
    fst r = Pending /\ requests (snd r) = requests w + fuel
    /\ isLoading (snd r) = isLoading w.
Proof.
  induction fuel as [| fuel IH]; intros cr c w Hc.
  - simpl. auto.
  - rewrite request_loop_S. unfold bind at 1 2 3. unfold gets. cbn [fst snd]. rewrite Hc.
    destruct (turn_returns_structured_call cr (messages w) c w)
      as (m & w' & -> & Hfc & Hc' & Hl & Hr).
    unfold handle_response. rewrite Hfc. cbn [structured_call_f onFunctionCall default_options].
    destruct (IH cr c w') as (H1 & H2 & H3); [ congruence | ].
    rewrite H1, H2, H3, Hr, Hl. repeat split. lia.
Qed.

(** C1 (the code at the failing input).  No [onFunctionCall] handler is
    registered and the backend answers every request with the structured
    call: for every number of turns granted, [triggerRequest] is still in
    its loop, has issued that many requests, and the loading flag is still
    set. *)
Theorem structured_call_without_handler_never_settles fuel chatRequest w :
  let r := triggerRequest server_always_calls default_options fuel chatRequest w in
  fst r = Pending
  /\ requests (snd r) = requests w + fuel
  /\ isLoading (snd r) = true.
Proof.
  intros r. subst r. rewrite triggerRequest_run.
  set (w1 := entered w).
  destruct (loop_never_leaves fuel chatRequest (controllers w) w1 eq_refl)
    as (H1 & H2 & H3).
  destruct (request_loop _ _ fuel chatRequest w1) as [[[] | err |] w2];
    simpl in *; try discriminate.
  auto.
Qed.

(** ** Reading the stream *)

Lemma publish_app k l1 l2 w :
  publish k (l1 ++ l2) w = publish k l2 (publish k l1 w).
Proof. unfold publish. apply fold_left_app. Qed.

Lemma publish_fields k lists w :
  let w' := publish k lists w in
  error w' = error w /\ isLoading w' = isLoading w
  /\ abortController w' = abortController w /\ aborted w' = aborted w
  /\ controllers w' = controllers w /\ generated w' = generated w
  /\ requests w' = requests w
  /\ trace w' = trace w ++ map EvMutate lists
  /\ messages w' = default (messages w) (last lists)
  /\ store w' !! k = match last lists with
                     | Some data => Some data
                     | None => store w !! k
                     end.
Proof.
  revert w. induction lists as [| data lists IH] using rev_ind; intros w.
  - simpl. rewrite app_nil_r. repeat split.
  - rewrite publish_app. simpl. rewrite last_snoc. simpl.
    destruct (IH w) as (H1 & H2 & H3 & H4 & H5 & H6 & H7 & H8 & _).
    rewrite map_app, app_assoc, <- H8. simpl.
    repeat split; auto. apply lookup_insert_eq.
Qed.

Lemma after_chunks_cons value chunks acc :
  after_chunks (value :: chunks) acc = after_chunks chunks (absorb acc value).
Proof. reflexivity. Qed.

(** While the reads deliver chunks and the engine holds a token, the loop
    absorbs and publishes them one by one. *)
Lemma read_loop_chunks opts cr c chunks rest :
  forall s rm w,
    read_loop (mutate opts) cr (Some c) (chunk_reads chunks ++ rest) s rm w
    = read_loop (mutate opts) cr (Some c) rest
        (fst (after_chunks chunks (s, rm))) (snd (after_chunks chunks (s, rm)))
        (publish (key opts) (chunk_publications cr chunks (s, rm)) w).
Proof.
  induction chunks as [| value chunks IH]; intros s rm w.
  - reflexivity.
  - rewrite after_chunks_cons. unfold chunk_publications. simpl partials.
    simpl map. simpl publish.
    change (map _ (partials chunks (absorb (s, rm) value)))
      with (chunk_publications cr chunks (absorb (s, rm) value)).
    destruct (absorb (s, rm) value) as [s' rm'] eqn:E.
    rewrite <- IH. unfold absorb in E. simpl in E. injection E as <- <-.
    reflexivity.
Qed.

(** ** The paths of the engine *)

Lemma bind_run {A B} (m : M A) (k : A -> M B) w :
  bind m k w = match m w with
               | (Ret a, w') => k a w'
               | (Throw e, w') => (Throw e, w')
               | (Pending, w') => (Pending, w')
               end.
Proof. reflexivity. Qed.

Lemma try_catch_run {A} (m : M A) (h : JsError -> M A) w :
  try_catch m h w = match m w with
                    | (Throw e, w') => h e w'
                    | r => r
                    end.
Proof. reflexivity. Qed.

Lemma ret_run {A} (a : A) w : ret a w = (Ret a, w).
Proof. reflexivity. Qed.

Lemma throw_run {A} e w : @throw A e w = (Throw e, w).
Proof. reflexivity. Qed.

Lemma gets_run {A} (f : World -> A) w : gets f w = (Ret (f w), w).
Proof. reflexivity. Qed.

Lemma modify_run f w : modify f w = (Ret tt, f w).
Proof. reflexivity. Qed.

Lemma emit_run ev w : emit ev w = (Ret tt, log ev w).
Proof. reflexivity. Qed.

Lemma call_run {A} (r : JsError + A) w : call r w = (settle r, w).
Proof. by destruct r. Qed.

Lemma await_run {A} (p : Awaited A) w :
  await p w = (settle (settled p), stopped (ui_stop p) w).
Proof.
  unfold await, stopped, settle. munfold.
  destruct (ui_stop p); simpl.
  - destruct (abortController w); simpl; destruct (settled p); reflexivity.
  - destruct (settled p); reflexivity.
Qed.

Lemma stopped_fields called w :
  let w' := stopped called w in
  store w' = store w /\ messages w' = messages w /\ error w' = error w
  /\ isLoading w' = isLoading w /\ generated w' = generated w
  /\ requests w' = requests w /\ controllers w' = controllers w
  /\ exists evs, trace w' = trace w ++ evs /\ published evs = []
                 /\ fetched evs = [].
Proof.
  unfold stopped. munfold. destruct called; simpl.
  - destruct (abortController w); simpl; repeat split.
    + by exists [EvAbort n].
    + exists []. by rewrite app_nil_r.
  - repeat split. exists []. by rewrite app_nil_r.
Qed.

Lemma mutate_publish opts data w :
  mutate opts data w = (Ret tt, publish (key opts) [data] w).
Proof. reflexivity. Qed.

Ltac mrun :=
  repeat (first [ rewrite bind_run | rewrite try_catch_run | rewrite ret_run
                | rewrite throw_run | rewrite gets_run | rewrite modify_run
                | rewrite emit_run | rewrite await_run | rewrite call_run
                | rewrite mutate_publish ];
          cbv beta iota).

(** [getStreamedResponse], path by path. *)
Lemma getStreamedResponse_run env opts a cr hs b prev ref onFin onResp extra w :
  let rq := fetch_request a cr hs b ref extra in
  let p := fetch env (requests w) rq in
  let wf := stopped (ui_stop p)
              (log (EvFetch rq)
                 (count_request (publish (key opts) [cr_messages cr] w))) in
  getStreamedResponse env a cr (mutate opts) hs b prev ref onFin onResp extra w
  = match settled p with
    | inl e => (Throw e, publish (key opts) [prev] wf)
    | inr res =>
        let wr :=
          match onResp with
          | Some handler =>
              stopped (ui_stop (handler res)) (log (EvOnResponse res) wf)
          | None => wf
          end in
        match
          match onResp with
          | Some handler => settled (handler res)
          | None => inr tt
          end
        with
        | inl e => (Throw e, wr)
        | inr _ =>
            if ok res then
              match res_body res with
              | Some reads =>
                  stream_body env cr (mutate opts) ref onFin reads wr
              | None => (Throw (new_Error "The response body is empty."), wr)
              end
            else
              (match settled (text res) with
               | inl e => Throw e
               | inr t => Throw (status_error t)
               end,
               stopped (ui_stop (text res)) (publish (key opts) [prev] wr))
        end
    end.
Proof.
  intros rq p wf. unfold getStreamedResponse, do_fetch.
  mrun. change (requests (publish (key opts) [cr_messages cr] w)) with (requests w).
  fold rq p. change (stopped (ui_stop p) _) with wf.
  destruct (settled p) as [e | res]; cbn [settle]; mrun; [ reflexivity | ].
  destruct onResp as [handler |]; mrun.
  - destruct (settled (handler res)) as [e | []]; cbn [settle]; mrun;
      [ reflexivity | ].
    destruct (ok res); cbn [negb].
    + destruct (res_body res); reflexivity.
    + mrun. destruct (settled (text res)); reflexivity.
  - destruct (ok res); cbn [negb].
    + destruct (res_body res); reflexivity.
    + mrun. destruct (settled (text res)); reflexivity.
Qed.

(** ** Observations through [stopped] and [publish] *)

Lemma stopped_messages b w : messages (stopped b w) = messages w.
Proof. apply stopped_fields. Qed.

Lemma stopped_store b w : store (stopped b w) = store w.
Proof. apply stopped_fields. Qed.

Lemma stopped_error b w : error (stopped b w) = error w.
Proof. apply stopped_fields. Qed.

Lemma stopped_isLoading b w : isLoading (stopped b w) = isLoading w.
Proof. apply stopped_fields. Qed.

Lemma stopped_generated b w : generated (stopped b w) = generated w.
Proof. apply stopped_fields. Qed.

Lemma stopped_requests b w : requests (stopped b w) = requests w.
Proof. apply stopped_fields. Qed.

Lemma stopped_published b w :
  published (trace (stopped b w)) = published (trace w).
Proof.
  destruct (stopped_fields b w) as (_ & _ & _ & _ & _ & _ & _ & evs & -> & H & _).
  by rewrite published_app, H, app_nil_r.
Qed.

Lemma stopped_fetched b w :
  fetched (trace (stopped b w)) = fetched (trace w).
Proof.
  destruct (stopped_fields b w) as (_ & _ & _ & _ & _ & _ & _ & evs & -> & _ & H).
  by rewrite fetched_app, H, app_nil_r.
Qed.

Lemma published_map_EvMutate lists : published (map EvMutate lists) = lists.
Proof. induction lists; simpl; congruence. Qed.

Lemma fetched_map_EvMutate lists : fetched (map EvMutate lists) = [].
Proof. induction lists; simpl; congruence. Qed.

Lemma publish_messages k lists w :
  messages (publish k lists w) = default (messages w) (last lists).
Proof. apply publish_fields. Qed.

Lemma publish_store k lists w :
  store (publish k lists w) !! k = match last lists with
                                   | Some data => Some data
                                   | None => store w !! k
                                   end.
Proof. apply publish_fields. Qed.

Lemma publish_error k lists w : error (publish k lists w) = error w.
Proof. apply publish_fields. Qed.

Lemma publish_isLoading k lists w : isLoading (publish k lists w) = isLoading w.
Proof. apply publish_fields. Qed.

Lemma publish_generated k lists w : generated (publish k lists w) = generated w.
Proof. apply publish_fields. Qed.

Lemma publish_requests k lists w : requests (publish k lists w) = requests w.
Proof. apply publish_fields. Qed.

Lemma publish_published k lists w :
  published (trace (publish k lists w)) = published (trace w) ++ lists.
Proof.
  destruct (publish_fields k lists w) as (_ & _ & _ & _ & _ & _ & _ & -> & _).
  by rewrite published_app, published_map_EvMutate.
Qed.

Lemma publish_fetched k lists w :
  fetched (trace (publish k lists w)) = fetched (trace w).
Proof.
  destruct (publish_fields k lists w) as (_ & _ & _ & _ & _ & _ & _ & -> & _).
  by rewrite fetched_app, fetched_map_EvMutate, app_nil_r.
Qed.

Lemma log_published ev w :
  published (trace (log ev w)) = published (trace w) ++ published [ev].
Proof. simpl. apply published_app. Qed.

Lemma log_fetched ev w :
  fetched (trace (log ev w)) = fetched (trace w) ++ fetched [ev].
Proof. simpl. apply fetched_app. Qed.

Ltac observe :=
  repeat first
    [ rewrite stopped_messages | rewrite stopped_store | rewrite stopped_error
    | rewrite stopped_isLoading | rewrite stopped_generated
    | rewrite stopped_requests | rewrite stopped_published
    | rewrite stopped_fetched
    | rewrite publish_messages | rewrite publish_store | rewrite publish_error
    | rewrite publish_isLoading | rewrite publish_generated
    | rewrite publish_requests | rewrite publish_published
    | rewrite publish_fetched
    | rewrite log_published | rewrite log_fetched
    | progress cbn [messages store error isLoading generated requests trace
                    controllers abortController aborted
                    log count_request count_generated count_controller
                    set_isLoading set_abortController set_error entered
                    published fetched last default fst snd app] ].

(** ** The stream, chunk by chunk *)

Lemma stream_body_chunks env opts cr c onFin chunks rest w :
  let acc := (EmptyString, reply env w) in
  stream_body env cr (mutate opts) (Some c) onFin (chunk_reads chunks ++ rest) w
  = bind (read_loop (mutate opts) cr (Some c) rest
            (fst (after_chunks chunks acc)) (snd (after_chunks chunks acc)))
         (finish_stream cr (mutate opts) onFin)
         (publish (key opts) (chunk_publications cr chunks acc)
            (count_generated (count_generated w))).
Proof.
  intros acc. unfold stream_body, generate. mrun.
  rewrite read_loop_chunks. reflexivity.
Qed.

(** A read that rejects ends the engine with that rejection: what was
    published stays, nothing more is read. *)
Lemma stream_body_interrupted env opts cr c onFin chunks r rest e w :
  settled r = inl e ->
  let acc := (EmptyString, reply env w) in
  stream_body env cr (mutate opts) (Some c) onFin
              (chunk_reads chunks ++ r :: rest) w
  = (Throw e,
     stopped (ui_stop r)
       (publish (key opts) (chunk_publications cr chunks acc)
          (count_generated (count_generated w)))).
Proof.
  intros Hr acc. rewrite stream_body_chunks. fold acc.
  rewrite bind_run. simpl read_loop. mrun. rewrite Hr. reflexivity.
Qed.

(** A stream that delivers its chunks and closes. *)
Lemma stream_body_complete env opts cr c onFin chunks w :
  let acc := (EmptyString, reply env w) in
  stream_body env cr (mutate opts) (Some c) onFin (chunk_reads chunks) w
  = finish_stream cr (mutate opts) onFin (after_chunks chunks acc)
      (publish (key opts) (chunk_publications cr chunks acc)
         (count_generated (count_generated w))).
Proof.
  intros acc. rewrite <- (app_nil_r (chunk_reads chunks)).
  rewrite stream_body_chunks. fold acc. rewrite bind_run. simpl read_loop.
  mrun. by destruct (after_chunks chunks acc).
Qed.

(** ** Rollback *)

Lemma Forall_published (Q : Event -> Prop) (P : list Message -> Prop) evs :
  (forall data, Q (EvMutate data) -> P data) ->
  Forall Q evs -> Forall P (published evs).
Proof.
  intros HQ H. induction H as [| ev evs Hev _ IH]; simpl; auto.
  destruct ev; auto.
Qed.

(** The state in which the engine meets the response. *)
Lemma accepted_run (onResp : option (Response -> Awaited unit)) res :
  accepted onResp res ->
  match onResp with
  | Some handler => settled (handler res)
  | None => inr tt
  end = inr tt.
Proof. destruct onResp; auto. Qed.

(** C6.  The engine republishes the pre-request list exactly when [fetch]
    rejects and when the status check fails.  When a read of the body
    rejects mid-stream, the publications are the optimistic update and one
    list per chunk read, the last of which stays in the cell; and in every
    call in which [fetch] resolves and the status check does not fail, each
    list published is the request's own, alone or followed by the reply in
    progress, and the last of them stays in the cell. *)
Theorem rollback_only_for_network_and_status_failures
    env opts a cr hs b prev ref onFin onResp extra w :
  let p := fetch env (requests w) (fetch_request a cr hs b ref extra) in
  let r := getStreamedResponse env a cr (mutate opts) hs b prev ref
                               onFin onResp extra w in
  (forall e,
      settled p = inl e ->
      fst r = Throw e
      /\ published (trace (snd r))
         = published (trace w) ++ [cr_messages cr; prev]
      /\ messages (snd r) = prev)
  /\ (forall res,
      settled p = inr res -> accepted onResp res -> ok res = false ->
      (exists e, fst r = Throw e)
      /\ published (trace (snd r))
         = published (trace w) ++ [cr_messages cr; prev]
      /\ messages (snd r) = prev)
  /\ (forall res c chunks rd rest e,
      settled p = inr res -> accepted onResp res -> ok res = true ->
      ref = Some c ->
      res_body res = Some (chunk_reads chunks ++ rd :: rest) ->
      settled rd = inl e ->
      let pubs := cr_messages cr
                  :: chunk_publications cr chunks (EmptyString, reply env w) in
      fst r = Throw e
      /\ published (trace (snd r)) = published (trace w) ++ pubs
      /\ last pubs = Some (messages (snd r)))
  /\ (forall res,
      settled p = inr res -> ok res = true \/ ~ accepted onResp res ->
      exists pubs,
        published (trace (snd r)) = published (trace w) ++ pubs
        /\ Forall (fun data => data = cr_messages cr
                               \/ exists m, data = cr_messages cr ++ [m]) pubs
        /\ last pubs = Some (messages (snd r))).
Proof.
  intros p r. subst r. rewrite getStreamedResponse_run. fold p.
  set (wf := stopped (ui_stop p) _).
  assert (Hwf : published (trace wf) = published (trace w) ++ [cr_messages cr]).
  { subst wf. observe. by rewrite app_nil_r. }
  repeat split.
  - rewrite H. reflexivity.
  - rewrite H. observe. rewrite Hwf, <- app_assoc. reflexivity.
  - rewrite H. observe. reflexivity.
  - rewrite H. cbv zeta. rewrite (accepted_run _ _ H0), H1.
    destruct (settled (text res)); eauto.
  - rewrite H. cbv zeta. rewrite (accepted_run _ _ H0), H1.
    destruct onResp; observe; rewrite Hwf, <- ?app_assoc; reflexivity.
  - rewrite H. cbv zeta. rewrite (accepted_run _ _ H0), H1. observe.
    reflexivity.
  - rewrite H. cbv zeta. rewrite (accepted_run _ _ H0), H1, H2, H3.
    rewrite (stream_body_interrupted _ _ _ _ _ _ _ _ _ _ H4). reflexivity.
  - rewrite H. cbv zeta. rewrite (accepted_run _ _ H0), H1, H2, H3.
    rewrite (stream_body_interrupted _ _ _ _ _ _ _ _ _ _ H4).
    set (wr := match onResp with Some _ => _ | None => _ end).
    assert (Hrep : reply env wr = reply env w).
    { unfold reply. subst wr wf. destruct onResp; observe; reflexivity. }
    rewrite Hrep. subst wr.
    destruct onResp; observe; rewrite Hwf, <- ?app_assoc; reflexivity.
  - rewrite H. cbv zeta. rewrite (accepted_run _ _ H0), H1, H2, H3.
    rewrite (stream_body_interrupted _ _ _ _ _ _ _ _ _ _ H4).
    set (wr := match onResp with Some _ => _ | None => _ end).
    assert (Hrep : reply env wr = reply env w).
    { unfold reply. subst wr wf. destruct onResp; observe; reflexivity. }
    rewrite Hrep. rewrite last_cons. subst wr.
    destruct onResp; observe; subst wf; observe;
      by destruct (last (chunk_publications _ _ _)).
  - intros res Hres Hcase. rewrite Hres. cbv zeta.
    set (wr := match onResp with Some _ => stopped _ _ | None => _ end).
    assert (Hwr : published (trace wr) = published (trace w) ++ [cr_messages cr]).
    { subst wr. destruct onResp; observe; rewrite Hwf, ?app_nil_r; reflexivity. }
    assert (Hmr : messages wr = cr_messages cr).
    { subst wr wf. destruct onResp; observe; reflexivity. }
    assert (Hquiet : exists pubs,
               published (trace wr) = published (trace w) ++ pubs
               /\ Forall (fun data => data = cr_messages cr
                             \/ exists m, data = cr_messages cr ++ [m]) pubs
               /\ last pubs = Some (messages wr)).
    { exists [cr_messages cr]. rewrite Hmr. repeat split; auto. }
    destruct (match onResp with Some handler => settled (handler res)
                              | None => inr tt end) as [e | []] eqn:Eveto;
      [ exact Hquiet | ].
    destruct (ok res) eqn:Eok.
    + destruct (res_body res) as [reads |]; [ | exact Hquiet ].
      destruct (stable_stream_body env opts (body_emits cr ref) cr ref onFin
                  reads (fun ev H => H) wr) as [_ _ (evs & Ht & HQ & Hm & _)].
      exists (cr_messages cr :: published evs). split; [ | split ].
      * rewrite Ht, published_app, Hwr, <- app_assoc. reflexivity.
      * constructor; auto.
        eapply Forall_published; [ | exact HQ ]. simpl. auto.
      * rewrite last_cons, Hm, Hmr. by destruct (last (published evs)).
    + destruct Hcase as [? | Hno]; [ discriminate | ].
      exfalso. apply Hno. unfold accepted. destruct onResp; auto.
Qed.

(** ** How an exchange settles *)

Lemma loop_turn env opts fuel cr w :
  request_loop env opts (S fuel) cr w
  = bind (engine_turn env opts cr)
         (handle_response opts (request_loop env opts fuel) cr) w.
Proof. rewrite request_loop_S. mrun. reflexivity. Qed.

Lemma first_turn env opts fuel cr w :
  request_loop env opts (S fuel) cr (entered w)
  = bind (getStreamedResponse env (api opts) cr (mutate opts)
            (headers opts) (body opts) (messages w) (Some (controllers w))
            (onFinish opts) (onResponse opts) (sendExtraMessageFields opts))
         (handle_response opts (request_loop env opts fuel) cr)
         (entered w).
Proof. rewrite request_loop_S. mrun. reflexivity. Qed.

(** A structured call does not end the loop: with no handler registered,
    the next turn sends the same request again. *)
Lemma next_turn_loop env opts fuel cr w cr1 w1 :
  next_turn env opts cr w cr1 w1 ->
  request_loop env opts (S fuel) cr w = request_loop env opts fuel cr1 w1.
Proof.
  intros H. rewrite loop_turn, bind_run.
  destruct H as [cr w m w1 call Hengine Hcall Hs Hnone
                | cr w m w1 call handler next Hengine Hcall Hs Hsome Hnext];
    rewrite Hengine; unfold handle_response; rewrite Hcall.
  - rewrite Hnone. by destruct call.
  - rewrite Hsome. destruct call; try contradiction; mrun;
      rewrite Hnext; reflexivity.
Qed.

Lemma reaches_loop env opts fuel cr w fuel' cr' w' :
  reaches env opts fuel cr w fuel' cr' w' ->
  request_loop env opts fuel cr w = request_loop env opts fuel' cr' w'.
Proof.
  induction 1 as [| fuel cr w cr1 w1 fuel' cr' w' Hnext _ IH];
    [ reflexivity | ].
  by rewrite (next_turn_loop _ _ _ _ _ _ _ Hnext).
Qed.

(** A turn in which the engine throws ends the loop with that error. *)
Lemma loop_throws env opts fuel cr w fuel' cr' w' e w2 :
  reaches env opts fuel cr w (S fuel') cr' w' ->
  engine_turn env opts cr' w' = (Throw e, w2) ->
  request_loop env opts fuel cr w = (Throw e, w2).
Proof.
  intros Hreach Hengine.
  rewrite (reaches_loop _ _ _ _ _ _ _ _ Hreach), loop_turn, bind_run, Hengine.
  reflexivity.
Qed.

Lemma reported_run (onError : option (JsError -> JsError + unit)) err w :
  reported onError err ->
  exists w',
    match onError with
    | Some handler =>
        if err_is_Error err
        then bind (emit (EvOnError err)) (fun _ => call (handler err)) w
        else (Ret tt, w)
    | None => (Ret tt, w)
    end = (Ret tt, w')
    /\ messages w' = messages w /\ store w' = store w
    /\ isLoading w' = isLoading w.
Proof.
  intros H. destruct onError as [handler |]; simpl in H; eauto.
  destruct (err_is_Error err); eauto.
  mrun. rewrite H; auto. simpl. eauto.
Qed.

(** A failure of the loop other than an abort is reported and published. *)
Lemma triggerRequest_failure env opts fuel cr w err w2 :
  request_loop env opts fuel cr (entered w) = (Throw err, w2) ->
  String.eqb (err_name err) "AbortError" = false ->
  reported (onError opts) err ->
  let r := triggerRequest env opts fuel cr w in
  fst r = Ret RUndefined
  /\ error (snd r) = Some err
  /\ messages (snd r) = messages w2
  /\ store (snd r) = store w2
  /\ isLoading (snd r) = false.
Proof.
  intros Hloop Hname Hrep r. subst r.
  rewrite triggerRequest_run, Hloop, Hname.
  destruct (reported_run (onError opts) err w2 Hrep)
    as (w3 & -> & Hm & Hs & _).
  simpl. auto.
Qed.

(** An abort is not reported: the exchange resolves to [null]. *)
Lemma triggerRequest_abort env opts fuel cr w err w2 :
  request_loop env opts fuel cr (entered w) = (Throw err, w2) ->
  err_name err = "AbortError" ->
  triggerRequest env opts fuel cr w
  = (Ret RNull,
     log (EvLoading false) (set_isLoading false (set_abortController None w2))).
Proof.
  intros Hloop Hname. rewrite triggerRequest_run, Hloop, Hname. reflexivity.
Qed.

Lemma not_2xx res : ~ (200 <= status res <= 299) -> ok res = false.
Proof.
  intros H. unfold ok. apply andb_false_iff.
  destruct (Nat.leb_spec 200 (status res)); auto.
  destruct (Nat.leb_spec (status res) 299); auto. lia.
Qed.

Lemma loop_keeps_error env opts fuel cr w :
  error (snd (request_loop env opts fuel cr w)) = error w.
Proof.
  by destruct (stable_request_loop env opts loop_emits fuel (fun _ H => H) cr w).
Qed.

(** The status check of the engine (lines 116-120): the rollback is
    published before the body text is awaited. *)
Lemma engine_status_check env opts a cr hs b prev ref onFin onResp extra w res :
  settled (fetch env (requests w) (fetch_request a cr hs b ref extra)) = inr res ->
  accepted onResp res ->
  ok res = false ->
  exists w',
    getStreamedResponse env a cr (mutate opts) hs b prev ref onFin onResp extra w
    = (match settled (text res) with
       | inl e => Throw e
       | inr t => Throw (status_error t)
       end, w')
    /\ messages w' = prev
    /\ store w' !! key opts = Some prev
    /\ published (trace w') = published (trace w) ++ [cr_messages cr; prev].
Proof.
  intros Hfetch Hacc Hok.
  rewrite getStreamedResponse_run, Hfetch. cbv zeta.
  rewrite (accepted_run _ _ Hacc), Hok.
  eexists. split; [ by destruct (settled (text res)) | ].
  destruct onResp; observe; rewrite ?app_nil_r, <- ?app_assoc; auto.
Qed.

(** Whatever the loop throws, the catch and finally blocks publish no
    list. *)
Lemma triggerRequest_throw_keeps_list env opts fuel cr w err w2 :
  request_loop env opts fuel cr (entered w) = (Throw err, w2) ->
  let r := triggerRequest env opts fuel cr w in
  messages (snd r) = messages w2
  /\ store (snd r) = store w2
  /\ isLoading (snd r) = false.
Proof.
  intros Hloop r. subst r. rewrite triggerRequest_run, Hloop.
  destruct (String.eqb (err_name err) "AbortError"); [ simpl; auto | ].
  destruct (onError opts) as [handler |]; [ destruct (err_is_Error err) | ];
    try (simpl; auto; fail).
  mrun. destruct (handler err) as [e' | []]; simpl; auto.
Qed.

(** C5 (as amended).  When a request of an exchange, in whichever turn of
    the loop, receives a response whose status is not 2xx and [onResponse]
    (if registered) returns normally, the engine republishes the list that
    was in the cell before the request, and the cell and the store slot hold
    that list when the exchange settles, whether or not the body text can be
    read.  When the text [t] is read, the engine fails with an error whose
    message is [t], or the generic message when [t] is empty; the exchange
    passes that error to [onError] (if registered) and, when the callback
    returns normally, writes it into the error cell afterwards and resolves
    to [undefined]; when the callback throws, the exchange rejects with what
    it threw and the error cell is not written. *)
Theorem status_failure_rolls_back_and_reports
    env opts fuel cr w fuel' cr' w' res :
  reaches env opts fuel cr (entered w) (S fuel') cr' w' ->
  settled (fetch env (requests w') (turn_request opts cr' w')) = inr res ->
  ~ (200 <= status res <= 299) ->
  accepted (onResponse opts) res ->
  let engine := engine_turn env opts cr' w' in
  let r := triggerRequest env opts fuel cr w in
  published (trace (snd engine))
  = published (trace w') ++ [cr_messages cr'; messages w']
  /\ messages (snd engine) = messages w'
  /\ messages (snd r) = messages w'
  /\ store (snd r) !! key opts = Some (messages w')
  /\ isLoading (snd r) = false
  /\ match settled (text res) with
     | inl e => fst engine = Throw e
     | inr t =>
         let err := status_error t in
         fst engine = Throw err
         /\ err_message err
            = (if is_empty t then "Failed to fetch the chat response." else t)
         /\ match onError opts with
            | None =>
                fst r = Ret RUndefined
                /\ error (snd r) = Some err
                /\ trace (snd r)
                   = trace (snd engine) ++ [EvError err; EvLoading false]
            | Some handler =>
                match handler err with
                | inr _ =>
                    fst r = Ret RUndefined
                    /\ error (snd r) = Some err
                    /\ trace (snd r)
                       = trace (snd engine)
                         ++ [EvOnError err; EvError err; EvLoading false]
                | inl thrown =>
                    fst r = Throw thrown
                    /\ error (snd r) = error w
                    /\ trace (snd r)
                       = trace (snd engine) ++ [EvOnError err; EvLoading false]
                end
            end
     end.
Proof.
  intros Hreach Hfetch Hstatus Hacc engine r.
  destruct (engine_status_check env opts (api opts) cr' (headers opts)
              (body opts) (messages w') (abortController w') (onFinish opts)
              (onResponse opts) (sendExtraMessageFields opts) w'
              res Hfetch Hacc (not_2xx _ Hstatus))
    as (w2 & Hengine & Hm & Hs & Hp).
  set (thrown := match settled (text res) with
                 | inl e => e
                 | inr t => status_error t
                 end).
  assert (Hturn : engine_turn env opts cr' w' = (Throw thrown, w2)).
  { unfold engine_turn. rewrite Hengine. subst thrown.
    by destruct (settled (text res)). }
  pose proof (loop_throws _ _ _ _ _ _ _ _ _ _ Hreach Hturn) as Hloop.
  destruct (triggerRequest_throw_keeps_list env opts fuel cr w _ _ Hloop)
    as (Hrm & Hrs & Hrl).
  pose proof (loop_keeps_error env opts fuel cr (entered w)) as Herr.
  rewrite Hloop in Herr. simpl in Herr.
  subst engine r. rewrite Hturn. cbn [fst snd].
  split; [ exact Hp | ]. split; [ exact Hm | ].
  split; [ by rewrite Hrm | ]. split; [ by rewrite Hrs | ].
  split; [ exact Hrl | ].
  subst thrown. destruct (settled (text res)) as [e | t]; [ reflexivity | ].
  cbv zeta. split; [ reflexivity | ]. split; [ reflexivity | ].
  rewrite triggerRequest_run, Hloop.
  change (String.eqb (err_name (status_error t)) "AbortError") with false.
  cbv iota.
  destruct (onError opts) as [handler |].
  - change (err_is_Error (status_error t)) with true. cbv iota. mrun.
    destruct (handler (status_error t)) as [e' | []]; simpl;
      rewrite <- ?app_assoc; auto.
  - simpl. rewrite <- ?app_assoc. auto.
Qed.

(** The engine rejects with the abort. *)
Lemma engine_aborted env opts a cr hs b prev c onFin extra w e :
  stopped_while_active opts
    (fetch env (requests w) (fetch_request a cr hs b (Some c) extra)) e ->
  fst (getStreamedResponse env a cr (mutate opts) hs b prev (Some c) onFin
                           (onResponse opts) extra w) = Throw e.
Proof.
  intros H. rewrite getStreamedResponse_run.
  destruct H as [(_ & Hp & _)
                | res Hp Hacc Hok (_ & Ht & _)
                | res chunks rd rest Hp Hacc Hok Hbody (_ & Hrd & _)];
    rewrite Hp; cbv zeta; [ reflexivity | | ];
    rewrite (accepted_run _ _ Hacc), Hok.
  - rewrite Ht. reflexivity.
  - rewrite Hbody, (stream_body_interrupted _ _ _ _ _ _ _ _ _ _ Hrd).
    reflexivity.
Qed.

Lemma aborted_by_stop_name {A} (p : Awaited A) e :
  aborted_by_stop p e -> err_name e = "AbortError".
Proof. by intros (_ & _ & H). Qed.

Lemma stopped_while_active_name opts p e :
  stopped_while_active opts p e -> err_name e = "AbortError".
Proof. intros []; eauto using @aborted_by_stop_name. Qed.

(** C7.  When [stop()] is called while a request of an exchange is active,
    in whichever turn of the loop, and the pending operation rejects with
    the abort, the exchange resolves to [null], the error cell is left as it
    was, the loading flag is false and the orchestrator holds no token. *)
Theorem stop_resolves_to_null env opts fuel cr w fuel' cr' w' c e :
  reaches env opts fuel cr (entered w) (S fuel') cr' w' ->
  abortController w' = Some c ->
  stopped_while_active opts
    (fetch env (requests w') (turn_request opts cr' w')) e ->
  let r := triggerRequest env opts fuel cr w in
  fst r = Ret RNull
  /\ error (snd r) = error w
  /\ isLoading (snd r) = false
  /\ abortController (snd r) = None.
Proof.
  intros Hreach Hc Hstop r. unfold turn_request in Hstop. rewrite Hc in Hstop.
  pose proof (engine_aborted env opts (api opts) cr' (headers opts)
                (body opts) (messages w') c (onFinish opts)
                (sendExtraMessageFields opts) w' e Hstop) as Hthrow.
  destruct (engine_turn env opts cr' w') as [o w2] eqn:Hengine.
  unfold engine_turn in Hengine. rewrite Hc in Hengine.
  rewrite Hengine in Hthrow. simpl in Hthrow. subst o.
  assert (Hturn : engine_turn env opts cr' w' = (Throw e, w2)).
  { unfold engine_turn. by rewrite Hc. }
  pose proof (loop_throws _ _ _ _ _ _ _ _ _ _ Hreach Hturn) as Hloop.
  pose proof (stable_request_loop env opts loop_emits fuel (fun _ H => H) cr
                (entered w)) as [Herr _ _].
  rewrite Hloop in Herr. simpl in Herr.
  subst r.
  rewrite (triggerRequest_abort _ _ _ _ _ _ _ Hloop
             (stopped_while_active_name _ _ _ Hstop)).
  simpl. auto.
Qed.

(** ** What an exchange starts with *)

Lemma evolves_stopped k (Q : Event -> Prop) b w :
  (forall c, Q (EvAbort c)) -> evolves k Q w (stopped b w).
Proof.
  intros H. unfold stopped. destruct b; [ | apply evolves_refl ].
  by apply stable_stop.
Qed.

Lemma evolves_publish opts (Q : Event -> Prop) data w :
  Q (EvMutate data) -> evolves (key opts) Q w (publish (key opts) [data] w).
Proof. intros H. by apply (stable_mutate opts Q data). Qed.

Lemma evolves_log k (Q : Event -> Prop) ev w :
  Q ev -> published [ev] = [] -> evolves k Q w (log ev w).
Proof. intros H Hp. by apply (stable_emit k Q ev). Qed.

Lemma body_emits_after_fetch cr ref ev :
  body_emits cr ref ev -> after_fetch_emits ev.
Proof. destruct ev; simpl; auto. Qed.

(** After its request is issued, the engine only evolves the state. *)
Lemma engine_after_fetch env opts (Q : Event -> Prop)
    a cr hs b prev ref onFin onResp extra w :
  (forall ev, after_fetch_emits ev -> Q ev) ->
  evolves (key opts) Q
    (log (EvFetch (fetch_request a cr hs b ref extra))
       (count_request (publish (key opts) [cr_messages cr] w)))
    (snd (getStreamedResponse env a cr (mutate opts) hs b prev ref
                              onFin onResp extra w)).
Proof.
  intros HQ. rewrite getStreamedResponse_run.
  set (wi := log _ (count_request _)).
  set (p := fetch env (requests w) _).
  assert (Hstop : forall c, Q (EvAbort c)) by (intros c; by apply HQ).
  assert (Hpub : forall data, Q (EvMutate data)) by (intros c; by apply HQ).
  assert (Hf : evolves (key opts) Q wi (stopped (ui_stop p) wi))
    by by apply evolves_stopped.
  destruct (settled p) as [e | res]; cbv zeta.
  { eapply evolves_trans; [ exact Hf | ]. by apply evolves_publish. }
  set (wr := match onResp with Some _ => stopped _ _ | None => _ end).
  assert (Hr : evolves (key opts) Q wi wr).
  { subst wr. destruct onResp as [handler |]; auto.
    eapply evolves_trans; [ exact Hf | ].
    eapply evolves_trans;
      [ apply (evolves_log _ _ (EvOnResponse res)); [ by apply HQ | done ] | ].
    by apply evolves_stopped. }
  destruct (match onResp with Some handler => settled (handler res)
                            | None => inr tt end) as [e | []]; auto.
  destruct (ok res).
  - destruct (res_body res) as [reads |]; auto.
    eapply evolves_trans; [ exact Hr | ].
    apply stable_stream_body. intros ev H.
    eapply HQ, body_emits_after_fetch, H.
  - eapply evolves_trans; [ exact Hr | ].
    eapply evolves_trans; [ by apply evolves_publish | ].
    by apply evolves_stopped.
Qed.

Lemma evolves_extends k Q w w' :
  evolves k Q w w' -> exists evs, trace w' = trace w ++ evs.
Proof. intros [_ _ (evs & H & _)]. eauto. Qed.

(** The first effects of [triggerRequest]: the loading flag, the
    optimistic update, the request. *)
Lemma triggerRequest_starts env opts fuel cr w :
  exists evs,
    trace (snd (triggerRequest env opts (S fuel) cr w))
    = trace w
      ++ EvLoading true
      :: EvMutate (cr_messages cr)
      :: EvFetch (fetch_request (api opts) cr (headers opts) (body opts)
                    (Some (controllers w)) (sendExtraMessageFields opts))
      :: evs.
Proof.
  set (rq := fetch_request _ _ _ _ _ _).
  assert (Hloop : exists evs,
             trace (snd (request_loop env opts (S fuel) cr (entered w)))
             = trace w ++ EvLoading true :: EvMutate (cr_messages cr)
                 :: EvFetch rq :: evs).
  { rewrite first_turn, bind_run.
    pose proof (engine_after_fetch env opts any_event (api opts) cr
                  (headers opts) (body opts) (messages w)
                  (Some (controllers w)) (onFinish opts) (onResponse opts)
                  (sendExtraMessageFields opts) (entered w)
                  (fun _ _ => I)) as He.
    apply evolves_extends in He. destruct He as (evs1 & He).
    fold rq in He.
    destruct (getStreamedResponse _ _ _ _ _ _ _ _ _ _ _ (entered w))
      as [[m | e |] w2]; simpl in He;
      try (exists evs1; simpl; rewrite He; simpl;
           rewrite <- !app_assoc; reflexivity).
    pose proof (stable_handle_response opts any_event
                  (request_loop env opts fuel) cr m
                  (fun _ _ => I)
                  (stable_request_loop env opts any_event fuel (fun _ _ => I))
                  w2) as Hh.
    apply evolves_extends in Hh. destruct Hh as (evs2 & Hh).
    exists (evs1 ++ evs2). rewrite Hh, He. simpl.
    rewrite <- !app_assoc. reflexivity. }
  destruct Hloop as (evs & Hloop). rewrite triggerRequest_run.
  destruct (request_loop env opts (S fuel) cr (entered w))
    as [[[] | err |] w2]; simpl in Hloop.
  - exists (evs ++ [EvLoading false]). simpl. rewrite Hloop.
    rewrite <- !app_assoc. reflexivity.
  - destruct (String.eqb (err_name err) "AbortError").
    { exists (evs ++ [EvLoading false]). simpl. rewrite Hloop.
      rewrite <- !app_assoc. reflexivity. }
    destruct (onError opts) as [handler |]; [ destruct (err_is_Error err) | ].
    + mrun. destruct (handler err) as [e | []]; simpl.
      * exists (evs ++ [EvOnError err; EvLoading false]). rewrite Hloop.
        rewrite <- !app_assoc. reflexivity.
      * exists (evs ++ [EvOnError err; EvError err; EvLoading false]).
        rewrite Hloop. rewrite <- !app_assoc. reflexivity.
    + exists (evs ++ [EvError err; EvLoading false]). simpl. rewrite Hloop.
      rewrite <- !app_assoc. reflexivity.
    + exists (evs ++ [EvError err; EvLoading false]). simpl. rewrite Hloop.
      rewrite <- !app_assoc. reflexivity.
  - exists evs. exact Hloop.
Qed.

(** ** [reload] and [append] *)

Lemma slice_0_minus1_snoc {A} (l : list A) x :
  slice_0_minus1 (l ++ [x]) = l.
Proof.
  unfold slice_0_minus1. apply take_app_length'.
  rewrite length_app. simpl. lia.
Qed.

(** C4.  [reload] on an empty history resolves to [null] and changes
    nothing; on a history whose last message is not from the assistant (a
    user message in particular) it resolves to [undefined] and changes
    nothing, so no request is issued; on a history ending in an assistant
    message it is [triggerRequest] on the history without that message, and
    the exchange starts by publishing that shorter history and sending it. *)
Theorem reload_by_last_message env opts fuel o w :
  (messages w = [] -> reload env opts fuel o w = (Ret RNull, w))
  /\ (forall m,
        last (messages w) = Some m -> role m <> assistant ->
        reload env opts fuel o w = (Ret RUndefined, w))
  /\ (forall history m,
        messages w = history ++ [m] -> role m = assistant ->
        let chatRequest :=
          {| cr_messages := history; cr_options := cro_options o;
             cr_functions := cro_functions o;
             cr_function_call := cro_function_call o |} in
        reload env opts fuel o w = triggerRequest env opts fuel chatRequest w
        /\ exists evs,
            trace (snd (reload env opts (S fuel) o w))
            = trace w
              ++ EvLoading true
              :: EvMutate history
              :: EvFetch (fetch_request (api opts) chatRequest (headers opts)
                            (body opts) (Some (controllers w))
                            (sendExtraMessageFields opts))
              :: evs).
Proof.
  split; [ | split ].
  - intros H. unfold reload. mrun. rewrite H. reflexivity.
  - intros m Hlast Hrole. unfold reload. mrun. rewrite Hlast.
    destruct (messages w) as [| m0 ms]; [ discriminate | ]. simpl.
    destruct (role m); try reflexivity. congruence.
  - intros history m Hm Hrole chatRequest.
    assert (Heq : forall n, reload env opts n o w
                            = triggerRequest env opts n chatRequest w).
    { intros n. unfold reload. mrun.
      rewrite Hm, last_snoc, Hrole, slice_0_minus1_snoc, length_app. simpl.
      replace (length history + 1 =? 0) with false; [ reflexivity | ].
      symmetry. apply Nat.eqb_neq. lia. }
    split; [ apply Heq | ]. rewrite Heq.
    apply (triggerRequest_starts env opts fuel chatRequest w).
Qed.

Lemma no_id_false i : no_id (Some i) = false <-> i <> EmptyString.
Proof. destruct i; simpl; split; congruence. Qed.

(** C9.  A message passed to [append] without an id (no [id], or the empty
    string, which [!message.id] treats alike) is submitted with the id the
    generator returns next; a message passed with an id keeps that id.  In
    both cases the request descriptor is the current history followed by
    the message, and the exchange starts by publishing that list and
    sending it. *)
Theorem append_assigns_or_keeps_id env opts fuel message chatOptions w :
  let o := default no_options chatOptions in
  let request_with (i : string) :=
    {| cr_messages := messages w ++ [with_id i message];
       cr_options := cro_options o;
       cr_functions := cro_functions o;
       cr_function_call := cro_function_call o |} in
  (no_id (cm_id message) = true ->
     let i := nanoid env (generated w) in
     append env opts fuel message chatOptions w
     = triggerRequest env opts fuel (request_with i) (count_generated w)
     /\ id (with_id i message) = i
     /\ exists evs,
         trace (snd (append env opts (S fuel) message chatOptions w))
         = trace w
           ++ EvLoading true
           :: EvMutate (messages w ++ [with_id i message])
           :: EvFetch (fetch_request (api opts) (request_with i)
                         (headers opts) (body opts) (Some (controllers w))
                         (sendExtraMessageFields opts))
           :: evs)
  /\ (forall i,
     cm_id message = Some i -> i <> EmptyString ->
     append env opts fuel message chatOptions w
     = triggerRequest env opts fuel (request_with i) w
     /\ id (with_id i message) = i
     /\ exists evs,
         trace (snd (append env opts (S fuel) message chatOptions w))
         = trace w
           ++ EvLoading true
           :: EvMutate (messages w ++ [with_id i message])
           :: EvFetch (fetch_request (api opts) (request_with i)
                         (headers opts) (body opts) (Some (controllers w))
                         (sendExtraMessageFields opts))
           :: evs).
Proof.
  intros o request_with. split.
  - intros Hno i.
    assert (Heq : forall n, append env opts n message chatOptions w
                  = triggerRequest env opts n (request_with i) (count_generated w)).
    { intros n. unfold append. rewrite Hno. unfold generate. mrun. reflexivity. }
    split; [ apply Heq | ]. split; [ reflexivity | ]. rewrite Heq.
    apply (triggerRequest_starts env opts fuel (request_with i) (count_generated w)).
  - intros i Hi Hne.
    assert (Heq : forall n, append env opts n message chatOptions w
                  = triggerRequest env opts n (request_with i) w).
    { intros n. unfold append. rewrite Hi.
      apply no_id_false in Hne. rewrite Hne. mrun. reflexivity. }
    split; [ apply Heq | ]. split; [ reflexivity | ]. rewrite Heq.
    apply (triggerRequest_starts env opts fuel (request_with i) w).
Qed.

(** ** The function-call text, split into chunks *)

Lemma append_empty_r s : String.append s EmptyString = s.
Proof.
  induction s as [| a s IH]; [ reflexivity | ].
  change (String a (String.append s EmptyString) = String a s). by rewrite IH.
Qed.

Lemma append_assoc s t u :
  String.append (String.append s t) u = String.append s (String.append t u).
Proof.
  induction s as [| a s IH]; [ reflexivity | ].
  change (String a (String.append (String.append s t) u)
          = String a (String.append s (String.append t u))).
  by rewrite IH.
Qed.

Lemma after_chunks_text chunks :
  forall acc,
    fst (after_chunks chunks acc)
    = String.append (fst acc) (fold_right String.append EmptyString chunks).
Proof.
  induction chunks as [| value chunks IH]; intros [s rm].
  - simpl. by rewrite append_empty_r.
  - rewrite after_chunks_cons, IH. simpl. apply append_assoc.
Qed.

Lemma after_chunks_id chunks :
  forall acc, id (snd (after_chunks chunks acc)) = id (snd acc)
              /\ role (snd (after_chunks chunks acc)) = role (snd acc).
Proof.
  induction chunks as [| value chunks IH]; intros [s rm]; [ done | ].
  rewrite after_chunks_cons.
  destruct (IH (absorb (s, rm) value)) as [-> ->].
  unfold absorb. simpl. by destruct (String.prefix _ _).
Qed.

(** Whatever the split, once the stream is complete the reply carries the
    structured call. *)
Lemma every_split_yields_the_structured_call env opts cr c chunks w :
  fold_right String.append EmptyString chunks = function_call_text ->
  exists m w',
    stream_body env cr (mutate opts) (Some c) None (chunk_reads chunks) w
    = (Ret m, w')
    /\ function_call m = Some structured_call_f
    /\ content m = content (snd (after_chunks chunks (EmptyString, reply env w))).
Proof.
  intros Htext. rewrite stream_body_complete.
  set (acc := after_chunks chunks _).
  assert (Hacc : fst acc = String.append EmptyString function_call_text).
  { subst acc. rewrite after_chunks_text, Htext. reflexivity. }
  unfold finish_stream. rewrite Hacc, prefix_function_call_text.
  mrun. rewrite parse_function_call_text. cbn [settle]. mrun.
  cbn [Json.get_property Json.lookup_field String.eqb Ascii.eqb Bool.eqb settle].
  eexists _, _. split; [ reflexivity | ]. split; reflexivity.
Qed.

(** C3 (the code at the failing input).  The function-call text arrives
    in two chunks, its first character and the rest: the final message
    carries the structured call, and its [content] is the first chunk, not
    the empty string. *)
Theorem function_call_split_inside_the_prefix_leaves_content :
  let chunks := ["{"; function_call_tail] in
  let r := getStreamedResponse (serving (ok_stream (chunk_reads chunks)))
             (api default_options) no_messages (mutate default_options)
             [] [] [] (Some 0) None None false start in
  fold_right String.append EmptyString chunks = function_call_text
  /\ exists m,
      fst r = Ret m
      /\ function_call m = Some structured_call_f
      /\ content m = "{"
      /\ last (messages (snd r)) = Some m.
Proof.
  vm_compute. split; [ reflexivity | ]. eexists. repeat split.
Qed.

Lemma prefix_append p :
  forall s t,
    String.prefix p s = true -> String.prefix p (String.append s t) = true.
Proof.
  induction p as [| a p IH]; intros s t H.
  - by destruct (String.append s t).
  - destruct s as [| b s]; [ discriminate | ].
    change (String.append (String b s) t) with (String b (String.append s t)).
    simpl in *. destruct (ascii_dec a b); [ by apply IH | discriminate ].
Qed.

Lemma after_chunks_content chunks :
  forall acc,
    String.prefix function_call_prefix (fst acc) = true ->
    content (snd (after_chunks chunks acc)) = content (snd acc).
Proof.
  induction chunks as [| value chunks IH]; intros [s rm] H; [ done | ].
  rewrite after_chunks_cons.
  assert (Hp : String.prefix function_call_prefix (String.append s value) = true)
    by by apply prefix_append.
  rewrite IH.
  - unfold absorb. cbn [fst snd]. by rewrite Hp.
  - exact Hp.
Qed.

(** When the first chunk already holds the whole prefix, the content of the
    reply stays empty. *)
Lemma first_chunk_with_prefix_keeps_content_empty env w value chunks :
  String.prefix function_call_prefix value = true ->
  content (snd (after_chunks (value :: chunks) (EmptyString, reply env w)))
  = EmptyString.
Proof.
  intros H. rewrite after_chunks_cons, after_chunks_content.
  - unfold absorb. cbn [fst snd]. 
    change (String.append EmptyString value) with value. by rewrite H.
  - unfold absorb. cbn [fst snd].
    by change (String.append EmptyString value) with value.
Qed.

(** ** Cancellation *)

Lemma cancels_app evs1 evs2 : cancels (evs1 ++ evs2) = cancels evs1 + cancels evs2.
Proof.
  induction evs1 as [| ev evs1 IH]; simpl; auto.
  destruct ev; simpl; auto.
Qed.

Lemma Forall_no_cancel (Q : Event -> Prop) evs :
  (~ Q EvReaderCancel) -> Forall Q evs -> cancels evs = 0.
Proof.
  intros HQ H. induction H as [| ev evs Hev _ IH]; simpl; auto.
  destruct ev; auto. contradiction.
Qed.

Lemma Forall_no_fetch (Q : Event -> Prop) evs :
  (forall rq, ~ Q (EvFetch rq)) -> Forall Q evs -> fetched evs = [].
Proof.
  intros HQ H. induction H as [| ev evs Hev _ IH]; simpl; auto.
  destruct ev; auto. by apply HQ in Hev.
Qed.

(** C2, against the claim.  The user calls [stop()] while a chunk of an
    active stream is awaited.  When the chunk still arrives, the check after
    it does not see the cleared token: the reader is never cancelled and the
    next chunk is consumed.  When the abort makes the pending read reject,
    the read is interrupted and the exchange ends at once with [null]. *)
Lemma stop_mid_stream_is_not_seen_by_the_chunk_check :
  let r := append stop_ignored_stream default_options 1 hi None start in
  let r' := append stop_honoured_stream default_options 1 hi None start in
  (aborts (trace (snd r)) = [0]
   /\ abortController (snd r) = None
   /\ cancels (trace (snd r)) = 0
   /\ fst r = Ret (RString "Hello"))
  /\ (aborts (trace (snd r')) = [0]
      /\ cancels (trace (snd r')) = 0
      /\ fst r' = Ret RNull
      /\ last_content (messages (snd r')) = "Hel").
Proof. vm_compute. repeat split. Qed.

(** C2 (as amended).  [stop()] aborts the signal of the active token and
    clears the orchestrator's variable; the engine attaches the signal of the
    token it is given to its one request; with a token, a read that rejects
    ends the engine with that rejection after the chunks read so far, whose
    publications stay, and the reader is not cancelled; without a token, the
    check after the first chunk cancels the reader and no further read is
    made. *)
Theorem cancellation_by_signal_and_by_token_check env opts :
  (forall w c,
      abortController w = Some c ->
      stop w = (Ret tt, snd (stop w))
      /\ abortController (snd (stop w)) = None
      /\ aborted (snd (stop w)) = c :: aborted w
      /\ trace (snd (stop w)) = trace w ++ [EvAbort c])
  /\ (forall a cr hs b prev ref onFin onResp extra w,
      let rq := fetch_request a cr hs b ref extra in
      let r := getStreamedResponse env a cr (mutate opts) hs b prev ref
                                   onFin onResp extra w in
      fetched (trace (snd r)) = fetched (trace w) ++ [rq]
      /\ rq_signal rq = ref)
  /\ (forall cr c onFin chunks rd rest e w,
      settled rd = inl e ->
      let r := stream_body env cr (mutate opts) (Some c) onFin
                           (chunk_reads chunks ++ rd :: rest) w in
      fst r = Throw e
      /\ published (trace (snd r))
         = published (trace w)
           ++ chunk_publications cr chunks (EmptyString, reply env w)
      /\ cancels (trace (snd r)) = cancels (trace w))
  /\ (forall cr onFin rd value rest w,
      settled rd = inr (ReadChunk value) ->
      let acc := absorb (EmptyString, reply env w) value in
      stream_body env cr (mutate opts) None onFin (rd :: rest) w
      = finish_stream cr (mutate opts) onFin acc
          (log EvReaderCancel
             (publish (key opts) [cr_messages cr ++ [snd acc]]
                (stopped (ui_stop rd)
                   (count_generated (count_generated w)))))).
Proof.
  split; [ | split; [ | split ] ].
  - intros w c Hc. munfold. simpl. rewrite Hc. simpl. auto.
  - intros a cr hs b prev ref onFin onResp extra w rq r.
    split; [ | reflexivity ]. subst r.
    destruct (engine_after_fetch env opts after_fetch_emits a cr hs b prev
                ref onFin onResp extra w (fun _ H => H))
      as [_ _ (evs & -> & HQ & _)].
    rewrite fetched_app, (Forall_no_fetch _ _ (fun _ H => H) HQ), app_nil_r.
    observe. reflexivity.
  - intros cr c onFin chunks rd rest e w Hrd r. subst r.
    destruct (stable_stream_body env opts (body_emits cr (Some c)) cr (Some c)
                onFin (chunk_reads chunks ++ rd :: rest) (fun _ H => H) w)
      as [_ _ (evs & Ht & HQ & _)].
    assert (Hc : cancels evs = 0).
    { apply (Forall_no_cancel _ _ (fun H : body_emits cr (Some c) EvReaderCancel
                                     => ltac:(discriminate H)) HQ). }
    split; [ | split ].
    + by rewrite (stream_body_interrupted _ _ _ _ _ _ _ _ _ _ Hrd).
    + rewrite (stream_body_interrupted _ _ _ _ _ _ _ _ _ _ Hrd).
      observe. reflexivity.
    + rewrite Ht, cancels_app, Hc. lia.
  - intros cr onFin rd value rest w Hrd acc.
    unfold stream_body, generate. mrun. simpl read_loop. mrun.
    rewrite Hrd. cbn [settle]. mrun. reflexivity.
Qed.

(** ** The claims at concrete inputs *)

(** C5, against the claim.  On a response with status 500: when
    [onResponse] throws, the optimistic update stays published and the error
    is the callback's; when the body text cannot be read, the list is rolled
    back but the error is that rejection; when [onError] throws, the error
    cell is not written. *)
Lemma non_2xx_without_rollback_or_error_state :
  let r1 := append (serving server_error) vetoing_options 1 hi None start in
  let r2 := append (serving unreadable_error) default_options 1 hi None start in
  let r3 := append (serving server_error) failing_onError_options 1 hi None start in
  status server_error = 500
  /\ (messages (snd r1) <> messages start /\ error (snd r1) = Some boom)
  /\ (messages (snd r2) = messages start /\ error (snd r2) = Some network_error)
  /\ (error (snd r3) = None /\ fst r3 = Throw boom).
Proof. vm_compute. repeat split. discriminate. Qed.

Lemma status_failure_witness :
  let env := serving server_error in
  let engine := engine_turn env observing_options say_hi (entered start) in
  let r := triggerRequest env observing_options 1 say_hi start in
  let unread :=
    engine_turn (serving unreadable_error) observing_options say_hi
                (entered start) in
  let silenced :=
    triggerRequest env failing_onError_options 1 say_hi start in
  reaches env observing_options 1 say_hi (entered start)
          1 say_hi (entered start)
  /\ settled (fetch env (requests (entered start))
                (turn_request observing_options say_hi (entered start)))
     = inr server_error
  /\ ~ (200 <= status server_error <= 299)
  /\ accepted (onResponse observing_options) server_error
  /\ published (trace (snd engine)) = [cr_messages say_hi; []]
  /\ messages (snd r) = []
  /\ fst engine = Throw (status_error "oops")
  /\ err_message (status_error "oops") = "oops"
  /\ fst r = Ret RUndefined
  /\ error (snd r) = Some (status_error "oops")
  /\ trace (snd r)
     = trace (snd engine)
       ++ [EvOnError (status_error "oops"); EvError (status_error "oops");
           EvLoading false]
  /\ published (trace (snd unread)) = [cr_messages say_hi; []]
  /\ fst unread = Throw network_error
  /\ fst silenced = Throw boom
  /\ error (snd silenced) = None
  /\ messages (snd silenced) = [].
Proof.
  intros env engine r unread silenced.
  assert (H1 : forall e, reaches e observing_options 1 say_hi (entered start)
                           1 say_hi (entered start))
    by (intros e; apply reaches_here).
  assert (H2 : ~ (200 <= 500 <= 299)) by lia.
  destruct (status_failure_rolls_back_and_reports env observing_options 1
              say_hi start 0 say_hi (entered start) server_error
              (H1 env) eq_refl H2 eq_refl)
    as (Hp & _ & Hm & _ & _ & He & Hmsg & Hr & Herr & Ht).
  destruct (status_failure_rolls_back_and_reports (serving unreadable_error)
              observing_options 1 say_hi start 0 say_hi (entered start)
              unreadable_error (H1 _) eq_refl H2 eq_refl)
    as (Hp' & _ & _ & _ & _ & He').
  assert (H3 : reaches env failing_onError_options 1 say_hi (entered start)
                 1 say_hi (entered start)) by apply reaches_here.
  destruct (status_failure_rolls_back_and_reports env failing_onError_options
              1 say_hi start 0 say_hi (entered start) server_error
              H3 eq_refl H2 I)
    as (_ & _ & Hm'' & _ & _ & _ & _ & Hr'' & Herr'' & _).
  repeat split; auto.
Defined.

Lemma stop_witness :
  let r := triggerRequest stop_honoured_stream default_options 1 say_hi start in
  reaches stop_honoured_stream default_options 1 say_hi (entered start)
          1 say_hi (entered start)
  /\ abortController (entered start) = Some 0
  /\ stopped_while_active default_options
       (fetch stop_honoured_stream (requests (entered start))
          (turn_request default_options say_hi (entered start)))
       AbortError
  /\ fst r = Ret RNull
  /\ error (snd r) = error start
  /\ isLoading (snd r) = false
  /\ abortController (snd r) = None.
Proof.
  assert (H1 : reaches stop_honoured_stream default_options 1 say_hi
                 (entered start) 1 say_hi (entered start))
    by apply reaches_here.
  assert (H : stopped_while_active default_options
                (fetch stop_honoured_stream (requests (entered start))
                   (turn_request default_options say_hi (entered start)))
                AbortError).
  { apply stop_during_read
      with (res := ok_stream [resolves (ReadChunk "Hel"); aborted_read;
                              resolves (ReadChunk "lo")])
           (chunks := ["Hel"]) (rd := aborted_read)
           (rest := [resolves (ReadChunk "lo")]);
      try reflexivity; try exact I.
    repeat split. }
  split; [ exact H1 | ]. split; [ reflexivity | ]. split; [ exact H | ].
  exact (stop_resolves_to_null stop_honoured_stream default_options 1
           say_hi start 0 say_hi (entered start) 0 AbortError H1 eq_refl H).
Defined.

Lemma rollback_witness :
  let call (env : Env) :=
    getStreamedResponse env (api default_options) say_hi
      (mutate default_options) [] [] [] (Some 0) None None false start in
  (fst (call unreachable) = Throw network_error
   /\ published (trace (snd (call unreachable)))
      = published (trace start) ++ [cr_messages say_hi; []]
   /\ messages (snd (call unreachable)) = [])
  /\ (ok server_error = false
      /\ published (trace (snd (call (serving server_error))))
         = published (trace start) ++ [cr_messages say_hi; []]
      /\ messages (snd (call (serving server_error))) = [])
  /\ (ok broken_stream = true
      /\ fst (call (serving broken_stream)) = Throw network_error
      /\ published (trace (snd (call (serving broken_stream))))
         = published (trace start)
           ++ cr_messages say_hi
           :: chunk_publications say_hi ["Hel"]
                (EmptyString, reply (serving broken_stream) start))
  /\ (ok hello_stream = true
      /\ exists pubs,
          published (trace (snd (call (serving hello_stream))))
          = published (trace start) ++ pubs
          /\ Forall (fun data => data = cr_messages say_hi
                        \/ exists m, data = cr_messages say_hi ++ [m]) pubs
          /\ last pubs = Some (messages (snd (call (serving hello_stream))))).
Proof.
  intros call.
  destruct (rollback_only_for_network_and_status_failures unreachable
              default_options (api default_options) say_hi [] [] []
              (Some 0) None None false start) as (A & _).
  destruct (rollback_only_for_network_and_status_failures
              (serving server_error)
              default_options (api default_options) say_hi [] [] []
              (Some 0) None None false start) as (_ & B & _).
  destruct (rollback_only_for_network_and_status_failures
              (serving broken_stream)
              default_options (api default_options) say_hi [] [] []
              (Some 0) None None false start) as (_ & _ & C & _).
  destruct (rollback_only_for_network_and_status_failures
              (serving hello_stream)
              default_options (api default_options) say_hi [] [] []
              (Some 0) None None false start) as (_ & _ & _ & D).
  split; [ exact (A network_error eq_refl) | ].
  split.
  { split; [ reflexivity | ].
    destruct (B server_error eq_refl I eq_refl) as (_ & B2 & B3).
    split; [ exact B2 | exact B3 ]. }
  split.
  { split; [ reflexivity | ].
    destruct (C broken_stream 0 ["Hel"] (rejects network_error)
                [resolves (ReadChunk "lo")] network_error
                eq_refl I eq_refl eq_refl eq_refl eq_refl) as (C1 & C2 & _).
    split; [ exact C1 | exact C2 ]. }
  split; [ reflexivity | ].
  exact (D hello_stream eq_refl (or_introl eq_refl)).
Defined.

Lemma reload_witness :
  (messages start = []
   /\ reload (serving hello_stream) default_options 1 no_options start
      = (Ret RNull, start))
  /\ (last (messages after_user) = Some (with_id "m1" hi)
      /\ role (with_id "m1" hi) <> assistant
      /\ reload (serving hello_stream) default_options 1 no_options after_user
         = (Ret RUndefined, after_user))
  /\ (messages after_assistant = [with_id "m1" hi] ++ [old_answer]
      /\ role old_answer = assistant
      /\ reload (serving hello_stream) default_options 1 no_options
                after_assistant
         = triggerRequest (serving hello_stream) default_options 1 say_hi
                          after_assistant).
Proof.
  assert (Hne : role (with_id "m1" hi) <> assistant) by discriminate.
  destruct (reload_by_last_message (serving hello_stream) default_options 1
              no_options start) as (A & _).
  destruct (reload_by_last_message (serving hello_stream) default_options 1
              no_options after_user) as (_ & B & _).
  destruct (reload_by_last_message (serving hello_stream) default_options 1
              no_options after_assistant) as (_ & _ & C).
  split; [ split; [ reflexivity | exact (A eq_refl) ] | ].
  split.
  { split; [ reflexivity | ]. split; [ exact Hne | ].
    exact (B (with_id "m1" hi) eq_refl Hne). }
  split; [ reflexivity | ]. split; [ reflexivity | ].
  exact (proj1 (C [with_id "m1" hi] old_answer eq_refl eq_refl)).
Defined.

Lemma append_witness :
  (no_id (cm_id hi) = true
   /\ append (serving hello_stream) default_options 1 hi None start
      = triggerRequest (serving hello_stream) default_options 1
          {| cr_messages := messages start ++ [with_id "id-0" hi];
             cr_options := None; cr_functions := None;
             cr_function_call := None |}
          (count_generated start))
  /\ (cm_id hi_with_id = Some "m1"
      /\ "m1" <> EmptyString
      /\ append (serving hello_stream) default_options 1 hi_with_id None start
         = triggerRequest (serving hello_stream) default_options 1
             {| cr_messages := messages start ++ [with_id "m1" hi_with_id];
                cr_options := None; cr_functions := None;
                cr_function_call := None |}
             start).
Proof.
  assert (Hne : "m1" <> EmptyString) by discriminate.
  destruct (append_assigns_or_keeps_id (serving hello_stream) default_options
              1 hi None start) as (A & _).
  destruct (append_assigns_or_keeps_id (serving hello_stream) default_options
              1 hi_with_id None start) as (_ & B).
  split.
  { split; [ reflexivity | ]. exact (proj1 (A eq_refl)). }
  split; [ reflexivity | ]. split; [ exact Hne | ].
  exact (proj1 (B "m1" eq_refl Hne)).
Defined.

Lemma cancellation_witness :
  (abortController (entered start) = Some 0
   /\ abortController (snd (stop (entered start))) = None
   /\ aborted (snd (stop (entered start))) = [0])
  /\ (settled aborted_read = inl AbortError
      /\ fst (stream_body (serving hello_stream) say_hi (mutate default_options)
                (Some 0) None
                (chunk_reads ["Hel"] ++ aborted_read :: [resolves (ReadChunk "lo")])
                start)
         = Throw AbortError)
  /\ (settled (resolves (ReadChunk "Hel")) = inr (ReadChunk "Hel")
      /\ stream_body (serving hello_stream) say_hi (mutate default_options)
           None None
           (resolves (ReadChunk "Hel") :: [resolves (ReadChunk "lo")]) start
         = finish_stream say_hi (mutate default_options) None
             (absorb (EmptyString, reply (serving hello_stream) start) "Hel")
             (log EvReaderCancel
                (publish (key default_options)
                   [cr_messages say_hi
                    ++ [snd (absorb (EmptyString,
                                     reply (serving hello_stream) start)
                                    "Hel")]]
                   (stopped false (count_generated (count_generated start)))))).
Proof.
  destruct (cancellation_by_signal_and_by_token_check (serving hello_stream)
              default_options) as (A & _ & C & D).
  split.
  { split; [ reflexivity | ].
    destruct (A (entered start) 0 eq_refl) as (_ & A2 & A3 & _).
    split; [ exact A2 | exact A3 ]. }
  split.
  { split; [ reflexivity | ].
    exact (proj1 (C say_hi 0 None ["Hel"] aborted_read
                    [resolves (ReadChunk "lo")] AbortError start eq_refl)). }
  split; [ reflexivity | ].
  exact (D say_hi None (resolves (ReadChunk "Hel")) "Hel"
           [resolves (ReadChunk "lo")] start eq_refl).
Defined.

(** * Further properties *)

(** ** [stop] *)

(** X1.  [stop()] leaves the messages, the store, the error cell and the
    loading flag alone and clears the token; called again, or called when
    no token is held, it changes nothing. *)
Theorem stop_keeps_messages_and_is_idempotent w :
  let w' := snd (stop w) in
  fst (stop w) = Ret tt
  /\ messages w' = messages w /\ store w' = store w
  /\ error w' = error w /\ isLoading w' = isLoading w
  /\ abortController w' = None
  /\ stop w' = (Ret tt, w')
  /\ aborts (trace w')
     = aborts (trace w) ++ match abortController w with
                           | Some c => [c]
                           | None => []
                           end.
Proof.
  munfold. simpl. destruct (abortController w) as [c |] eqn:E; simpl.
  - repeat split; auto.
    clear. induction (trace w) as [| ev t IH]; simpl; auto.
    destruct ev; simpl; congruence.
  - rewrite E. rewrite app_nil_r. repeat split; auto.
Qed.

(** ** The request *)

Lemma get_key_set_key {V} k k' (v : V) o :
  get_key k' (set_key k v o)
  = if String.eqb k k' then Some v else get_key k' o.
Proof.
  induction o as [| [k0 v0] o IH]; simpl.
  - reflexivity.
  - destruct (String.eqb k0 k) eqn:E0; simpl.
    + apply String.eqb_eq in E0. subst k0.
      destruct (String.eqb k k'); reflexivity.
    + destruct (String.eqb k0 k') eqn:E1; [ | exact IH ].
      apply String.eqb_eq in E1. subst k0.
      rewrite String.eqb_sym in E0. by rewrite E0.
Qed.

Lemma get_key_spread {V} k (extra o : list (string * V)) :
  get_key k (spread o extra)
  = match find_last k extra with
    | Some v => Some v
    | None => get_key k o
    end.
Proof.
  unfold spread, find_last.
  induction extra as [| [k0 v0] extra IH] using rev_ind; [ reflexivity | ].
  rewrite !fold_left_app. simpl. rewrite get_key_set_key.
  destruct (String.eqb k0 k); [ reflexivity | exact IH ].
Qed.

Lemma find_last_json_fields k (o : list (string * json)) :
  find_last k (json_fields o) = PJson <$> find_last k o.
Proof.
  unfold find_last, json_fields.
  induction o as [| [k0 v0] o IH] using rev_ind; [ reflexivity | ].
  rewrite map_app, !fold_left_app. simpl.
  destruct (String.eqb k0 k); [ reflexivity | exact IH ].
Qed.

(** X2.  How the request is assembled (lines 71-101): in the JSON body, the
    request's own [function_call] and [functions] win over everything;
    otherwise a field comes from the per-call body, else from the body of
    the hook, else it is the message list under [messages], and no other
    field is present; a header comes from the per-call headers, else from
    the headers of the hook.  The method is POST and the signal is that of
    the token given. *)
Theorem request_fields_by_precedence a cr hs b ref extra k :
  let rq := fetch_request a cr hs b ref extra in
  get_key k (rq_body rq)
  = match (if String.eqb "function_call" k then cr_function_call cr
           else if String.eqb "functions" k then cr_functions cr
           else None) with
    | Some v => Some (PJson v)
    | None =>
        match find_last k (options_body cr) with
        | Some v => Some (PJson v)
        | None =>
            match find_last k b with
            | Some v => Some (PJson v)
            | None =>
                if String.eqb "messages" k
                then Some (payload_messages extra (cr_messages cr))
                else None
            end
        end
    end
  /\ get_key k (rq_headers rq)
     = match find_last k (options_headers cr) with
       | Some v => Some v
       | None => find_last k hs
       end
  /\ rq_method rq = "POST" /\ rq_url rq = a /\ rq_signal rq = ref.
Proof.
  intros rq. subst rq. unfold fetch_request. cbn [rq_body rq_headers rq_method rq_url rq_signal].
  fold (options_body cr). fold (options_headers cr).
  fold (payload_messages extra (cr_messages cr)).
  split; [ | split; [ | auto ] ].
  - assert (Hbase : get_key k
              (spread (spread [("messages", payload_messages extra (cr_messages cr))]
                              (json_fields b))
                      (json_fields (options_body cr)))
            = match find_last k (options_body cr) with
              | Some v => Some (PJson v)
              | None =>
                  match find_last k b with
                  | Some v => Some (PJson v)
                  | None =>
                      if String.eqb "messages" k
                      then Some (payload_messages extra (cr_messages cr))
                      else None
                  end
              end).
    { rewrite !get_key_spread, !find_last_json_fields.
      destruct (find_last k (options_body cr)); simpl; auto.
      destruct (find_last k b); simpl; auto. }
    unfold spread_if.
    destruct (cr_function_call cr) as [fc |], (cr_functions cr) as [fs |];
      cbn [fmap option_fmap option_map]; rewrite ?get_key_set_key, Hbase;
      destruct (String.eqb "function_call" k) eqn:E1;
      destruct (String.eqb "functions" k) eqn:E2; auto;
      apply String.eqb_eq in E1; apply String.eqb_eq in E2; congruence.
  - rewrite !get_key_spread.
    destruct (find_last k (options_headers cr)), (find_last k hs); reflexivity.
Qed.

Lemma same_core_strip ms ms' :
  Forall2 same_core ms ms' -> map strip ms = map strip ms'.
Proof.
  induction 1 as [| m m' ms ms' (H1 & H2 & H3 & H4) _ IH]; simpl; auto.
  unfold strip at 1 3. by rewrite H1, H2, H3, H4, IH.
Qed.

(** X3.  Without [sendExtraMessageFields], the request does not depend on
    the ids and creation times of the messages: histories that agree on
    role, content, name and function call give the same request. *)
Theorem request_ignores_ids_and_dates a ms ms' o fs fc hs b ref :
  Forall2 same_core ms ms' ->
  fetch_request a (mkChatRequest ms o fs fc) hs b ref false
  = fetch_request a (mkChatRequest ms' o fs fc) hs b ref false.
Proof.
  intros H. unfold fetch_request. simpl.
  by rewrite (same_core_strip _ _ H).
Qed.

(** ** A stream of plain text *)

Lemma prefix_of_append_false p s t :
  String.prefix p (String.append s t) = false -> String.prefix p s = false.
Proof.
  intros H. destruct (String.prefix p s) eqn:E; [ | reflexivity ].
  by rewrite (prefix_append _ _ t E) in H.
Qed.

Lemma set_content_twice s t rm : set_content s (set_content t rm) = set_content s rm.
Proof. reflexivity. Qed.

Lemma absorb_plain s rm value :
  String.prefix function_call_prefix (String.append s value) = false ->
  absorb (s, rm) value
  = (String.append s value, set_content (String.append s value) rm).
Proof. intros H. unfold absorb. cbn [fst snd]. by rewrite H. Qed.

Lemma after_chunks_plain chunks :
  forall s rm,
    String.prefix function_call_prefix (String.append s (stream_text chunks))
    = false ->
    after_chunks chunks (s, rm)
    = (String.append s (stream_text chunks),
       match chunks with
       | [] => rm
       | _ => set_content (String.append s (stream_text chunks)) rm
       end).
Proof.
  induction chunks as [| value chunks IH]; intros s rm H.
  - simpl. by rewrite append_empty_r.
  - rewrite after_chunks_cons. simpl stream_text in *.
    rewrite <- append_assoc in H.
    rewrite (absorb_plain _ _ _ (prefix_of_append_false _ _ _ H)).
    rewrite (IH _ _ H), <- append_assoc.
    destruct chunks; [ | reflexivity ].
    simpl. by rewrite !append_empty_r.
Qed.

Lemma partials_plain chunks :
  forall s rm,
    String.prefix function_call_prefix (String.append s (stream_text chunks))
    = false ->
    partials chunks (s, rm)
    = map (fun t => set_content t rm) (running s chunks).
Proof.
  induction chunks as [| value chunks IH]; intros s rm H; [ reflexivity | ].
  simpl stream_text in H. rewrite <- append_assoc in H.
  cbn [partials running map].
  rewrite (absorb_plain _ _ _ (prefix_of_append_false _ _ _ H)).
  cbn [snd]. rewrite (IH _ _ H). reflexivity.
Qed.

(** What the engine gives back once the reply [m] is complete: [m], unless
    [onFinish] throws. *)
Lemma finish_stream_plain opts cr (onFin : option (Message -> JsError + unit))
    s m w :
  String.prefix function_call_prefix s = false ->
  finish_stream cr (mutate opts) onFin (s, m) w
  = (match onFin with
     | Some handler =>
         match handler m with
         | inl e => Throw e
         | inr _ => Ret m
         end
     | None => Ret m
     end,
     match onFin with Some _ => log (EvOnFinish m) w | None => w end).
Proof.
  intros H. unfold finish_stream. cbn [fst snd]. rewrite H.
  destruct onFin as [handler |]; mrun; [ | reflexivity ].
  by destruct (handler m) as [e | []].
Qed.

Lemma cancelled_fields ref chunks w :
  messages (cancelled ref chunks w) = messages w
  /\ store (cancelled ref chunks w) = store w
  /\ requests (cancelled ref chunks w) = requests w
  /\ published (trace (cancelled ref chunks w)) = published (trace w)
  /\ fetched (trace (cancelled ref chunks w)) = fetched (trace w).
Proof.
  unfold cancelled. destruct ref, chunks; simpl;
    rewrite ?published_app, ?fetched_app; simpl; rewrite ?app_nil_r; auto.
Qed.

(** A stream that delivers its chunks and closes, with or without a
    token. *)
Lemma stream_body_read env opts cr ref onFin chunks w :
  let acc := (EmptyString, reply env w) in
  let read := consumed ref chunks in
  stream_body env cr (mutate opts) ref onFin (chunk_reads chunks) w
  = finish_stream cr (mutate opts) onFin (after_chunks read acc)
      (cancelled ref chunks
         (publish (key opts) (chunk_publications cr read acc)
            (count_generated (count_generated w)))).
Proof.
  intros acc read. subst read.
  destruct ref as [c |]; [ apply stream_body_complete | ].
  unfold stream_body, generate. mrun.
  destruct chunks as [| value chunks]; simpl read_loop; mrun.
  - reflexivity.
  - cbn [settle resolves settled ui_stop]. cbv beta iota. mrun.
    reflexivity.
Qed.

Lemma consumed_nonempty ref chunks : chunks <> [] -> consumed ref chunks <> [].
Proof. destruct ref, chunks; simpl; congruence. Qed.

(** The body of a plain-text stream. *)
Lemma stream_body_plain env opts cr ref onFin chunks w :
  let read := consumed ref chunks in
  String.prefix function_call_prefix (stream_text read) = false ->
  let m := set_content (stream_text read) (reply env w) in
  stream_body env cr (mutate opts) ref onFin (chunk_reads chunks) w
  = (match onFin with
     | Some handler =>
         match handler m with
         | inl e => Throw e
         | inr _ => Ret m
         end
     | None => Ret m
     end,
     let w1 := cancelled ref chunks
                 (publish (key opts)
                    (map (fun t => cr_messages cr
                                   ++ [set_content t (reply env w)])
                         (running EmptyString read))
                    (count_generated (count_generated w))) in
     match onFin with Some _ => log (EvOnFinish m) w1 | None => w1 end).
Proof.
  intros read Hplain m. rewrite stream_body_read. fold read.
  unfold chunk_publications.
  rewrite (partials_plain read EmptyString (reply env w) Hplain), map_map.
  rewrite (after_chunks_plain read EmptyString (reply env w) Hplain).
  change (String.append EmptyString (stream_text read)) with (stream_text read).
  assert (Hm : match read with
               | [] => reply env w
               | _ => set_content (stream_text read) (reply env w)
               end = m).
  { destruct read; reflexivity. }
  rewrite Hm. by rewrite (finish_stream_plain opts cr onFin _ m _ Hplain).
Qed.

(** X4.  A 2xx response whose body delivers its chunks and closes, no read
    rejecting and [stop()] not being called during the reads, when
    [onResponse] (if registered) returns normally.  The engine consumes
    every chunk if it was given a token, and only the first chunk if it was
    given [null].  When the text consumed does not start with the
    function-call prefix, the reply is an assistant message without function
    call whose content is that text; the engine publishes the request's list
    and then, per chunk consumed, that list followed by the reply with the
    text received so far; [onFinish], when registered, is called last, with
    the reply; and the engine returns the reply, unless [onFinish] throws:
    then it throws what [onFinish] threw, after all the publications. *)
Theorem plain_text_stream_accumulates
    env opts a cr hs b prev ref onFin onResp extra w res chunks :
  let p := fetch env (requests w) (fetch_request a cr hs b ref extra) in
  let read := consumed ref chunks in
  let m := set_content (stream_text read) (reply env w) in
  let r := getStreamedResponse env a cr (mutate opts) hs b prev ref
                               onFin onResp extra w in
  settled p = inr res ->
  accepted onResp res ->
  ok res = true ->
  res_body res = Some (chunk_reads chunks) ->
  String.prefix function_call_prefix (stream_text read) = false ->
  fst r = match onFin with
          | Some handler =>
              match handler m with
              | inl e => Throw e
              | inr _ => Ret m
              end
          | None => Ret m
          end
  /\ content m = stream_text read
  /\ function_call m = None /\ role m = assistant
  /\ published (trace (snd r))
     = published (trace w)
       ++ cr_messages cr
       :: map (fun t => cr_messages cr ++ [set_content t (reply env w)])
              (running EmptyString read)
  /\ match onFin with
     | Some _ => last (trace (snd r)) = Some (EvOnFinish m)
     | None => True
     end.
Proof.
  intros p read m r Hp Hacc Hok Hbody Hplain. subst r.
  rewrite getStreamedResponse_run. fold p. rewrite Hp. cbv zeta.
  rewrite (accepted_run _ _ Hacc), Hok, Hbody.
  set (wf := stopped (ui_stop p) _).
  set (wr := match onResp with Some _ => stopped _ _ | None => _ end).
  assert (Hrep : reply env wr = reply env w).
  { unfold reply. subst wr wf. destruct onResp; observe; reflexivity. }
  assert (Hwr : published (trace wr) = published (trace w) ++ [cr_messages cr]).
  { subst wr wf. destruct onResp; observe; rewrite ?app_nil_r; reflexivity. }
  clearbody wr.
  rewrite stream_body_plain; [ | exact Hplain ].
  fold read. cbv zeta. rewrite Hrep. fold m. repeat split.
  - destruct (cancelled_fields ref chunks
                (publish (key opts)
                   (map (fun t => cr_messages cr
                                  ++ [set_content t (reply env w)])
                        (running EmptyString read))
                   (count_generated (count_generated wr))))
      as (_ & _ & _ & Hc & _).
    destruct onFin; observe; rewrite ?published_app; cbn [published];
      rewrite ?app_nil_r, Hc; observe;
      rewrite Hwr, <- ?app_assoc; reflexivity.
  - destruct onFin; [ | exact I ]. simpl. apply last_snoc.
Qed.

(** ** How an exchange returns *)

Lemma handle_response_plain opts again cr m :
  plain_reply m -> handle_response opts again cr m = ret tt.
Proof.
  unfold plain_reply, handle_response.
  destruct (function_call m) as [[] |]; try contradiction; reflexivity.
Qed.

(** A turn whose reply carries no structured call ends the loop. *)
Lemma loop_returns env opts fuel cr w fuel' cr' w' m w1 :
  reaches env opts fuel cr w (S fuel') cr' w' ->
  engine_turn env opts cr' w' = (Ret m, w1) ->
  plain_reply m ->
  request_loop env opts fuel cr w = (Ret tt, w1).
Proof.
  intros Hreach Hengine Hplain.
  rewrite (reaches_loop _ _ _ _ _ _ _ _ Hreach), loop_turn, bind_run, Hengine.
  by rewrite handle_response_plain.
Qed.

(** A turn whose handler returns nothing ends the loop. *)
Lemma loop_declined env opts fuel cr w fuel' cr' w' m w1 call handler :
  reaches env opts fuel cr w (S fuel') cr' w' ->
  engine_turn env opts cr' w' = (Ret m, w1) ->
  function_call m = Some call -> structured call ->
  onFunctionCall opts = Some handler ->
  settled (handler (messages w1) call) = inr None ->
  request_loop env opts fuel cr w
  = (Ret tt, stopped (ui_stop (handler (messages w1) call))
               (log (EvOnFunctionCall (messages w1) call) w1)).
Proof.
  intros Hreach Hengine Hcall Hs Hh Hnone.
  rewrite (reaches_loop _ _ _ _ _ _ _ _ Hreach), loop_turn, bind_run, Hengine.
  unfold handle_response. rewrite Hcall, Hh.
  destruct call; try contradiction; mrun; rewrite Hnone; reflexivity.
Qed.

Lemma triggerRequest_returns env opts fuel cr w w2 :
  request_loop env opts fuel cr (entered w) = (Ret tt, w2) ->
  triggerRequest env opts fuel cr w
  = (Ret (RString (last_content (messages w2))),
     log (EvLoading false) (set_isLoading false (set_abortController None w2))).
Proof. intros H. rewrite triggerRequest_run, H. reflexivity. Qed.

Lemma last_running chunks :
  forall s, chunks <> [] ->
            last (running s chunks) = Some (String.append s (stream_text chunks)).
Proof.
  induction chunks as [| value chunks IH]; intros s H; [ done | ].
  destruct chunks as [| value' chunks].
  - simpl. by rewrite append_empty_r.
  - cbn [running]. rewrite last_cons.
    change (running (String.append s value) (value' :: chunks))
      with (String.append (String.append s value) value'
            :: running (String.append (String.append s value) value') chunks).
    change (String.append (String.append s value) value'
            :: running (String.append (String.append s value) value') chunks)
      with (running (String.append s value) (value' :: chunks)).
    rewrite IH; [ | done ]. simpl stream_text. by rewrite append_assoc.
Qed.

Lemma last_map {A B} (f : A -> B) (l : list A) :
  last (map f l) = option_map f (last l).
Proof.
  induction l as [| x l IH]; [ reflexivity | ].
  destruct l as [| y l]; [ reflexivity | ].
  change (last (f x :: map f (y :: l)) = option_map f (last (x :: y :: l))).
  by rewrite !last_cons_cons.
Qed.

(** The engine on a plain-text stream, as a turn of the loop. *)
Lemma engine_plain_run env opts a cr hs b prev ref onFin onResp extra w res chunks :
  settled (fetch env (requests w) (fetch_request a cr hs b ref extra))
  = inr res ->
  accepted onResp res ->
  ok res = true ->
  res_body res = Some (chunk_reads chunks) ->
  let read := consumed ref chunks in
  String.prefix function_call_prefix (stream_text read) = false ->
  let m := set_content (stream_text read) (reply env w) in
  finished onFin m ->
  exists w1,
    getStreamedResponse env a cr (mutate opts) hs b prev ref
                        onFin onResp extra w = (Ret m, w1)
    /\ messages w1 = match read with
                     | [] => cr_messages cr
                     | _ => cr_messages cr ++ [m]
                     end
    /\ requests w1 = S (requests w).
Proof.
  intros Hp Hacc Hok Hbody read Hplain m Hfin.
  rewrite getStreamedResponse_run, Hp. cbv zeta.
  rewrite (accepted_run _ _ Hacc), Hok, Hbody.
  set (wf := stopped _ _).
  set (wr := match onResp with Some _ => stopped _ _ | None => _ end).
  assert (Hrep : reply env wr = reply env w).
  { unfold reply. subst wr wf. destruct onResp; observe; reflexivity. }
  assert (Hm : messages wr = cr_messages cr).
  { subst wr wf. destruct onResp; observe; reflexivity. }
  assert (Hr : requests wr = S (requests w)).
  { subst wr wf. destruct onResp; observe; reflexivity. }
  clearbody wr.
  rewrite stream_body_plain; [ | exact Hplain ].
  fold read. cbv zeta. rewrite Hrep. fold m.
  assert (Hret : match onFin with
                 | Some handler =>
                     match handler m with
                     | inl e => Throw e
                     | inr _ => Ret m
                     end
                 | None => Ret m
                 end = Ret m).
  { destruct onFin as [handler |]; [ | reflexivity ].
    simpl in Hfin. by rewrite Hfin. }
  rewrite Hret. eexists. split; [ reflexivity | ].
  match goal with
  | |- context [cancelled ref chunks ?w0] =>
      destruct (cancelled_fields ref chunks w0) as (Hcm & _ & Hcr & _)
  end.
  split.
  - destruct onFin; observe; rewrite Hcm; observe; rewrite Hm;
      (destruct read as [| value rest]; [ reflexivity | ]);
      rewrite last_map, (last_running (value :: rest) EmptyString); done.
  - destruct onFin; observe; rewrite Hcr; observe; exact Hr.
Qed.

(** X5.  A request of an exchange, in whichever turn of the loop, is
    answered with a 2xx status by a body that delivers its chunks and
    closes, no read rejecting and [stop()] not being called during the
    reads, and [onResponse] and [onFinish] (if registered) return normally.
    The turn consumes every chunk if the token is still held, and only the
    first chunk if [stop()] cleared the token before the turn.  When the
    text consumed does not start with the function-call prefix, the
    exchange resolves to that text and the list ends with the reply; when no
    chunk was consumed, the list is the request's and the exchange resolves
    to the content of its last message.  The request was the only one of
    the turn, the token is cleared, the loading flag is false and the error
    cell is as it was. *)
Theorem plain_text_exchange_resolves_to_the_text
    env opts fuel cr w fuel' cr' w' res chunks :
  reaches env opts fuel cr (entered w) (S fuel') cr' w' ->
  settled (fetch env (requests w') (turn_request opts cr' w')) = inr res ->
  accepted (onResponse opts) res ->
  ok res = true ->
  res_body res = Some (chunk_reads chunks) ->
  let read := consumed (abortController w') chunks in
  String.prefix function_call_prefix (stream_text read) = false ->
  let m := set_content (stream_text read) (reply env w') in
  finished (onFinish opts) m ->
  let r := triggerRequest env opts fuel cr w in
  match read with
  | [] => fst r = Ret (RString (last_content (cr_messages cr')))
          /\ messages (snd r) = cr_messages cr'
  | _ => fst r = Ret (RString (stream_text read))
         /\ messages (snd r) = cr_messages cr' ++ [m]
  end
  /\ requests (snd r) = S (requests w')
  /\ abortController (snd r) = None
  /\ isLoading (snd r) = false
  /\ error (snd r) = error w.
Proof.
  intros Hreach Hp Hacc Hok Hbody read Hplain m Hfin r.
  destruct (engine_plain_run env opts (api opts) cr' (headers opts) (body opts)
              (messages w') (abortController w') (onFinish opts)
              (onResponse opts) (sendExtraMessageFields opts) w' res chunks
              Hp Hacc Hok Hbody Hplain Hfin) as (w1 & Hengine & Hm & Hr).
  change (engine_turn env opts cr' w' = (Ret m, w1)) in Hengine.
  assert (Hloop : request_loop env opts fuel cr (entered w) = (Ret tt, w1)).
  { apply (loop_returns _ _ _ _ _ _ _ _ _ _ Hreach Hengine). exact I. }
  pose proof (loop_keeps_error env opts fuel cr (entered w)) as Herr.
  rewrite Hloop in Herr. simpl in Herr.
  subst r. rewrite (triggerRequest_returns _ _ _ _ _ _ Hloop). simpl.
  rewrite Hm. fold read. split; [ | auto ].
  destruct read as [| value rest]; [ auto | ].
  split; [ | reflexivity ].
  unfold last_content. rewrite last_snoc. reflexivity.
Qed.

(** ** Failures after the status check *)

Lemma engine_empty_body env opts a cr hs b prev ref onFin onResp extra w res :
  settled (fetch env (requests w) (fetch_request a cr hs b ref extra)) = inr res ->
  accepted onResp res ->
  ok res = true ->
  res_body res = None ->
  exists w1,
    getStreamedResponse env a cr (mutate opts) hs b prev ref onFin onResp extra w
    = (Throw (new_Error "The response body is empty."), w1)
    /\ messages w1 = cr_messages cr
    /\ published (trace w1) = published (trace w) ++ [cr_messages cr].
Proof.
  intros Hp Hacc Hok Hbody.
  rewrite getStreamedResponse_run, Hp. cbv zeta.
  rewrite (accepted_run _ _ Hacc), Hok, Hbody.
  eexists. split; [ reflexivity | ].
  destruct onResp; observe; rewrite ?app_nil_r; auto.
Qed.

(** X6.  When a request of an exchange, in whichever turn, is answered
    with a 2xx status but no body, and [onResponse] (if registered) returns
    normally, the engine fails with the error "The response body is empty."
    without rolling back: the request's list stays published.  When
    moreover [onError] (if registered) returns normally, the exchange puts
    that error into the error cell and resolves to [undefined], with the
    loading flag false. *)
Theorem response_without_body_fails_without_rollback
    env opts fuel cr w fuel' cr' w' res :
  reaches env opts fuel cr (entered w) (S fuel') cr' w' ->
  settled (fetch env (requests w') (turn_request opts cr' w')) = inr res ->
  accepted (onResponse opts) res ->
  ok res = true ->
  res_body res = None ->
  reported (onError opts) (new_Error "The response body is empty.") ->
  let r := triggerRequest env opts fuel cr w in
  fst r = Ret RUndefined
  /\ error (snd r) = Some (new_Error "The response body is empty.")
  /\ messages (snd r) = cr_messages cr'
  /\ isLoading (snd r) = false.
Proof.
  intros Hreach Hp Hacc Hok Hbody Hrep r.
  destruct (engine_empty_body env opts (api opts) cr' (headers opts)
              (body opts) (messages w') (abortController w') (onFinish opts)
              (onResponse opts) (sendExtraMessageFields opts) w' res
              Hp Hacc Hok Hbody) as (w1 & Hengine & Hm & _).
  change (engine_turn env opts cr' w' = (Throw (new_Error "The response body is empty."), w1))
    in Hengine.
  pose proof (loop_throws _ _ _ _ _ _ _ _ _ _ Hreach Hengine) as Hloop.
  destruct (triggerRequest_failure env opts fuel cr w _ _ Hloop eq_refl Hrep)
    as (H1 & H2 & H3 & _ & H5).
  subst r. repeat split; auto. congruence.
Qed.

Lemma parse_error text e : Json.parse text = inl e -> e = Json.SyntaxError.
Proof.
  unfold Json.parse.
  destruct (Json.value _ _) as [[v rest] |]; [ | congruence ].
  destruct (Json.skip_ws rest); congruence.
Qed.

Lemma after_chunks_snoc chunks value acc :
  after_chunks (chunks ++ [value]) acc = absorb (after_chunks chunks acc) value.
Proof. unfold after_chunks. by rewrite fold_left_app. Qed.

(** While the accumulated text starts with the prefix, the reply in
    progress holds it as its raw function call. *)
Lemma after_chunks_raw_call chunks acc :
  chunks <> [] ->
  String.prefix function_call_prefix (fst (after_chunks chunks acc)) = true ->
  function_call (snd (after_chunks chunks acc))
  = Some (JString (fst (after_chunks chunks acc))).
Proof.
  destruct chunks as [| value chunks _] using rev_ind; [ done | ].
  intros _. rewrite after_chunks_snoc.
  destruct (after_chunks chunks acc) as [s rm]. unfold absorb. cbn [fst snd].
  by intros ->.
Qed.

Lemma partials_last chunks :
  forall acc, chunks <> [] ->
              last (partials chunks acc) = Some (snd (after_chunks chunks acc)).
Proof.
  induction chunks as [| value chunks IH]; intros acc H; [ done | ].
  destruct chunks as [| value' chunks]; [ reflexivity | ].
  rewrite after_chunks_cons.
  change (partials (value :: value' :: chunks) acc)
    with (snd (absorb acc value)
          :: partials (value' :: chunks) (absorb acc value)).
  rewrite last_cons, IH; done.
Qed.

Lemma stream_text_empty chunks :
  String.prefix function_call_prefix (stream_text chunks) = true -> chunks <> [].
Proof. intros H ->. discriminate H. Qed.

(** The engine on a stream whose function-call text does not parse. *)
Lemma engine_malformed_call env opts a cr hs b prev ref onFin onResp extra w res chunks e :
  settled (fetch env (requests w) (fetch_request a cr hs b ref extra))
  = inr res ->
  accepted onResp res ->
  ok res = true ->
  res_body res = Some (chunk_reads chunks) ->
  let read := consumed ref chunks in
  String.prefix function_call_prefix (stream_text read) = true ->
  Json.parse (stream_text read) = inl e ->
  exists w1 m,
    getStreamedResponse env a cr (mutate opts) hs b prev ref
                        onFin onResp extra w = (Throw e, w1)
    /\ messages w1 = cr_messages cr ++ [m]
    /\ function_call m = Some (JString (stream_text read))
    /\ role m = assistant.
Proof.
  intros Hp Hacc Hok Hbody read Hpre Hparse.
  rewrite getStreamedResponse_run, Hp. cbv zeta.
  rewrite (accepted_run _ _ Hacc), Hok, Hbody.
  set (wr := match onResp with Some _ => stopped _ _ | None => _ end).
  clearbody wr. rewrite stream_body_read. fold read.
  set (acc0 := (EmptyString, reply env wr)).
  assert (Htext : fst (after_chunks read acc0) = stream_text read).
  { rewrite after_chunks_text. reflexivity. }
  pose proof (stream_text_empty _ Hpre) as Hne.
  unfold finish_stream. rewrite Htext, Hpre. mrun. rewrite Hparse.
  cbn [settle]. cbv beta iota.
  eexists _, (snd (after_chunks read acc0)). split; [ reflexivity | ].
  split; [ | split ].
  - match goal with
    | |- context [cancelled ref chunks ?w0] =>
        destruct (cancelled_fields ref chunks w0) as (-> & _)
    end.
    observe. unfold chunk_publications.
    by rewrite last_map, (partials_last read acc0 Hne).
  - rewrite <- Htext. apply after_chunks_raw_call; auto. by rewrite Htext.
  - by destruct (after_chunks_id read acc0) as [_ ->].
Qed.

(** X7.  A request of an exchange, in whichever turn of the loop, is
    answered with a 2xx status by a body that delivers its chunks and
    closes, no read rejecting and [stop()] not being called during the
    reads, and [onResponse] (if registered) returns normally.  The turn
    consumes every chunk if the token is still held, and only the first if
    [stop()] cleared the token before the turn.  When the text consumed
    starts with the function-call prefix but is not JSON, [JSON.parse]
    throws a [SyntaxError]; when [onError] (if registered) returns normally,
    the exchange puts that error into the error cell and resolves to
    [undefined], and the reply stays in the list with the raw text as its
    [function_call]. *)
Theorem malformed_function_call_is_reported
    env opts fuel cr w fuel' cr' w' res chunks e :
  reaches env opts fuel cr (entered w) (S fuel') cr' w' ->
  settled (fetch env (requests w') (turn_request opts cr' w')) = inr res ->
  accepted (onResponse opts) res ->
  ok res = true ->
  res_body res = Some (chunk_reads chunks) ->
  let read := consumed (abortController w') chunks in
  String.prefix function_call_prefix (stream_text read) = true ->
  Json.parse (stream_text read) = inl e ->
  reported (onError opts) e ->
  let r := triggerRequest env opts fuel cr w in
  fst r = Ret RUndefined
  /\ error (snd r) = Some e
  /\ err_name e = "SyntaxError"
  /\ exists m,
      messages (snd r) = cr_messages cr' ++ [m]
      /\ function_call m = Some (JString (stream_text read))
      /\ role m = assistant.
Proof.
  intros Hreach Hp Hacc Hok Hbody read Hpre Hparse Hrep r.
  destruct (engine_malformed_call env opts (api opts) cr' (headers opts)
              (body opts) (messages w') (abortController w') (onFinish opts)
              (onResponse opts) (sendExtraMessageFields opts) w' res chunks e
              Hp Hacc Hok Hbody Hpre Hparse)
    as (w1 & m & Hengine & Hm & Hfc & Hrole).
  change (engine_turn env opts cr' w' = (Throw e, w1)) in Hengine.
  pose proof (loop_throws _ _ _ _ _ _ _ _ _ _ Hreach Hengine) as Hloop.
  pose proof (parse_error _ _ Hparse) as He.
  assert (Hname : String.eqb (err_name e) "AbortError" = false) by by subst e.
  destruct (triggerRequest_failure env opts fuel cr w _ _ Hloop Hname Hrep)
    as (H1 & H2 & H3 & _ & _).
  subst r. repeat split; auto; [ by subst e | ].
  exists m. rewrite H3. auto.
Qed.

Lemma engine_network_failure env opts a cr hs b prev ref onFin onResp extra w e :
  settled (fetch env (requests w) (fetch_request a cr hs b ref extra)) = inl e ->
  exists w1,
    getStreamedResponse env a cr (mutate opts) hs b prev ref onFin onResp extra w
    = (Throw e, w1)
    /\ messages w1 = prev /\ store w1 !! key opts = Some prev.
Proof.
  intros Hp. rewrite getStreamedResponse_run, Hp.
  eexists. split; [ reflexivity | ]. observe. auto.
Qed.

(** X8.  When the fetch of a request of an exchange rejects, in whichever
    turn, the cell and the store slot hold the pre-request list again and
    the loading flag is false.  A rejection named [AbortError] makes the
    exchange resolve to [null] and leaves the error cell alone; any other
    rejection, once [onError] has returned, is put into the error cell and
    the exchange resolves to [undefined]. *)
Theorem fetch_rejection_rolls_back env opts fuel cr w fuel' cr' w' e :
  reaches env opts fuel cr (entered w) (S fuel') cr' w' ->
  settled (fetch env (requests w') (turn_request opts cr' w')) = inl e ->
  err_name e = "AbortError" \/ reported (onError opts) e ->
  let r := triggerRequest env opts fuel cr w in
  messages (snd r) = messages w'
  /\ store (snd r) !! key opts = Some (messages w')
  /\ isLoading (snd r) = false
  /\ if String.eqb (err_name e) "AbortError"
     then fst r = Ret RNull /\ error (snd r) = error w
     else fst r = Ret RUndefined /\ error (snd r) = Some e.
Proof.
  intros Hreach Hp Hrep r.
  destruct (engine_network_failure env opts (api opts) cr' (headers opts)
              (body opts) (messages w') (abortController w') (onFinish opts)
              (onResponse opts) (sendExtraMessageFields opts) w' e Hp)
    as (w1 & Hengine & Hm & Hs).
  change (engine_turn env opts cr' w' = (Throw e, w1)) in Hengine.
  pose proof (loop_throws _ _ _ _ _ _ _ _ _ _ Hreach Hengine) as Hloop.
  pose proof (loop_keeps_error env opts fuel cr (entered w)) as Herr.
  rewrite Hloop in Herr. simpl in Herr.
  destruct (String.eqb (err_name e) "AbortError") eqn:Hname.
  - apply String.eqb_eq in Hname. subst r.
    rewrite (triggerRequest_abort _ _ _ _ _ _ _ Hloop Hname). simpl. auto.
  - destruct Hrep as [Habs | Hrep].
    { apply String.eqb_neq in Hname. contradiction. }
    destruct (triggerRequest_failure env opts fuel cr w e w1 Hloop Hname Hrep)
      as (H1 & H2 & H3 & H4 & H5).
    subst r. rewrite H3, H4. auto.
Qed.

(** X9.  An exchange ends with the first turn whose reply carries no
    structured call, or whose structured call the handler answers with
    nothing: it resolves to the content of the last message of the list as
    that turn left it, publishes nothing more, sends no further request and
    clears the token.  For a reply without a structured call the handler is
    not consulted: the only event left is the reset of the loading flag. *)
Theorem exchange_ends_when_no_request_follows
    env opts fuel cr w fuel' cr' w' m w1 :
  reaches env opts fuel cr (entered w) (S fuel') cr' w' ->
  engine_turn env opts cr' w' = (Ret m, w1) ->
  plain_reply m \/ declined opts m w1 ->
  let r := triggerRequest env opts fuel cr w in
  fst r = Ret (RString (last_content (messages w1)))
  /\ fetched (trace (snd r)) = fetched (trace w1)
  /\ published (trace (snd r)) = published (trace w1)
  /\ messages (snd r) = messages w1
  /\ abortController (snd r) = None
  /\ match function_call m with
     | None | Some (JString _) => trace (snd r) = trace w1 ++ [EvLoading false]
     | Some _ => True
     end.
Proof.
  intros Hreach Hengine Hends r.
  assert (Hplain : plain_reply m ->
            fst r = Ret (RString (last_content (messages w1)))
            /\ trace (snd r) = trace w1 ++ [EvLoading false]
            /\ messages (snd r) = messages w1
            /\ abortController (snd r) = None).
  { intros Hplain.
    pose proof (loop_returns _ _ _ _ _ _ _ _ _ _ Hreach Hengine Hplain) as Hloop.
    subst r. rewrite (triggerRequest_returns _ _ _ _ _ _ Hloop). simpl. auto. }
  destruct Hends as [Hp | (call & handler & Hcall & Hs & Hh & Hnone)].
  - destruct (Hplain Hp) as (H1 & H2 & H3 & H4).
    rewrite H2, fetched_app, published_app. simpl. rewrite !app_nil_r.
    repeat split; auto.
    unfold plain_reply in Hp. by destruct (function_call m) as [[] |].
  - pose proof (loop_declined _ _ _ _ _ _ _ _ _ _ _ _ Hreach Hengine Hcall Hs
                  Hh Hnone) as Hloop.
    subst r. rewrite (triggerRequest_returns _ _ _ _ _ _ Hloop).
    cbn [fst snd]. observe. rewrite ?fetched_app, ?published_app. observe.
    rewrite ?app_nil_r. rewrite Hcall.
    repeat split; auto. by destruct call.
Qed.

(** X10.  [triggerRequest] writes the error cell only when it resolves to
    [undefined], that is after a failure other than an abort; in every other
    outcome, a successful exchange included, the cell keeps the error of an
    earlier exchange: nothing ever clears it. *)
Theorem error_cell_is_written_only_on_failure env opts fuel cr w :
  let r := triggerRequest env opts fuel cr w in
  match fst r with
  | Ret RUndefined => exists err, error (snd r) = Some err
  | _ => error (snd r) = error w
  end.
Proof.
  intros r. subst r. rewrite triggerRequest_run.
  pose proof (loop_keeps_error env opts fuel cr (entered w)) as Herr.
  destruct (request_loop env opts fuel cr (entered w)) as [[[] | err |] w2];
    simpl in Herr; simpl; auto.
  destruct (String.eqb (err_name err) "AbortError"); simpl; auto.
  destruct (onError opts) as [handler |]; [ destruct (err_is_Error err) | ];
    simpl; eauto.
  mrun. destruct (handler err) as [e' | []]; simpl; eauto.
Qed.

(** ** What the loop never touches *)

Section Frame.

Variable opts : UseChatOptions.
Variable R : World -> World -> Prop.
Hypothesis R_refl : forall w, R w w.
Hypothesis R_trans : forall a b c, R a b -> R b c -> R a c.
Hypothesis R_publish : forall data w, R w (publish (key opts) [data] w).
Hypothesis R_log : forall ev w, aborts [ev] = [] -> R w (log ev w).
Hypothesis R_stop : forall w, R w (snd (stop w)).
Hypothesis R_count_request : forall w, R w (count_request w).
Hypothesis R_count_generated : forall w, R w (count_generated w).

Lemma frames_ret {A} (a : A) : frames R (ret a).
Proof. intros w. apply R_refl. Qed.

Lemma frames_throw {A} e : frames R (@throw A e).
Proof. intros w. apply R_refl. Qed.

Lemma frames_call {A} (r : JsError + A) : frames R (call r).
Proof. intros w. destruct r; apply R_refl. Qed.

Lemma frames_bind {A B} (m : M A) (f : A -> M B) :
  frames R m -> (forall a, frames R (f a)) -> frames R (bind m f).
Proof.
  intros Hm Hf w. unfold bind. specialize (Hm w).
  destruct (m w) as [[a | e |] w1]; simpl in *; auto.
  eapply R_trans; [ exact Hm | apply Hf ].
Qed.

Lemma frames_try_catch {A} (m : M A) (h : JsError -> M A) :
  frames R m -> (forall e, frames R (h e)) -> frames R (try_catch m h).
Proof.
  intros Hm Hh w. unfold try_catch. specialize (Hm w).
  destruct (m w) as [[a | e |] w1]; simpl in *; auto.
  eapply R_trans; [ exact Hm | apply Hh ].
Qed.

Lemma frames_emit ev : aborts [ev] = [] -> frames R (emit ev).
Proof. intros H w. by apply R_log. Qed.

Lemma frames_mutate data : frames R (mutate opts data).
Proof. intros w. apply R_publish. Qed.

Lemma frames_await {A} (p : Awaited A) : frames R (await p).
Proof.
  unfold await. apply frames_bind.
  - destruct (ui_stop p); [ exact R_stop | apply frames_ret ].
  - intros _. apply frames_call.
Qed.

Lemma frames_generate env {A} (gen : Env -> nat -> A) : frames R (generate env gen).
Proof. intros w. apply R_count_generated. Qed.

Lemma frames_read_loop cr ref reads :
  forall s rm, frames R (read_loop (mutate opts) cr ref reads s rm).
Proof.
  induction reads as [| r rest IH]; intros s rm; simpl.
  - apply frames_ret.
  - apply frames_bind; [ apply frames_await | ].
    intros [value |]; [ | apply frames_ret ].
    apply frames_bind; [ apply frames_mutate | intros _ ].
    destruct ref; [ apply IH | ].
    apply frames_bind; [ by apply frames_emit | intros _; apply frames_ret ].
Qed.

Lemma frames_getStreamedResponse env a cr hs b prev ref onFin onResp extra :
  frames R (getStreamedResponse env a cr (mutate opts) hs b prev ref
                                onFin onResp extra).
Proof.
  unfold getStreamedResponse.
  apply frames_bind; [ apply frames_mutate | intros _ ].
  apply frames_bind.
  { apply frames_try_catch.
    - unfold do_fetch. apply frames_bind; [ intros w; apply R_refl | intros n ].
      apply frames_bind; [ exact R_count_request | intros _ ].
      apply frames_bind; [ by apply frames_emit | intros _ ].
      apply frames_await.
    - intros e. apply frames_bind; [ apply frames_mutate | ].
      intros _. apply frames_throw. }
  intros res. apply frames_bind.
  { destruct onResp as [handler |]; [ | apply frames_ret ].
    apply frames_bind; [ by apply frames_emit | intros _; apply frames_await ]. }
  intros _. destruct (negb (ok res)).
  - apply frames_bind; [ apply frames_mutate | intros _ ].
    apply frames_bind; [ apply frames_await | intros t; apply frames_throw ].
  - destruct (res_body res) as [reads |]; [ | apply frames_throw ].
    unfold stream_body.
    apply frames_bind; [ apply frames_generate | intros createdAt ].
    apply frames_bind; [ apply frames_generate | intros replyId ].
    apply frames_bind; [ apply frames_read_loop | intros sr ].
    unfold finish_stream. apply frames_bind.
    { destruct (String.prefix _ _); [ | apply frames_ret ].
      apply frames_bind; [ apply frames_call | intros parsed ].
      apply frames_bind; [ apply frames_call | intros fc ].
      apply frames_bind; [ apply frames_mutate | intros _; apply frames_ret ]. }
    intros rm. apply frames_bind; [ | intros _; apply frames_ret ].
    destruct onFin as [handler |]; [ | apply frames_ret ].
    apply frames_bind; [ by apply frames_emit | intros _; apply frames_call ].
Qed.

Lemma frames_request_loop env fuel :
  forall cr, frames R (request_loop env opts fuel cr).
Proof.
  induction fuel as [| fuel IH]; intros cr.
  - intros w. apply R_refl.
  - rewrite request_loop_S.
    apply frames_bind; [ intros w; apply R_refl | intros prev ].
    apply frames_bind; [ intros w; apply R_refl | intros ref ].
    apply frames_bind; [ apply frames_getStreamedResponse | intros m ].
    unfold handle_response.
    destruct (function_call m) as [fc |]; [ | apply frames_ret ].
    assert (Hgo : frames R
              match onFunctionCall opts with
              | Some handler =>
                  bind (gets messages) (fun current =>
                  bind (emit (EvOnFunctionCall current fc)) (fun _ =>
                  bind (await (handler current fc)) (fun r =>
                  match r with
                  | Some next => request_loop env opts fuel next
                  | None => ret tt
                  end)))
              | None => request_loop env opts fuel cr
              end).
    { destruct (onFunctionCall opts) as [handler |]; [ | apply IH ].
      apply frames_bind; [ intros w; apply R_refl | intros current ].
      apply frames_bind; [ by apply frames_emit | intros _ ].
      apply frames_bind; [ apply frames_await | ].
      intros [next |]; [ apply IH | apply frames_ret ]. }
    destruct fc; try exact Hgo. apply frames_ret.
Qed.

End Frame.

Lemma aborts_app evs1 evs2 : aborts (evs1 ++ evs2) = aborts evs1 ++ aborts evs2.
Proof.
  induction evs1 as [| ev evs1 IH]; simpl; auto.
  destruct ev; simpl; congruence.
Qed.

Lemma token_follows_stop_refl w : token_follows_stop w w.
Proof. split; auto. exists []. by rewrite app_nil_r. Qed.

Lemma token_follows_stop_trans a b c :
  token_follows_stop a b -> token_follows_stop b c -> token_follows_stop a c.
Proof.
  intros (C1 & t1 & T1 & A1) (C2 & t2 & T2 & A2).
  split; [ congruence | ].
  exists (t1 ++ t2). split; [ by rewrite T2, T1, app_assoc | ].
  rewrite aborts_app, A2, A1.
  destruct (aborts t2); [ by rewrite app_nil_r | ].
  by destruct (aborts t1).
Qed.

Lemma token_follows_stop_quiet w w' evs :
  controllers w' = controllers w ->
  abortController w' = abortController w ->
  trace w' = trace w ++ evs -> aborts evs = [] ->
  token_follows_stop w w'.
Proof.
  intros Hc Ha Ht He. split; auto. exists evs. by rewrite He.
Qed.

Lemma loop_token env opts fuel cr w :
  token_follows_stop w (snd (request_loop env opts fuel cr w)).
Proof.
  apply (frames_request_loop opts token_follows_stop token_follows_stop_refl
           token_follows_stop_trans).
  - intros data w0. by apply token_follows_stop_quiet with (evs := [EvMutate data]).
  - intros ev w0 H. by apply token_follows_stop_quiet with (evs := [ev]).
  - intros w0. munfold. simpl. destruct (abortController w0) as [c |] eqn:E; simpl.
    + split; auto. exists [EvAbort c]. auto.
    + apply token_follows_stop_refl.
  - intros w0. apply token_follows_stop_quiet with (evs := []); auto.
    simpl. by rewrite app_nil_r.
  - intros w0. apply token_follows_stop_quiet with (evs := []); auto.
    simpl. by rewrite app_nil_r.
Qed.

(** X11.  [triggerRequest] creates one token.  It clears it when the
    exchange resolves to a string or to [null]; when the exchange fails
    otherwise, or is still running, the orchestrator still holds that token
    unless [stop()] was called meanwhile. *)
Theorem token_is_cleared_on_success_and_abort_only env opts fuel cr w :
  let r := triggerRequest env opts fuel cr w in
  controllers (snd r) = S (controllers w)
  /\ exists evs,
      trace (snd r) = trace w ++ evs
      /\ match fst r with
         | Ret (RString _) | Ret RNull => abortController (snd r) = None
         | _ =>
             abortController (snd r)
             = match aborts evs with
               | [] => Some (controllers w)
               | _ => None
               end
         end.
Proof.
  intros r. subst r. rewrite triggerRequest_run.
  destruct (loop_token env opts fuel cr (entered w)) as (Hc & evs & Ht & Ha).
  destruct (request_loop env opts fuel cr (entered w)) as [[[] | err |] w2];
    simpl in Hc, Ht, Ha.
  - simpl. split; auto. exists (EvLoading true :: evs ++ [EvLoading false]).
    rewrite Ht, <- !app_assoc. auto.
  - destruct (String.eqb (err_name err) "AbortError").
    { simpl. split; auto. exists (EvLoading true :: evs ++ [EvLoading false]).
      rewrite Ht, <- !app_assoc. auto. }
    assert (Hab : forall tail, aborts tail = [] ->
                  aborts (EvLoading true :: evs ++ tail) = aborts evs).
    { intros tail H. simpl. by rewrite aborts_app, H, app_nil_r. }
    destruct (onError opts) as [handler |]; [ destruct (err_is_Error err) | ].
    + mrun. destruct (handler err) as [e' | []]; simpl; (split; [ auto | ]).
      * exists (EvLoading true :: evs ++ [EvOnError err; EvLoading false]).
        rewrite Hab, Ht, <- !app_assoc; auto.
      * exists (EvLoading true :: evs ++ [EvOnError err; EvError err; EvLoading false]).
        rewrite Hab, Ht, <- !app_assoc; auto.
    + simpl. split; auto.
      exists (EvLoading true :: evs ++ [EvError err; EvLoading false]).
      rewrite Hab, Ht, <- !app_assoc; auto.
    + simpl. split; auto.
      exists (EvLoading true :: evs ++ [EvError err; EvLoading false]).
      rewrite Hab, Ht, <- !app_assoc; auto.
  - simpl. split; auto. exists (EvLoading true :: evs).
    rewrite Ht, <- !app_assoc. auto.
Qed.

(** ** Sessions *)

Lemma append_inj_l p s t : String.append p s = String.append p t -> s = t.
Proof. induction p as [| c p IH]; simpl; intros H; [ done | ]. injection H. auto. Qed.

Lemma generated_ids_differ given given' n n' :
  no_id given = true -> no_id given' = true -> n <> n' ->
  fst (chat_id given n) <> fst (chat_id given' n').
Proof.
  intros H H' Hn. unfold chat_id. rewrite H, H'. simpl. intros E.
  apply append_inj_l in E. by apply (inj pretty) in E.
Qed.

Lemma loop_keeps_other_slots env opts fuel cr w k :
  k <> key opts ->
  store (snd (request_loop env opts fuel cr w)) !! k = store w !! k.
Proof.
  intros Hk.
  apply (frames_request_loop opts (fun w w' => store w' !! k = store w !! k));
    try done.
  - intros a b c H1 H2. congruence.
  - intros data w0. simpl. by rewrite lookup_insert_ne.
  - intros w0. munfold. simpl. by destruct (abortController w0).
Qed.

Lemma triggerRequest_keeps_other_slots env opts fuel cr w k :
  k <> key opts ->
  store (snd (triggerRequest env opts fuel cr w)) !! k = store w !! k.
Proof.
  intros Hk. rewrite triggerRequest_run.
  pose proof (loop_keeps_other_slots env opts fuel cr (entered w) k Hk) as H.
  destruct (request_loop env opts fuel cr (entered w)) as [[[] | err |] w2];
    simpl in H; auto.
  destruct (String.eqb (err_name err) "AbortError"); auto.
  destruct (onError opts) as [handler |]; [ destruct (err_is_Error err) | ];
    auto.
  mrun. destruct (handler err) as [e' | []]; auto.
Qed.

(** X12.  Two sessions of the same endpoint that were created without an
    [id] (or with an empty one), at different values of the module's
    counter, have different keys, and an exchange of one of them never
    writes the store slot of the other. *)
Theorem sessions_with_generated_ids_do_not_share_a_slot
    env opts opts' given given' n n' fuel cr w :
  no_id given = true -> no_id given' = true ->
  chatId opts = fst (chat_id given n) ->
  chatId opts' = fst (chat_id given' n') ->
  api opts' = api opts ->
  n <> n' ->
  key opts' <> key opts
  /\ store (snd (triggerRequest env opts fuel cr w)) !! key opts'
     = store w !! key opts'.
Proof.
  intros Hg Hg' Hid Hid' Hapi Hn.
  assert (Hk : key opts' <> key opts).
  { unfold key. rewrite Hapi, Hid, Hid'. intros E.
    do 2 apply append_inj_l in E.
    by apply (generated_ids_differ given' given n' n) in E. }
  split; [ exact Hk | by apply triggerRequest_keeps_other_slots ].
Qed.

(** ** The form handler and [reload] after an exchange *)

(** X13.  [handleSubmit] always prevents the default action of the event.
    On an empty input it does nothing else: the input and the whole state
    of the hook stay as they are, so no request is sent.  On any other
    input it clears the input, and the exchange it starts publishes and
    posts the history followed by one new user message, whose content is
    the input, whose date was taken first and whose id is generated. *)
Theorem handleSubmit_sends_the_input_once env opts fuel inputValue options w :
  let r := handleSubmit env opts (S fuel) inputValue options w in
  default_prevented r = true
  /\ if is_empty inputValue
     then input_value r = inputValue /\ hook_state r = w
     else
       let message :=
         {| id := nanoid env (S (generated w));
            createdAt := Some (new_Date env (generated w));
            content := inputValue; role := user;
            name := None; function_call := None |} in
       let chatRequest :=
         {| cr_messages := messages w ++ [message];
            cr_options := cro_options options;
            cr_functions := cro_functions options;
            cr_function_call := cro_function_call options |} in
       input_value r = EmptyString
       /\ exists evs,
           trace (hook_state r)
           = trace w
             ++ EvLoading true
             :: EvMutate (messages w ++ [message])
             :: EvFetch (fetch_request (api opts) chatRequest (headers opts)
                           (body opts) (Some (controllers w))
                           (sendExtraMessageFields opts))
             :: evs.
Proof.
  intros r. subst r. unfold handleSubmit.
  destruct (is_empty inputValue) eqn:E; simpl; [ auto | ].
  split; [ reflexivity | ]. split; [ reflexivity | ].
  unfold append. cbn [cm_id no_id]. unfold generate. mrun.
  cbn [default no_options].
  match goal with
  | |- context [triggerRequest env opts (S fuel) ?cr ?w0] =>
      destruct (triggerRequest_starts env opts fuel cr w0) as (evs & H)
  end.
  exists evs. exact H.
Qed.

Lemma request_of_options cr :
  {| cr_messages := cr_messages cr;
     cr_options := cro_options (options_of cr);
     cr_functions := cro_functions (options_of cr);
     cr_function_call := cro_function_call (options_of cr) |} = cr.
Proof. by destruct cr. Qed.

Lemma reload_after_reply env opts fuel cr m w :
  messages w = cr_messages cr ++ [m] -> role m = assistant ->
  reload env opts fuel (options_of cr) w = triggerRequest env opts fuel cr w.
Proof.
  intros Hm Hrole. unfold reload. mrun. rewrite Hm, length_app, last_snoc.
  rewrite Hrole. cbn [Role_eqb]. rewrite slice_0_minus1_snoc.
  rewrite request_of_options. cbn [length].
  destruct (length (cr_messages cr) + 1 =? 0) eqn:E; [ | reflexivity ].
  apply Nat.eqb_eq in E. lia.
Qed.

(** X14.  The last request of an exchange is answered with a 2xx status
    by a body that delivers at least one chunk and closes, no read rejecting
    and [stop()] not being called during the reads; [onResponse] and
    [onFinish] (if registered) return normally; and the text consumed (every
    chunk if the token is still held, the first chunk otherwise) does not
    start with the function-call prefix.  Then, once the exchange has
    settled, [reload] with the options of that request drops the reply and
    runs the same request again: it publishes and posts the history as it
    was sent before. *)
Theorem reload_after_an_exchange_repeats_its_request
    env opts fuel cr w fuel' cr' w' res chunks fuel2 :
  reaches env opts fuel cr (entered w) (S fuel') cr' w' ->
  settled (fetch env (requests w') (turn_request opts cr' w')) = inr res ->
  accepted (onResponse opts) res ->
  ok res = true ->
  res_body res = Some (chunk_reads chunks) ->
  chunks <> [] ->
  let read := consumed (abortController w') chunks in
  String.prefix function_call_prefix (stream_text read) = false ->
  finished (onFinish opts) (set_content (stream_text read) (reply env w')) ->
  let after := snd (triggerRequest env opts fuel cr w) in
  reload env opts (S fuel2) (options_of cr') after
  = triggerRequest env opts (S fuel2) cr' after
  /\ exists evs,
      trace (snd (reload env opts (S fuel2) (options_of cr') after))
      = trace after
        ++ EvLoading true
        :: EvMutate (cr_messages cr')
        :: EvFetch (fetch_request (api opts) cr' (headers opts) (body opts)
                      (Some (controllers after)) (sendExtraMessageFields opts))
        :: evs.
Proof.
  intros Hreach Hp Hacc Hok Hbody Hne read Hplain Hfin after.
  destruct (engine_plain_run env opts (api opts) cr' (headers opts) (body opts)
              (messages w') (abortController w') (onFinish opts)
              (onResponse opts) (sendExtraMessageFields opts) w' res chunks
              Hp Hacc Hok Hbody Hplain Hfin) as (w1 & Hengine & Hm & _).
  change (engine_turn env opts cr' w'
          = (Ret (set_content (stream_text read) (reply env w')), w1))
    in Hengine.
  assert (Hloop : request_loop env opts fuel cr (entered w) = (Ret tt, w1)).
  { apply (loop_returns _ _ _ _ _ _ _ _ _ _ Hreach Hengine). exact I. }
  assert (Hafter : messages after
                   = cr_messages cr'
                     ++ [set_content (stream_text read) (reply env w')]).
  { subst after. rewrite (triggerRequest_returns _ _ _ _ _ _ Hloop). simpl.
    rewrite Hm. fold read.
    pose proof (consumed_nonempty (abortController w') chunks Hne) as Hr.
    fold read in Hr. by destruct read. }
  assert (Hre : reload env opts (S fuel2) (options_of cr') after
                = triggerRequest env opts (S fuel2) cr' after).
  { by apply (reload_after_reply _ _ _ _ _ _ Hafter). }
  split; [ exact Hre | ]. rewrite Hre. apply triggerRequest_starts.
Qed.

(** ** The further properties on concrete runs *)

Lemma request_ignores_ids_witness :
  Forall2 same_core [with_id "m1" hi] [hi_again]
  /\ fetch_request "/api/chat" (mkChatRequest [with_id "m1" hi] None None None)
                   [] [] (Some 0) false
     = fetch_request "/api/chat" (mkChatRequest [hi_again] None None None)
                     [] [] (Some 0) false.
Proof.
  assert (H : Forall2 same_core [with_id "m1" hi] [hi_again]).
  { constructor; [ | constructor ]. repeat split. }
  split; [ exact H | ].
  exact (request_ignores_ids_and_dates "/api/chat" [with_id "m1" hi] [hi_again]
           None None None [] [] (Some 0) H).
Defined.

Lemma plain_text_stream_witness :
  let env := serving hello_stream in
  let call ref onFin :=
    getStreamedResponse env (api default_options) say_hi
      (mutate default_options) [] [] [] ref onFin
      (Some (fun _ => resolves tt)) false start in
  let said t := set_content t (reply env start) in
  settled (fetch env (requests start)
             (fetch_request (api default_options) say_hi [] [] (Some 0) false))
  = inr hello_stream
  /\ ok hello_stream = true
  /\ res_body hello_stream = Some (chunk_reads hello)
  /\ String.prefix function_call_prefix (stream_text hello) = false
  /\ (fst (call (Some 0) (Some (fun _ => inr tt))) = Ret (said "Hello")
      /\ published (trace (snd (call (Some 0) (Some (fun _ => inr tt)))))
         = [ [with_id "m1" hi];
             [with_id "m1" hi; said "Hel"];
             [with_id "m1" hi; said "Hello"] ]
      /\ last (trace (snd (call (Some 0) (Some (fun _ => inr tt)))))
         = Some (EvOnFinish (said "Hello")))
  /\ (fst (call (Some 0) (Some failing_onFinish)) = Throw boom
      /\ published (trace (snd (call (Some 0) (Some failing_onFinish))))
         = [ [with_id "m1" hi];
             [with_id "m1" hi; said "Hel"];
             [with_id "m1" hi; said "Hello"] ])
  /\ (fst (call None None) = Ret (said "Hel")
      /\ published (trace (snd (call None None)))
         = [ [with_id "m1" hi]; [with_id "m1" hi; said "Hel"] ]).
Proof.
  intros env call said.
  destruct (plain_text_stream_accumulates env default_options
              (api default_options) say_hi [] [] [] (Some 0)
              (Some (fun _ => inr tt)) (Some (fun _ => resolves tt)) false
              start hello_stream hello eq_refl eq_refl eq_refl eq_refl eq_refl)
    as (A1 & _ & _ & _ & A2 & A3).
  destruct (plain_text_stream_accumulates env default_options
              (api default_options) say_hi [] [] [] (Some 0)
              (Some failing_onFinish) (Some (fun _ => resolves tt)) false
              start hello_stream hello eq_refl eq_refl eq_refl eq_refl eq_refl)
    as (B1 & _ & _ & _ & B2 & _).
  destruct (plain_text_stream_accumulates env default_options
              (api default_options) say_hi [] [] [] None
              None (Some (fun _ => resolves tt)) false
              start hello_stream hello eq_refl eq_refl eq_refl eq_refl eq_refl)
    as (C1 & _ & _ & _ & C2 & _).
  repeat split;
    first [ exact A1 | exact A2 | exact A3 | exact B1 | exact B2
          | exact C1 | exact C2 | reflexivity ].
Defined.

Lemma plain_text_exchange_witness :
  let env := calls_then_answers in
  let opts := stopped_in_handler in
  let w0 := snd (engine_turn env opts say_hi (entered start)) in
  let w1 := stopped true
              (log (EvOnFunctionCall (messages w0) structured_call_f) w0) in
  let r := triggerRequest env opts 2 say_hi start in
  let r0 := triggerRequest (serving hello_stream) observing_options 1 say_hi
                           start in
  (reaches (serving hello_stream) observing_options 1 say_hi (entered start)
           1 say_hi (entered start)
   /\ abortController (entered start) = Some 0
   /\ fst r0 = Ret (RString "Hello")
   /\ messages (snd r0)
      = [with_id "m1" hi;
         set_content "Hello" (reply (serving hello_stream) (entered start))]
   /\ abortController (snd r0) = None
   /\ isLoading (snd r0) = false)
  /\ (reaches env opts 2 say_hi (entered start) 1 say_hi w1
      /\ abortController w1 = None
      /\ settled (fetch env (requests w1) (turn_request opts say_hi w1))
         = inr hello_stream
      /\ fst r = Ret (RString "Hel")
      /\ messages (snd r)
         = [with_id "m1" hi; set_content "Hel" (reply env w1)]
      /\ requests (snd r) = 2).
Proof.
  intros env opts w0 w1 r r0.
  assert (H0 : reaches (serving hello_stream) observing_options 1 say_hi
                 (entered start) 1 say_hi (entered start))
    by apply reaches_here.
  destruct (plain_text_exchange_resolves_to_the_text (serving hello_stream)
              observing_options 1 say_hi start 0 say_hi (entered start)
              hello_stream hello
              H0 eq_refl eq_refl eq_refl eq_refl eq_refl eq_refl)
    as ((A1 & A2) & _ & A3 & A4 & _).
  assert (H1 : reaches env opts 2 say_hi (entered start) 1 say_hi w1).
  { eapply reaches_later; [ | apply reaches_here ].
    apply (next_handled env opts say_hi (entered start)
             {| id := "id-1"; createdAt := Some 0; content := EmptyString;
                role := assistant; name := None;
                function_call := Some structured_call_f |}
             w0 structured_call_f
             (fun _ _ => mkAwaited true (inr (Some say_hi))) say_hi);
      [ vm_compute; reflexivity | reflexivity | exact I | reflexivity
      | reflexivity ]. }
  assert (H2 : settled (fetch env (requests w1) (turn_request opts say_hi w1))
               = inr hello_stream) by (vm_compute; reflexivity).
  assert (H3 : abortController w1 = None) by (vm_compute; reflexivity).
  pose proof (plain_text_exchange_resolves_to_the_text env opts 2 say_hi start
                0 say_hi w1 hello_stream hello
                H1 H2 eq_refl eq_refl eq_refl) as B.
  cbv zeta in B. rewrite H3 in B.
  destruct (B eq_refl eq_refl) as ((B1 & B2) & B3 & _).
  assert (H4 : requests w1 = 1) by (vm_compute; reflexivity).
  rewrite H4 in B3.
  split.
  - split; [ exact H0 | ]. split; [ reflexivity | ].
    split; [ exact A1 | ]. split; [ exact A2 | ].
    split; [ exact A3 | exact A4 ].
  - split; [ exact H1 | ]. split; [ exact H3 | ]. split; [ exact H2 | ].
    split; [ exact B1 | ]. split; [ exact B2 | exact B3 ].
Defined.

Lemma response_without_body_witness :
  let env := serving empty_body in
  let r := triggerRequest env observing_options 1 say_hi start in
  reaches env observing_options 1 say_hi (entered start)
          1 say_hi (entered start)
  /\ settled (fetch env (requests (entered start))
                (turn_request observing_options say_hi (entered start)))
     = inr empty_body
  /\ accepted (onResponse observing_options) empty_body
  /\ ok empty_body = true /\ res_body empty_body = None
  /\ reported (onError observing_options)
              (new_Error "The response body is empty.")
  /\ fst r = Ret RUndefined
  /\ error (snd r) = Some (new_Error "The response body is empty.")
  /\ messages (snd r) = [with_id "m1" hi].
Proof.
  intros env r.
  assert (H1 : reaches env observing_options 1 say_hi (entered start)
                 1 say_hi (entered start)) by apply reaches_here.
  assert (H2 : reported (onError observing_options)
                 (new_Error "The response body is empty."))
    by (intros _; reflexivity).
  destruct (response_without_body_fails_without_rollback env observing_options
              1 say_hi start 0 say_hi (entered start) empty_body
              H1 eq_refl eq_refl eq_refl eq_refl H2)
    as (Hr & He & Hm & _).
  repeat split; auto.
Defined.

Lemma malformed_function_call_witness :
  let env := serving (ok_stream (chunk_reads truncated_call)) in
  let r := triggerRequest env observing_options 1 say_hi start in
  reaches env observing_options 1 say_hi (entered start)
          1 say_hi (entered start)
  /\ accepted (onResponse observing_options)
              (ok_stream (chunk_reads truncated_call))
  /\ consumed (abortController (entered start)) truncated_call = truncated_call
  /\ String.prefix function_call_prefix (stream_text truncated_call) = true
  /\ Json.parse (stream_text truncated_call) = inl Json.SyntaxError
  /\ reported (onError observing_options) Json.SyntaxError
  /\ fst r = Ret RUndefined
  /\ error (snd r) = Some Json.SyntaxError
  /\ exists m,
      messages (snd r) = [with_id "m1" hi; m]
      /\ function_call m = Some (JString (stream_text truncated_call)).
Proof.
  intros env r.
  assert (H1 : reaches env observing_options 1 say_hi (entered start)
                 1 say_hi (entered start)) by apply reaches_here.
  assert (H2 : reported (onError observing_options) Json.SyntaxError)
    by (intros _; reflexivity).
  destruct (malformed_function_call_is_reported env observing_options 1
              say_hi start 0 say_hi (entered start)
              (ok_stream (chunk_reads truncated_call)) truncated_call
              Json.SyntaxError
              H1 eq_refl eq_refl eq_refl eq_refl eq_refl eq_refl H2)
    as (Hr & He & _ & m & Hm & Hf & _).
  repeat split; auto. exists m. auto.
Defined.

Lemma fetch_rejection_witness :
  let r := triggerRequest unreachable default_options 1 say_hi start in
  reaches unreachable default_options 1 say_hi (entered start)
          1 say_hi (entered start)
  /\ settled (fetch unreachable (requests (entered start))
                (turn_request default_options say_hi (entered start)))
     = inl network_error
  /\ reported (onError default_options) network_error
  /\ messages (snd r) = []
  /\ store (snd r) !! key default_options = Some []
  /\ fst r = Ret RUndefined
  /\ error (snd r) = Some network_error.
Proof.
  intros r.
  assert (H1 : reaches unreachable default_options 1 say_hi (entered start)
                 1 say_hi (entered start)) by apply reaches_here.
  destruct (fetch_rejection_rolls_back unreachable default_options 1
              say_hi start 0 say_hi (entered start) network_error
              H1 eq_refl (or_intror I))
    as (Hm & Hs & _ & Hr & He).
  repeat split; auto.
Defined.

Lemma exchange_ends_witness :
  let env := server_always_calls in
  let t := engine_turn env declining_options say_hi (entered start) in
  let r := triggerRequest env declining_options 1 say_hi start in
  reaches env declining_options 1 say_hi (entered start)
          1 say_hi (entered start)
  /\ (exists m, t = (Ret m, snd t) /\ declined declining_options m (snd t))
  /\ fst r = Ret (RString EmptyString)
  /\ fetched (trace (snd r)) = fetched (trace (snd t))
  /\ length (fetched (trace (snd r))) = 1
  /\ abortController (snd r) = None.
Proof.
  intros env t r.
  assert (H1 : reaches env declining_options 1 say_hi (entered start)
                 1 say_hi (entered start)) by apply reaches_here.
  set (m := {| id := "id-1"; createdAt := Some 0; content := EmptyString;
               role := assistant; name := None;
               function_call :=
                 Some (JObject [("name", JString "f");
                                ("arguments", JString "{}")]) |}).
  assert (H2 : t = (Ret m, snd t)) by (vm_compute; reflexivity).
  assert (H3 : declined declining_options m (snd t)).
  { exists (JObject [("name", JString "f"); ("arguments", JString "{}")]),
           (fun _ _ => resolves None).
    repeat split. }
  destruct (exchange_ends_when_no_request_follows env declining_options 1
              say_hi start 0 say_hi (entered start) m (snd t)
              H1 H2 (or_intror H3))
    as (Hr & Hf & _ & _ & Ha & _).
  repeat split; eauto.
Defined.

Lemma sessions_witness :
  no_id None = true
  /\ chatId default_options = fst (chat_id None 0)
  /\ chatId second_session = fst (chat_id None 1)
  /\ api second_session = api default_options
  /\ key second_session <> key default_options
  /\ store (snd (triggerRequest (serving hello_stream) default_options 1
                   say_hi start)) !! key second_session
     = None.
Proof.
  assert (H : 0 <> 1) by lia.
  destruct (sessions_with_generated_ids_do_not_share_a_slot
              (serving hello_stream) default_options second_session
              None None 0 1 1 say_hi start
              eq_refl eq_refl eq_refl eq_refl eq_refl H)
    as (Hk & Hs).
  repeat split; auto.
Defined.

Lemma reload_after_an_exchange_witness :
  let env := serving hello_stream in
  let after := snd (triggerRequest env observing_options 1 say_hi start) in
  reaches env observing_options 1 say_hi (entered start)
          1 say_hi (entered start)
  /\ accepted (onResponse observing_options) hello_stream
  /\ hello <> []
  /\ String.prefix function_call_prefix
       (stream_text (consumed (abortController (entered start)) hello))
     = false
  /\ finished (onFinish observing_options)
       (set_content "Hello" (reply env (entered start)))
  /\ reload env observing_options 1 (options_of say_hi) after
     = triggerRequest env observing_options 1 say_hi after.
Proof.
  intros env after.
  assert (H1 : reaches env observing_options 1 say_hi (entered start)
                 1 say_hi (entered start)) by apply reaches_here.
  assert (H2 : hello <> []) by discriminate.
  destruct (reload_after_an_exchange_repeats_its_request env observing_options
              1 say_hi start 0 say_hi (entered start) hello_stream hello 0
              H1 eq_refl eq_refl eq_refl eq_refl H2 eq_refl eq_refl)
    as (Hre & _).
  repeat split; auto.
Defined.
